(** * PyPaint: the canvas state engine of [main.py]

    A shallow embedding of the [Canvas] widget of [src/code/main.py]: the
    pixel buffer, the undo/redo history, the tool state and its signals,
    the flood fill and the zoom arithmetic, followed by the properties
    the specification states about them.

    Conventions of the embedding.
    - Python [float] and C++ [double] are IEEE binary64; they are modelled
      by [spec_float] with the operations of [SpecFloat] at precision 53.
    - A [QImage] in [Format_ARGB32] is a width, a height and the row-major
      list of its pixels.  [QImage.copy()] returns a fresh object, and the
      live image object is never itself stored in a history stack (only
      copies are pushed, and a popped entry leaves its stack), hence
      images are modelled as values.
    - Signals are recorded in the order of emission in the field
      [emitted].
    - Repaint requests ([update()]), cursor shapes, the checkerboard
      pixmap and the fixed widget size are presentation only and are not
      part of the state.  *)

From Stdlib Require Import ZArith Lia List Bool Ascii String.
From Stdlib Require Import Floats.SpecFloat.
From stdpp Require Import base decidable option list gmap strings.

Open Scope Z_scope.

(* ================================================================== *)
(** * Constants of [main.py] *)

Definition DEFAULT_WIDTH : Z := 800.
Definition DEFAULT_HEIGHT : Z := 600.
Definition DEFAULT_PEN_SIZE : Z := 5.
Definition MAX_PEN_SIZE : Z := 100.
Definition MIN_PEN_SIZE : Z := 1.
Definition SIZE_STEP : Z := 1.
Definition MAX_UNDO_STATES : nat := 50.
Definition MAX_CANVAS_DIM : Z := 10000.

(* ================================================================== *)
(** * Binary64 arithmetic *)

Module Float.

Definition prec : Z := 53.
Definition emax : Z := 1024.

Definition float : Type := spec_float.

Definition mul : float -> float -> float := SFmul prec emax.
Definition div : float -> float -> float := SFdiv prec emax.
Definition sub : float -> float -> float := SFsub prec emax.
Definition abs : float -> float := SFabs.
Definition ltb : float -> float -> bool := SFltb.
Definition leb : float -> float -> bool := SFleb.
Definition valid : float -> bool := valid_binary prec emax.

(** Conversion of an integer (exact below 2^53). *)
Definition of_int (n : Z) : float := binary_normalize prec emax n 0 false.

(** The literals of the source, as the binary64 nearest to the decimal:
    mantissa and exponent of [0x1.999999999999ap-4] and so on. *)
Definition f0_1 : float := S754_finite false 7205759403792794 (-56).
Definition f16 : float := S754_finite false 4503599627370496 (-48).
Definition f0_001 : float := S754_finite false 4611686018427388 (-62).
Definition f1 : float := S754_finite false 4503599627370496 (-52).

(** Python's [min(a, b)] and [max(a, b)]: the second argument replaces
    the first only when it compares strictly smaller (larger). *)
Definition py_min (a b : float) : float := if ltb b a then b else a.
Definition py_max (a b : float) : float := if ltb a b then b else a.

(** Rounding of the magnitude [m * 2^e] to an integer. *)
Inductive rounding : Set := HalfEven | HalfAway.

Definition round_magnitude (mode : rounding) (m : positive) (e : Z) : Z :=
  if 0 <=? e then Z.pos m * 2 ^ e
  else
    let d := 2 ^ (- e) in
    let q := Z.pos m / d in
    let r := Z.pos m mod d in
    match 2 * r ?= d with
    | Lt => q
    | Gt => q + 1
    | Eq => match mode with
            | HalfAway => q + 1
            | HalfEven => if Z.even q then q else q + 1
            end
    end.

(** [None] stands for the exception Python raises on infinities and
    NaN (and for the undefined conversion in C++). *)
Definition to_int (mode : rounding) (x : float) : option Z :=
  match x with
  | S754_zero _ => Some 0
  | S754_finite s m e => Some (cond_Zopp s (round_magnitude mode m e))
  | _ => None
  end.

(** Python's [round(x)] on a float: to nearest, ties to even. *)
Definition py_round : float -> option Z := to_int HalfEven.

(** Qt's [qRound]: to nearest, ties away from zero, into a C [int]. *)
Definition qRound (x : float) : option Z :=
  match to_int HalfAway x with
  | Some n => if (- 2 ^ 31 <=? n) && (n <? 2 ^ 31) then Some n else None
  | None => None
  end.

End Float.

Abbreviation float := Float.float.

(* ================================================================== *)
(** * The Qt value types the canvas uses *)

Record QSize := mkQSize { sz_width : Z; sz_height : Z }.
Record QPoint := mkQPoint { pt_x : Z; pt_y : Z }.
Record QPointF := mkQPointF { ptf_x : float; ptf_y : float }.

#[global] Instance QSize_eq_dec : EqDecision QSize.
Proof. solve_decision. Defined.
#[global] Instance QPoint_eq_dec : EqDecision QPoint.
Proof. solve_decision. Defined.

(** [QSize.boundedTo]: the componentwise minimum. *)
Definition QSize_boundedTo (a b : QSize) : QSize :=
  mkQSize (Z.min (sz_width a) (sz_width b)) (Z.min (sz_height a) (sz_height b)).

Definition QPointF_of_QPoint (p : QPoint) : QPointF :=
  mkQPointF (Float.of_int (pt_x p)) (Float.of_int (pt_y p)).
Definition QPointF_div (p : QPointF) (c : float) : QPointF :=
  mkQPointF (Float.div (ptf_x p) c) (Float.div (ptf_y p) c).
Definition QPointF_mul (p : QPointF) (c : float) : QPointF :=
  mkQPointF (Float.mul (ptf_x p) c) (Float.mul (ptf_y p) c).
Definition QPointF_sub (p q : QPointF) : QPointF :=
  mkQPointF (Float.sub (ptf_x p) (ptf_x q)) (Float.sub (ptf_y p) (ptf_y q)).

(** [QPointF.toPoint()] rounds both coordinates with [qRound]. *)
Definition QPointF_toPoint (p : QPointF) : option QPoint :=
  match Float.qRound (ptf_x p), Float.qRound (ptf_y p) with
  | Some x, Some y => Some (mkQPoint x y)
  | _, _ => None
  end.

(** A pixel of [Format_ARGB32]: four 8-bit channels. *)
Record Pixel := ARGB { red : Z; green : Z; blue : Z; alpha : Z }.

(** A [QColor] is either invalid or carries channel values. *)
Inductive QColor :=
| QColor_invalid
| QColor_rgba (px : Pixel).

#[global] Instance Pixel_eq_dec : EqDecision Pixel.
Proof. solve_decision. Defined.
#[global] Instance QColor_eq_dec : EqDecision QColor.
Proof. solve_decision. Defined.

Definition QColor_isValid (c : QColor) : bool :=
  match c with QColor_invalid => false | QColor_rgba _ => true end.

Definition px_transparent : Pixel := ARGB 0 0 0 0.
Definition Qt_transparent : QColor := QColor_rgba px_transparent.
Definition Qt_black : QColor := QColor_rgba (ARGB 0 0 0 255).
Definition Qt_white : QColor := QColor_rgba (ARGB 255 255 255 255).
Definition Qt_red : QColor := QColor_rgba (ARGB 255 0 0 255).

(** ** QImage *)

Record QImage := mkQImage {
  image_width : Z;
  image_height : Z;
  image_bits : list Pixel   (* row-major: pixel (x, y) at index y * width + x *)
}.

#[global] Instance QImage_eq_dec : EqDecision QImage.
Proof. solve_decision. Defined.

Definition QImage_size (img : QImage) : QSize :=
  mkQSize (image_width img) (image_height img).

Definition QImage_isNull (img : QImage) : bool :=
  (image_width img <=? 0) || (image_height img <=? 0).

(** The image whose pixel (x, y) is [f x y]. *)
Definition QImage_tabulate (w h : Z) (f : Z -> Z -> Pixel) : QImage :=
  mkQImage w h (map (fun i => f (i mod w) (i / w)) (seqZ 0 (w * h))).

(** [QImage(size, Format_ARGB32)] followed by [fill(color)]; a size with
    a non-positive side gives the null image. *)
Definition QImage_filled (size : QSize) (c : Pixel) : QImage :=
  if (sz_width size <=? 0) || (sz_height size <=? 0) then mkQImage 0 0 []
  else mkQImage (sz_width size) (sz_height size)
         (replicate (Z.to_nat (sz_width size * sz_height size)) c).

(** [image.fill(color)] on an existing image. *)
Definition QImage_fill (img : QImage) (c : Pixel) : QImage :=
  mkQImage (image_width img) (image_height img)
    (replicate (length (image_bits img)) c).

(** [image.copy()]: a deep copy, the same value. *)
Definition QImage_copy (img : QImage) : QImage := img.

(** [image.rect().contains(QPoint(x, y))]. *)
Definition QImage_contains (img : QImage) (x y : Z) : bool :=
  (0 <=? x) && (x <? image_width img) && (0 <=? y) && (y <? image_height img).

Definition pixel_index (img : QImage) (x y : Z) : nat :=
  Z.to_nat (y * image_width img + x).

(** [image.pixelColor(x, y)]: an invalid colour out of range. *)
Definition pixelColor (img : QImage) (x y : Z) : QColor :=
  if QImage_contains img x y then
    match image_bits img !! pixel_index img x y with
    | Some px => QColor_rgba px
    | None => QColor_invalid
    end
  else QColor_invalid.

(** [image.setPixelColor(x, y, color)]: ignored out of range and for an
    invalid colour. *)
Definition setPixelColor (img : QImage) (x y : Z) (c : QColor) : QImage :=
  match c with
  | QColor_rgba px =>
      if QImage_contains img x y then
        mkQImage (image_width img) (image_height img)
          (<[pixel_index img x y := px]> (image_bits img))
      else img
  | QColor_invalid => img
  end.

(** ** Painting an image on an image

    A painter on a [Format_ARGB32] image works on premultiplied pixels:
    the source pixel is premultiplied ([qPremultiply]), composed with the
    premultiplied destination (source-over), and the result is stored
    unpremultiplied ([qUnpremultiply]).  Pixels that are opaque, and
    pixels that are [0 0 0 0], come through unchanged; a pixel of alpha 0
    that still carries a colour becomes [0 0 0 0], and a partially
    transparent one is rounded twice on the way. *)

(** [BYTE_MUL] on one channel: [c * a / 255], rounded. *)
Definition qt_byte_mul (c a : Z) : Z :=
  let t := c * a in
  Z.shiftr (t + Z.shiftr t 8 + 128) 8.

Definition qPremultiply (p : Pixel) : Pixel :=
  ARGB (qt_byte_mul (red p) (alpha p)) (qt_byte_mul (green p) (alpha p))
       (qt_byte_mul (blue p) (alpha p)) (alpha p).

(** The table [qt_inv_premul_factor]: [0x00ff0000 / alpha]. *)
Definition qt_inv_premul_factor (a : Z) : Z := 16711680 / a.

Definition qUnpremultiply (p : Pixel) : Pixel :=
  if alpha p =? 255 then p
  else if alpha p =? 0 then ARGB 0 0 0 0
  else
    let inv_alpha := qt_inv_premul_factor (alpha p) in
    ARGB (Z.shiftr (red p * inv_alpha + 32768) 16)
         (Z.shiftr (green p * inv_alpha + 32768) 16)
         (Z.shiftr (blue p * inv_alpha + 32768) 16)
         (alpha p).

(** [CompositionMode_SourceOver] on premultiplied pixels: [s] over [d]. *)
Definition source_over (s d : Pixel) : Pixel :=
  if 255 <=? alpha s then s
  else if decide (s = ARGB 0 0 0 0) then d
  else
    let ia := 255 - alpha s in
    ARGB (red s + qt_byte_mul (red d) ia) (green s + qt_byte_mul (green d) ia)
         (blue s + qt_byte_mul (blue d) ia) (alpha s + qt_byte_mul (alpha d) ia).

(** What the painter leaves where it draws [src] on [dst]. *)
Definition QPainter_compose (src dst : Pixel) : Pixel :=
  qUnpremultiply (source_over (qPremultiply src) (qPremultiply dst)).

(** [QPainter(dst).drawImage(QRect(0, 0, size), src, QRect(0, 0, size))]
    with the default composition mode: the pixels of [src] inside the
    rectangle (clipped to both images) are composed with those of [dst];
    the others are left alone. *)
Definition QPainter_drawImage (rect : QSize) (src dst : QImage) : QImage :=
  QImage_tabulate (image_width dst) (image_height dst)
    (fun x y =>
       let d := default px_transparent (image_bits dst !! pixel_index dst x y) in
       if (x <? sz_width rect) && (y <? sz_height rect) && QImage_contains src x y
       then QPainter_compose
              (default px_transparent (image_bits src !! pixel_index src x y)) d
       else d).

(** ** Scroll bars of the hosting scroll area *)

Record QScrollBar := mkQScrollBar {
  sb_value : Z;
  sb_minimum : Z;
  sb_maximum : Z
}.

(** [setValue] keeps the value inside the bar's range. *)
Definition QScrollBar_setValue (sb : QScrollBar) (v : Z) : QScrollBar :=
  mkQScrollBar (Z.max (sb_minimum sb) (Z.min v (sb_maximum sb)))
    (sb_minimum sb) (sb_maximum sb).

(** ** Pens and painting primitives *)

Inductive CompositionMode :=
| CompositionMode_SourceOver
| CompositionMode_Clear.

Record QPen := mkQPen {
  pen_width : Z;
  pen_color : QColor     (* round cap, round join *)
}.

(** ** Mouse events *)

Inductive MouseButton := LeftButton | RightButton | OtherButton.

#[global] Instance MouseButton_eq_dec : EqDecision MouseButton.
Proof. solve_decision. Defined.

Record QMouseEvent := mkQMouseEvent {
  ev_button : MouseButton;          (* event.button() *)
  ev_buttons : list MouseButton;    (* event.buttons(): the buttons held *)
  ev_position : QPointF             (* event.position() *)
}.

(* ================================================================== *)
(** * [collections.deque] with [maxlen] *)

Module Deque.

(** [d.append(x)]: when full, the leftmost entry is discarded. *)
Definition append {A : Type} (maxlen : nat) (d : list A) (x : A) : list A :=
  let d' := d ++ [x] in
  drop (length d' - maxlen) d'.

(** [d.pop()]: the rightmost entry together with the rest;
    [None] is the [IndexError] of an empty deque. *)
Definition pop {A : Type} (d : list A) : option (A * list A) :=
  match last d with
  | Some x => Some (x, removelast d)
  | None => None
  end.

End Deque.

(* ================================================================== *)
(** * The canvas *)

Inductive Signal :=
| color_changed (c : QColor)
| pen_size_changed (n : Z)
| history_changed.

(** The attributes of a [Canvas] instance, together with the two scroll
    bars of its scroll area and the signals emitted.

    The geometry of the widget is not part of the state.
    [_update_widget_size()], which [undo], [redo], [resize_canvas],
    [load_image] and the zoom functions call, gives the widget the size
    of the scaled image; the scroll area answers by new ranges for its
    bars and by bringing their values into these ranges.  That answer
    depends on the size of the viewport and is Qt's; it is left out, so
    that [h_bar] and [v_bar] tell nothing about the application after
    one of these calls. *)
Record Canvas := mkCanvas {
  current_tool : string;
  current_color : QColor;
  brush_size : Z;
  eraser_size : Z;
  drawing : bool;
  last_point : QPointF;
  _image_size : QSize;
  image : QImage;
  scale_factor : float;
  undo_stack : list (QImage * QSize);
  redo_stack : list (QImage * QSize);
  _current_stroke_saved : bool;
  panning : bool;
  pan_start_pos : QPoint;
  cursor_pos : QPoint;
  h_bar : QScrollBar;   (* scroll_area.horizontalScrollBar() *)
  v_bar : QScrollBar;   (* scroll_area.verticalScrollBar() *)
  emitted : list Signal   (* signals emitted so far, oldest first *)
}.

(** Attribute assignment, one function per attribute. *)
Definition set_current_tool (v : string) (c : Canvas) : Canvas :=
  mkCanvas v (current_color c) (brush_size c) (eraser_size c) (drawing c) (last_point c) (_image_size c) (image c) (scale_factor c) (undo_stack c) (redo_stack c) (_current_stroke_saved c) (panning c) (pan_start_pos c) (cursor_pos c) (h_bar c) (v_bar c) (emitted c).
Definition set_current_color (v : QColor) (c : Canvas) : Canvas :=
  mkCanvas (current_tool c) v (brush_size c) (eraser_size c) (drawing c) (last_point c) (_image_size c) (image c) (scale_factor c) (undo_stack c) (redo_stack c) (_current_stroke_saved c) (panning c) (pan_start_pos c) (cursor_pos c) (h_bar c) (v_bar c) (emitted c).
Definition set_brush_size (v : Z) (c : Canvas) : Canvas :=
  mkCanvas (current_tool c) (current_color c) v (eraser_size c) (drawing c) (last_point c) (_image_size c) (image c) (scale_factor c) (undo_stack c) (redo_stack c) (_current_stroke_saved c) (panning c) (pan_start_pos c) (cursor_pos c) (h_bar c) (v_bar c) (emitted c).
Definition set_eraser_size (v : Z) (c : Canvas) : Canvas :=
  mkCanvas (current_tool c) (current_color c) (brush_size c) v (drawing c) (last_point c) (_image_size c) (image c) (scale_factor c) (undo_stack c) (redo_stack c) (_current_stroke_saved c) (panning c) (pan_start_pos c) (cursor_pos c) (h_bar c) (v_bar c) (emitted c).
Definition set_drawing (v : bool) (c : Canvas) : Canvas :=
  mkCanvas (current_tool c) (current_color c) (brush_size c) (eraser_size c) v (last_point c) (_image_size c) (image c) (scale_factor c) (undo_stack c) (redo_stack c) (_current_stroke_saved c) (panning c) (pan_start_pos c) (cursor_pos c) (h_bar c) (v_bar c) (emitted c).
Definition set_last_point (v : QPointF) (c : Canvas) : Canvas :=
  mkCanvas (current_tool c) (current_color c) (brush_size c) (eraser_size c) (drawing c) v (_image_size c) (image c) (scale_factor c) (undo_stack c) (redo_stack c) (_current_stroke_saved c) (panning c) (pan_start_pos c) (cursor_pos c) (h_bar c) (v_bar c) (emitted c).
Definition set__image_size (v : QSize) (c : Canvas) : Canvas :=
  mkCanvas (current_tool c) (current_color c) (brush_size c) (eraser_size c) (drawing c) (last_point c) v (image c) (scale_factor c) (undo_stack c) (redo_stack c) (_current_stroke_saved c) (panning c) (pan_start_pos c) (cursor_pos c) (h_bar c) (v_bar c) (emitted c).
Definition set_image (v : QImage) (c : Canvas) : Canvas :=
  mkCanvas (current_tool c) (current_color c) (brush_size c) (eraser_size c) (drawing c) (last_point c) (_image_size c) v (scale_factor c) (undo_stack c) (redo_stack c) (_current_stroke_saved c) (panning c) (pan_start_pos c) (cursor_pos c) (h_bar c) (v_bar c) (emitted c).
Definition set_scale_factor (v : float) (c : Canvas) : Canvas :=
  mkCanvas (current_tool c) (current_color c) (brush_size c) (eraser_size c) (drawing c) (last_point c) (_image_size c) (image c) v (undo_stack c) (redo_stack c) (_current_stroke_saved c) (panning c) (pan_start_pos c) (cursor_pos c) (h_bar c) (v_bar c) (emitted c).
Definition set_undo_stack (v : list (QImage * QSize)) (c : Canvas) : Canvas :=
  mkCanvas (current_tool c) (current_color c) (brush_size c) (eraser_size c) (drawing c) (last_point c) (_image_size c) (image c) (scale_factor c) v (redo_stack c) (_current_stroke_saved c) (panning c) (pan_start_pos c) (cursor_pos c) (h_bar c) (v_bar c) (emitted c).
Definition set_redo_stack (v : list (QImage * QSize)) (c : Canvas) : Canvas :=
  mkCanvas (current_tool c) (current_color c) (brush_size c) (eraser_size c) (drawing c) (last_point c) (_image_size c) (image c) (scale_factor c) (undo_stack c) v (_current_stroke_saved c) (panning c) (pan_start_pos c) (cursor_pos c) (h_bar c) (v_bar c) (emitted c).
Definition set__current_stroke_saved (v : bool) (c : Canvas) : Canvas :=
  mkCanvas (current_tool c) (current_color c) (brush_size c) (eraser_size c) (drawing c) (last_point c) (_image_size c) (image c) (scale_factor c) (undo_stack c) (redo_stack c) v (panning c) (pan_start_pos c) (cursor_pos c) (h_bar c) (v_bar c) (emitted c).
Definition set_panning (v : bool) (c : Canvas) : Canvas :=
  mkCanvas (current_tool c) (current_color c) (brush_size c) (eraser_size c) (drawing c) (last_point c) (_image_size c) (image c) (scale_factor c) (undo_stack c) (redo_stack c) (_current_stroke_saved c) v (pan_start_pos c) (cursor_pos c) (h_bar c) (v_bar c) (emitted c).
Definition set_pan_start_pos (v : QPoint) (c : Canvas) : Canvas :=
  mkCanvas (current_tool c) (current_color c) (brush_size c) (eraser_size c) (drawing c) (last_point c) (_image_size c) (image c) (scale_factor c) (undo_stack c) (redo_stack c) (_current_stroke_saved c) (panning c) v (cursor_pos c) (h_bar c) (v_bar c) (emitted c).
Definition set_cursor_pos (v : QPoint) (c : Canvas) : Canvas :=
  mkCanvas (current_tool c) (current_color c) (brush_size c) (eraser_size c) (drawing c) (last_point c) (_image_size c) (image c) (scale_factor c) (undo_stack c) (redo_stack c) (_current_stroke_saved c) (panning c) (pan_start_pos c) v (h_bar c) (v_bar c) (emitted c).
Definition set_h_bar (v : QScrollBar) (c : Canvas) : Canvas :=
  mkCanvas (current_tool c) (current_color c) (brush_size c) (eraser_size c) (drawing c) (last_point c) (_image_size c) (image c) (scale_factor c) (undo_stack c) (redo_stack c) (_current_stroke_saved c) (panning c) (pan_start_pos c) (cursor_pos c) v (v_bar c) (emitted c).
Definition set_v_bar (v : QScrollBar) (c : Canvas) : Canvas :=
  mkCanvas (current_tool c) (current_color c) (brush_size c) (eraser_size c) (drawing c) (last_point c) (_image_size c) (image c) (scale_factor c) (undo_stack c) (redo_stack c) (_current_stroke_saved c) (panning c) (pan_start_pos c) (cursor_pos c) (h_bar c) v (emitted c).
Definition set_emitted (v : list Signal) (c : Canvas) : Canvas :=
  mkCanvas (current_tool c) (current_color c) (brush_size c) (eraser_size c) (drawing c) (last_point c) (_image_size c) (image c) (scale_factor c) (undo_stack c) (redo_stack c) (_current_stroke_saved c) (panning c) (pan_start_pos c) (cursor_pos c) (h_bar c) (v_bar c) v.

Definition emit (s : Signal) (c : Canvas) : Canvas :=
  set_emitted (emitted c ++ [s]) c.

(** [str.lower()] on the ASCII letters. *)
Definition ascii_lower (a : ascii) : ascii :=
  let n := nat_of_ascii a in
  if (65 <=? n)%nat && (n <=? 90)%nat then ascii_of_nat (n + 32) else a.

Fixpoint str_lower (s : string) : string :=
  match s with
  | EmptyString => EmptyString
  | String a s' => String (ascii_lower a) (str_lower s')
  end.

(** [Canvas.__init__], given the scroll bars of its scroll area. *)
Definition Canvas_init (h v : QScrollBar) : Canvas :=
  {| current_tool := "brush";
     current_color := Qt_black;
     brush_size := DEFAULT_PEN_SIZE;
     eraser_size := DEFAULT_PEN_SIZE;
     drawing := false;
     last_point := mkQPointF (S754_zero false) (S754_zero false);
     _image_size := mkQSize DEFAULT_WIDTH DEFAULT_HEIGHT;
     image := QImage_filled (mkQSize DEFAULT_WIDTH DEFAULT_HEIGHT) px_transparent;
     scale_factor := Float.f1;
     undo_stack := [];
     redo_stack := [];
     _current_stroke_saved := false;
     panning := false;
     pan_start_pos := mkQPoint 0 0;
     cursor_pos := mkQPoint 0 0;
     h_bar := h;
     v_bar := v;
     emitted := [] |}.

(** ** Tool state *)

Definition current_pen_size (c : Canvas) : Z :=
  if String.eqb (current_tool c) "brush" then brush_size c
  else if String.eqb (current_tool c) "eraser" then eraser_size c
  else 1.

Definition set_tool (c : Canvas) (tool : string) : Canvas :=
  let new_tool := str_lower tool in
  if negb (String.eqb new_tool (current_tool c)) then
    let c := set_current_tool new_tool c in
    emit (pen_size_changed (current_pen_size c)) c
  else c.

Definition set_color (c : Canvas) (color : QColor) : Canvas :=
  if QColor_isValid color then
    let c := set_current_color color c in
    emit (color_changed color) c
  else c.

Definition set_pen_size (c : Canvas) (size : Z) : Canvas :=
  let new_size := Z.max MIN_PEN_SIZE (Z.min size MAX_PEN_SIZE) in
  if String.eqb (current_tool c) "brush" && negb (brush_size c =? new_size) then
    set_brush_size new_size c              (* changed = True: update() *)
  else if String.eqb (current_tool c) "eraser" && negb (eraser_size c =? new_size) then
    set_eraser_size new_size c             (* changed = True: update() *)
  else c.

Definition adjust_size (c : Canvas) (delta : Z) : Canvas :=
  let target_size := current_pen_size c + delta in
  let new_size := Z.max MIN_PEN_SIZE (Z.min target_size MAX_PEN_SIZE) in
  if String.eqb (current_tool c) "brush" && negb (brush_size c =? new_size) then
    emit (pen_size_changed new_size) (set_brush_size new_size c)
  else if String.eqb (current_tool c) "eraser" && negb (eraser_size c =? new_size) then
    emit (pen_size_changed new_size) (set_eraser_size new_size c)
  else c.

(** ** Coordinates *)

Definition _to_image_coords (c : Canvas) (widget_pos : QPointF) : QPointF :=
  QPointF_div widget_pos (scale_factor c).

Definition _to_widget_coords (c : Canvas) (image_pos : QPointF) : option QPoint :=
  QPointF_toPoint (QPointF_mul image_pos (scale_factor c)).

(** ** Undo and redo *)

Definition _save_state (c : Canvas) (initial : bool) : Canvas :=
  let state_tuple := (QImage_copy (image c), _image_size c) in
  let c := set_undo_stack (Deque.append MAX_UNDO_STATES (undo_stack c) state_tuple) c in
  let c := if negb initial then set_redo_stack [] c else c in
  let c := emit history_changed c in
  set__current_stroke_saved false c.

Definition can_undo (c : Canvas) : bool := (1 <? length (undo_stack c))%nat.

Definition can_redo (c : Canvas) : bool := (0 <? length (redo_stack c))%nat.

Definition undo (c : Canvas) : Canvas :=
  if negb (can_undo c) then c
  else
    let current_state := (QImage_copy (image c), _image_size c) in
    let c := set_redo_stack (Deque.append MAX_UNDO_STATES (redo_stack c) current_state) c in
    match Deque.pop (undo_stack c) with
    | Some ((prev_image, prev_size), rest) =>
        let c := set_undo_stack rest c in
        let c := set_image prev_image c in
        let c := set__image_size prev_size c in
        emit history_changed c             (* after [_update_widget_size()] *)
    | None => c                            (* excluded by [can_undo] *)
    end.

Definition redo (c : Canvas) : Canvas :=
  if negb (can_redo c) then c
  else
    let current_state := (QImage_copy (image c), _image_size c) in
    let c := set_undo_stack (Deque.append MAX_UNDO_STATES (undo_stack c) current_state) c in
    match Deque.pop (redo_stack c) with
    | Some ((next_image, next_size), rest) =>
        let c := set_redo_stack rest c in
        let c := set_image next_image c in
        let c := set__image_size next_size c in
        emit history_changed c             (* after [_update_widget_size()] *)
    | None => c                            (* excluded by [can_redo] *)
    end.

(** ** Clearing, resizing, loading *)

Definition clear_canvas (c : Canvas) : Canvas :=
  let c := set__current_stroke_saved true c in
  let c := _save_state c false in
  set_image (QImage_fill (image c) px_transparent) c.

(** Whether a Python [int] fits the C [int] of a [QSize] or [QPoint]. *)
Definition fits_int (n : Z) : bool := (- 2 ^ 31 <=? n) && (n <? 2 ^ 31).

(** [QSize(new_width, new_height)] raises [OverflowError] on a dimension
    that does not fit a C [int]; it is the first statement, so that the
    canvas is then left as it was.  ([resize_canvas_raises] tells this
    case from the early return on an unchanged size.) *)
Definition resize_canvas_raises (new_width new_height : Z) : bool :=
  negb (fits_int new_width && fits_int new_height).

Definition resize_canvas (c : Canvas) (new_width new_height : Z) : Canvas :=
  if resize_canvas_raises new_width new_height then c
  else
    let new_size := mkQSize new_width new_height in
    if decide (new_size = _image_size c) then c
    else
      let c := _save_state c false in
      let new_image := QImage_filled new_size px_transparent in
      let target_rect := QSize_boundedTo (_image_size c) new_size in
      let new_image := QPainter_drawImage target_rect (image c) new_image in
      let c := set_image new_image c in
      set__image_size new_size c.              (* then [_update_widget_size()] *)

(** [new_image] stands for the result of [convertToFormat(Format_ARGB32)]. *)
Definition load_image (c : Canvas) (new_image : QImage) : Canvas :=
  if QImage_isNull new_image then c
  else
    let c := set_image new_image c in
    let c := set__image_size (QImage_size (image c)) c in
    let c := set_undo_stack [] c in
    let c := set_redo_stack [] c in
    let c := _save_state c true in
    set_scale_factor Float.f1 c.

(** ** Zoom *)

Definition _zoom_at_point (c : Canvas) (widget_point : QPoint) (factor : float)
  : option Canvas :=
  let old_scale := scale_factor c in
  let new_scale := Float.mul old_scale factor in
  let new_scale := Float.py_max Float.f0_1 (Float.py_min new_scale Float.f16) in
  if Float.ltb (Float.abs (Float.sub new_scale old_scale)) Float.f0_001 then Some c
  else
    let image_point := QPointF_div (QPointF_of_QPoint widget_point) old_scale in
    let c := set_scale_factor new_scale c in
    let target_widget_pos_f := QPointF_mul image_point new_scale in
    let delta_f := QPointF_sub target_widget_pos_f (QPointF_of_QPoint widget_point) in
    dx ← Float.py_round (ptf_x delta_f);
    dy ← Float.py_round (ptf_y delta_f);
    let new_h_val := sb_value (h_bar c) + dx in
    let new_v_val := sb_value (v_bar c) + dy in
    let c := set_h_bar (QScrollBar_setValue (h_bar c) new_h_val) c in
    Some (set_v_bar (QScrollBar_setValue (v_bar c) new_v_val) c).

(** ** Flood fill *)

Definition neighbors (x y : Z) : list (Z * Z) :=
  [(x + 1, y); (x - 1, y); (x, y + 1); (x, y - 1)].

(** The variables of the [while queue:] loop. *)
Record fill_state := mkFill {
  fs_image : QImage;
  fs_queue : list (Z * Z);
  fs_processed : gset (Z * Z)
}.

(** The body of [for nx, ny in neighbors]. *)
Definition enqueue_new (qp : list (Z * Z) * gset (Z * Z)) (n : Z * Z)
  : list (Z * Z) * gset (Z * Z) :=
  if decide (n ∈ qp.2) then qp else (qp.1 ++ [n], qp.2 ∪ {[n]}).

(** One iteration of the loop; [None] when the queue is empty. *)
Definition flood_step (img_width img_height : Z) (target_color fill_color : QColor)
  (s : fill_state) : option fill_state :=
  match fs_queue s with
  | [] => None
  | (x, y) :: queue =>
      if negb ((0 <=? x) && (x <? img_width) && (0 <=? y) && (y <? img_height))
      then Some (mkFill (fs_image s) queue (fs_processed s))
      else if decide (pixelColor (fs_image s) x y = target_color) then
        let image := setPixelColor (fs_image s) x y fill_color in
        let qp := foldl enqueue_new (queue, fs_processed s) (neighbors x y) in
        Some (mkFill image qp.1 qp.2)
      else Some (mkFill (fs_image s) queue (fs_processed s))
  end.

(** The loop, run for at most [fuel] iterations; the result carries the
    coordinates taken from the queue, in order. *)
Fixpoint flood_run (fuel : nat) (img_width img_height : Z)
  (target_color fill_color : QColor) (s : fill_state)
  : option (fill_state * list (Z * Z)) :=
  match fs_queue s, flood_step img_width img_height target_color fill_color s with
  | p :: _, Some s' =>
      match fuel with
      | O => None
      | S fuel' =>
          match flood_run fuel' img_width img_height target_color fill_color s' with
          | Some (s_end, popped) => Some (s_end, p :: popped)
          | None => None
          end
      end
  | _, _ => Some (s, [])
  end.

(** The number of coordinates of the image and its one-pixel border. *)
Definition flood_bound (img : QImage) : nat :=
  Z.to_nat ((image_width img + 2) * (image_height img + 2)).

Definition flood_start (img : QImage) (start : QPoint) : fill_state :=
  mkFill img [(pt_x start, pt_y start)] {[ (pt_x start, pt_y start) ]}.

Definition flood_fill (c : Canvas) (start_image_point : QPoint) (erase_mode : bool)
  : Canvas :=
  if negb (QImage_contains (image c) (pt_x start_image_point) (pt_y start_image_point))
  then c
  else
    let target_color :=
      pixelColor (image c) (pt_x start_image_point) (pt_y start_image_point) in
    let fill_color :=
      if erase_mode then QColor_rgba (ARGB 0 0 0 0) else current_color c in
    if decide (target_color = fill_color) then c
    else
      let img_width := image_width (image c) in
      let img_height := image_height (image c) in
      match flood_run (flood_bound (image c)) img_width img_height
              target_color fill_color (flood_start (image c) start_image_point) with
      | Some (s, _) => set_image (fs_image s) c
      | None => c                          (* never: see [flood_run_total] *)
      end.

(** ** Strokes and mouse events

    The rasterisation of a round-capped pen by [QPainter.drawPoint] and
    [QPainter.drawLine] belongs to Qt; the canvas is parameterised by the
    two primitives, each given the pen, the composition mode and the
    image painted on. *)

Section Strokes.

Variable QPainter_drawPoint :
  QPen -> CompositionMode -> QPointF -> QImage -> QImage.
Variable QPainter_drawLine :
  QPen -> CompositionMode -> QPointF -> QPointF -> QImage -> QImage.

Definition _create_base_pen (c : Canvas) : QPen :=
  mkQPen (current_pen_size c) Qt_black.

Definition draw_point (c : Canvas) (image_point : QPointF) : Canvas :=
  let pen := _create_base_pen c in
  if String.eqb (current_tool c) "brush" then
    let pen := mkQPen (pen_width pen) (current_color c) in
    set_image (QPainter_drawPoint pen CompositionMode_SourceOver image_point (image c)) c
  else if String.eqb (current_tool c) "eraser" then
    let pen := mkQPen (pen_width pen) Qt_transparent in
    set_image (QPainter_drawPoint pen CompositionMode_Clear image_point (image c)) c
  else c.

Definition draw_line_to (c : Canvas) (end_image_point : QPointF) : Canvas :=
  let pen := _create_base_pen c in
  if String.eqb (current_tool c) "brush" then
    let pen := mkQPen (pen_width pen) (current_color c) in
    let c := set_image (QPainter_drawLine pen CompositionMode_SourceOver
                          (last_point c) end_image_point (image c)) c in
    set_last_point end_image_point c
  else if String.eqb (current_tool c) "eraser" then
    let pen := mkQPen (pen_width pen) Qt_transparent in
    let c := set_image (QPainter_drawLine pen CompositionMode_Clear
                          (last_point c) end_image_point (image c)) c in
    set_last_point end_image_point c
  else c.

(** [None]: a coordinate of the event has no [int] rounding. *)
Definition mousePressEvent (c : Canvas) (event : QMouseEvent) : option Canvas :=
  match ev_button event with
  | RightButton =>
      p ← QPointF_toPoint (ev_position event);
      Some (set_pan_start_pos p (set_panning true c))
  | LeftButton =>
      let image_pos_f := _to_image_coords c (ev_position event) in
      image_pos_i ← QPointF_toPoint image_pos_f;
      if String.eqb (current_tool c) "bucket" then
        let c := flood_fill c image_pos_i false in
        let c := set__current_stroke_saved true c in
        Some (_save_state c false)
      else
        let c := set_drawing true c in
        let c := set_last_point image_pos_f c in
        let c := draw_point c image_pos_f in
        let c := set__current_stroke_saved true c in
        Some (_save_state c false)
  | OtherButton => Some c
  end.

Definition mouseMoveEvent (c : Canvas) (event : QMouseEvent) : option Canvas :=
  current_pos ← QPointF_toPoint (ev_position event);
  let c := set_cursor_pos current_pos c in
  if panning c then
    let dx := pt_x current_pos - pt_x (pan_start_pos c) in
    let dy := pt_y current_pos - pt_y (pan_start_pos c) in
    let c := set_h_bar (QScrollBar_setValue (h_bar c) (sb_value (h_bar c) - dx)) c in
    let c := set_v_bar (QScrollBar_setValue (v_bar c) (sb_value (v_bar c) - dy)) c in
    Some (set_pan_start_pos current_pos c)
  else if bool_decide (LeftButton ∈ ev_buttons event) && drawing c then
    if String.eqb (current_tool c) "brush" || String.eqb (current_tool c) "eraser"
    then Some (draw_line_to c (_to_image_coords c (QPointF_of_QPoint current_pos)))
    else Some c
  else Some c.

Definition mouseReleaseEvent (c : Canvas) (event : QMouseEvent) : option Canvas :=
  if bool_decide (ev_button event = RightButton) && panning c then
    Some (set_panning false c)
  else
    p ← QPointF_toPoint (ev_position event);
    let c := set_cursor_pos p c in
    if bool_decide (ev_button event = LeftButton) && drawing c
    then Some (set_drawing false c)
    else Some c.

End Strokes.

(* ================================================================== *)
(** * The main window: the callers of the canvas *)

(** [MainWindow.set_up_canvas], run once after the window is shown. *)
Definition set_up_canvas (c : Canvas) : Canvas := clear_canvas c.

(** A [QSpinBox] keeps its value inside its range. *)
Record QSpinBox := mkQSpinBox {
  spin_minimum : Z;
  spin_maximum : Z;
  spin_value : Z
}.

Definition QSpinBox_setValue (sb : QSpinBox) (v : Z) : QSpinBox :=
  mkQSpinBox (spin_minimum sb) (spin_maximum sb)
    (Z.max (spin_minimum sb) (Z.min v (spin_maximum sb))).

Record ResizeDialog := mkResizeDialog {
  width_spinbox : QSpinBox;
  height_spinbox : QSpinBox
}.

(** [ResizeDialog.__init__]: [setRange(1, MAX_CANVAS_DIM)], then [setValue]. *)
Definition ResizeDialog_init (current_width current_height : Z) : ResizeDialog :=
  mkResizeDialog
    (QSpinBox_setValue (mkQSpinBox 1 MAX_CANVAS_DIM 1) current_width)
    (QSpinBox_setValue (mkQSpinBox 1 MAX_CANVAS_DIM 1) current_height).

Definition getDimensions (d : ResizeDialog) : Z * Z :=
  (spin_value (width_spinbox d), spin_value (height_spinbox d)).

(** What the user does with the dialog: the values entered in the two
    spin boxes, if any, and whether the dialog is accepted. *)
Record dialog_input := mkDialogInput {
  entered_width : option Z;
  entered_height : option Z;
  accepted : bool
}.

Definition ResizeDialog_exec (d : ResizeDialog) (u : dialog_input) : ResizeDialog :=
  mkResizeDialog
    (from_option (QSpinBox_setValue (width_spinbox d)) (width_spinbox d) (entered_width u))
    (from_option (QSpinBox_setValue (height_spinbox d)) (height_spinbox d) (entered_height u)).

(** [MainWindow.show_resize_dialog]; the boolean tells whether the
    "Invalid Size" warning was shown. *)
Definition show_resize_dialog (c : Canvas) (u : dialog_input) : Canvas * bool :=
  let current_w := sz_width (_image_size c) in
  let current_h := sz_height (_image_size c) in
  let dialog := ResizeDialog_init current_w current_h in
  let dialog := ResizeDialog_exec dialog u in
  if accepted u then
    let '(new_w, new_h) := getDimensions dialog in
    if (0 <? new_w) && (0 <? new_h) then (resize_canvas c new_w new_h, false)
    else (c, true)
  else (c, false).

(* ================================================================== *)
(** * Notions used by the statements *)

(** An image is well formed when it holds exactly width * height pixels. *)
Definition QImage_wf (img : QImage) : Prop :=
  0 <= image_width img /\ 0 <= image_height img /\
  length (image_bits img) = Z.to_nat (image_width img * image_height img).


(** A pixel the painter copies as it is: an opaque one (its channels
    being bytes), or [0 0 0 0]. *)
Definition copied_verbatim (p : Pixel) : Prop :=
  p = px_transparent \/
  (alpha p = 255 /\ 0 <= red p <= 255 /\ 0 <= green p <= 255 /\ 0 <= blue p <= 255).

(** [drawn_as q q']: [q'] is what the painter leaves of a pixel of
    colour [q] drawn on a transparent one: [q] itself when the pixel is
    copied as it is, transparent when its alpha is 0, and a colour of
    the same alpha in any case. *)
Definition drawn_as (q q' : QColor) : Prop :=
  match q with
  | QColor_rgba px =>
      (copied_verbatim px -> q' = q) /\
      (alpha px = 0 -> q' = Qt_transparent) /\
      exists px', q' = QColor_rgba px' /\ (0 <= alpha px <= 255 -> alpha px' = alpha px)
  | QColor_invalid => False
  end.

(** ** The region a fill is meant to repaint *)

(** Up, down, left or right by one; no diagonals. *)
Definition adjacent4 (p q : Z * Z) : Prop :=
  (p.1 = q.1 /\ Z.abs (p.2 - q.2) = 1) \/ (p.2 = q.2 /\ Z.abs (p.1 - q.1) = 1).

(** [connected img seed p]: [p] is reached from [seed] by steps between
    4-adjacent pixels, all inside the image and of the colour of the seed. *)
Inductive connected (img : QImage) (seed : Z * Z) : Z * Z -> Prop :=
| connected_seed :
    QImage_contains img seed.1 seed.2 = true -> connected img seed seed
| connected_step p q :
    connected img seed p -> adjacent4 p q ->
    QImage_contains img q.1 q.2 = true ->
    pixelColor img q.1 q.2 = pixelColor img seed.1 seed.2 ->
    connected img seed q.

(** The coordinates of the image together with its one-pixel border. *)
Definition in_box (img : QImage) (p : Z * Z) : Prop :=
  -1 <= p.1 <= image_width img /\ -1 <= p.2 <= image_height img.

Definition box_list (img : QImage) : list (Z * Z) :=
  map (fun i => (i mod (image_width img + 2) - 1, i / (image_width img + 2) - 1))
    (seqZ 0 ((image_width img + 2) * (image_height img + 2))).

(** The loop invariant of the fill: [done] lists the coordinates already
    taken from the queue, [img0] is the image before the fill. *)
Record flood_inv (img0 : QImage) (seed : Z * Z) (fill_color : QColor)
  (done : list (Z * Z)) (s : fill_state) : Prop := mkFloodInv {
  inv_wf : QImage_wf (fs_image s);
  inv_width : image_width (fs_image s) = image_width img0;
  inv_height : image_height (fs_image s) = image_height img0;
  inv_nodup : NoDup (done ++ fs_queue s);
  inv_processed : forall p, p ∈ fs_processed s <-> p ∈ done ++ fs_queue s;
  inv_box : forall p, p ∈ done ++ fs_queue s -> in_box img0 p;
  inv_seed : seed ∈ done ++ fs_queue s;
  inv_closed : forall p n,
    p ∈ done -> QImage_contains img0 p.1 p.2 = true ->
    pixelColor img0 p.1 p.2 = pixelColor img0 seed.1 seed.2 ->
    adjacent4 p n -> n ∈ done ++ fs_queue s;
  inv_pixels : forall x y,
    QImage_contains img0 x y = true ->
    pixelColor (fs_image s) x y =
      if decide ((x, y) ∈ done /\ pixelColor img0 x y = pixelColor img0 seed.1 seed.2)
      then fill_color else pixelColor img0 x y;
  inv_front : forall p,
    p ∈ done ++ fs_queue s ->
    p = seed \/ exists q, connected img0 seed q /\ adjacent4 q p
}.

(** ** Histories *)

(** The live buffer: what a history entry records. *)
Definition live (c : Canvas) : QImage * QSize := (image c, _image_size c).

(** The mutating operations that capture the state before they change
    the buffer. *)
Inductive edit :=
| edit_clear
| edit_resize (new_width new_height : Z).

Definition apply_edit (c : Canvas) (e : edit) : Canvas :=
  match e with
  | edit_clear => clear_canvas c
  | edit_resize w h => resize_canvas c w h
  end.

(** ** Pen sizes *)

(** The clamp both size setters apply. *)
Definition clamp_pen_size (n : Z) : Z := Z.max MIN_PEN_SIZE (Z.min n MAX_PEN_SIZE).

(** The tools that have a pen size of their own. *)
Definition has_pen (c : Canvas) : bool :=
  String.eqb (current_tool c) "brush" || String.eqb (current_tool c) "eraser".

(** ** Zoom *)

(** The scale [_zoom_at_point] computes: the product clamped to
    [0.1, 16.0]. *)
Definition zoom_new_scale (old_scale factor : float) : float :=
  Float.py_max Float.f0_1 (Float.py_min (Float.mul old_scale factor) Float.f16).

(** The clamp of the specification: [x] brought back into [lo, hi]. *)
Definition clamp (x lo hi : float) : float :=
  if Float.ltb x lo then lo else if Float.ltb hi x then hi else x.

(** The test that makes [_zoom_at_point] return at once. *)
Definition zoom_negligible (old_scale factor : float) : bool :=
  Float.ltb (Float.abs (Float.sub (zoom_new_scale old_scale factor) old_scale))
    Float.f0_001.

(** By how much the scroll bars moved between two states. *)
Definition scroll_delta (c c' : Canvas) : Z * Z :=
  (sb_value (h_bar c') - sb_value (h_bar c), sb_value (v_bar c') - sb_value (v_bar c)).

(** The zoom changed nothing: same canvas, hence same scale factor, and
    the scroll bars did not move. *)
Definition zoom_noop (c : Canvas) (widget_point : QPoint) (factor : float) : Prop :=
  exists c',
    _zoom_at_point c widget_point factor = Some c' /\
    c' = c /\
    scale_factor c' = scale_factor c /\
    scroll_delta c c' = (0, 0).

(** ** Rounding *)

(** [locates N D m l]: the integer [m] and the location [l] describe the
    position of the rational [N / D]: [m] is its integer part, and [l]
    tells whether the fraction is zero, below, at or above one half. *)
Definition locates (N D m : Z) (l : location) : Prop :=
  0 < D /\ 0 <= m /\ m * D <= N < (m + 1) * D /\
  match l with
  | loc_Exact => N = m * D
  | loc_Inexact c => N <> m * D /\ (2 * (N - m * D) ?= D) = c
  end.

(* ================================================================== *)
(** * Sample inputs *)

Definition sb0 : QScrollBar := mkQScrollBar 0 0 100.

(** The canvas right after [Canvas.__init__]. *)
Definition canvas0 : Canvas := Canvas_init sb0 sb0.

(** A black 10 x 10 square at the origin of a white 16 x 12 image, and the
    same image with the square in red. *)
Definition square_image : QImage :=
  QImage_tabulate 16 12
    (fun x y => if (x <? 10) && (y <? 10) then ARGB 0 0 0 255
                else ARGB 255 255 255 255).

Definition square_filled : QImage :=
  QImage_tabulate 16 12
    (fun x y => if (x <? 10) && (y <? 10) then ARGB 255 0 0 255
                else ARGB 255 255 255 255).

(** The square loaded in the canvas, red selected. *)
Definition square_canvas : Canvas :=
  set_color (load_image canvas0 square_image) Qt_red.

(** A 1 x 1 red image loaded in the canvas: the baseline of a session. *)
Definition red_image : QImage := mkQImage 1 1 [ARGB 255 0 0 255].
Definition red_canvas : Canvas := load_image canvas0 red_image.

(** A 1 x 1 image of one faint pixel, of alpha 3, and one of a pixel of
    alpha 0 that still carries the colour; each loaded in the canvas. *)
Definition faint_image : QImage := mkQImage 1 1 [ARGB 200 100 50 3].
Definition faint_canvas : Canvas := load_image canvas0 faint_image.
Definition ghost_image : QImage := mkQImage 1 1 [ARGB 200 100 50 0].
Definition ghost_canvas : Canvas := load_image canvas0 ghost_image.

(** Fifty resizes, alternately to 2 x 1 and back to 1 x 1. *)
Definition fifty_resizes : list edit :=
  flat_map (fun _ => [edit_resize 2 1; edit_resize 1 1]) (seq 0 25).

(** A white 2 x 1 image loaded in the canvas, the bucket selected (the
    colour is the initial black). *)
Definition white_image : QImage := mkQImage 2 1 [ARGB 255 255 255 255; ARGB 255 255 255 255].
Definition white_bucket_canvas : Canvas := set_tool (load_image canvas0 white_image) "Bucket".

(** A black 1 x 1 image loaded in the canvas, the bucket selected. *)
Definition black_image : QImage := mkQImage 1 1 [ARGB 0 0 0 255].
Definition black_bucket_canvas : Canvas := set_tool (load_image canvas0 black_image) "Bucket".

(** A press of the left button at widget position (0, 0). *)
Definition press_origin : QMouseEvent :=
  mkQMouseEvent LeftButton [LeftButton] (mkQPointF (S754_zero false) (S754_zero false)).

(** A pen of one pixel, whatever its width: a stand-in for Qt's painter
    in the examples. *)
Definition pixel_drawPoint (pen : QPen) (mode : CompositionMode) (p : QPointF)
  (img : QImage) : QImage :=
  match QPointF_toPoint p with
  | Some q =>
      setPixelColor img (pt_x q) (pt_y q)
        match mode with
        | CompositionMode_SourceOver => pen_color pen
        | CompositionMode_Clear => Qt_transparent
        end
  | None => img
  end.

Definition pixel_drawLine (pen : QPen) (mode : CompositionMode) (p q : QPointF)
  (img : QImage) : QImage :=
  pixel_drawPoint pen mode q (pixel_drawPoint pen mode p img).

(** The initial canvas zoomed out as far as the clamp allows. *)
Definition zoomed_out_canvas : Canvas := set_scale_factor Float.f0_1 canvas0.

(* ================================================================== *)
(** * Proof automation *)

(** Case analysis on the active tool and on whether the clamped size is
    the stored one, for the two size setters. *)
Ltac size_setter_cases c new_size :=
  destruct (String.eqb_spec (current_tool c) "brush") as [Hbrush|Hbrush];
  [ try rewrite Hbrush
  | destruct (String.eqb_spec (current_tool c) "eraser") as [Heraser|Heraser];
    [ try rewrite Heraser | ] ];
  cbn [orb andb String.eqb Ascii.eqb Bool.eqb];
  repeat match goal with
    | |- context [Z.eqb ?a new_size] => destruct (Z.eqb_spec a new_size)
    end;
  cbn [orb andb negb current_tool brush_size eraser_size emitted
       emit set_emitted set_brush_size set_eraser_size
       String.eqb Ascii.eqb Bool.eqb];
  repeat match goal with
    | H : current_tool c = _ |- _ => rewrite H
    | H : current_tool c <> _ |- _ => rewrite (proj2 (String.eqb_neq _ _) H)
    end;
  cbn [String.eqb Ascii.eqb Bool.eqb].

(* ================================================================== *)
(** * The rest of the canvas and of the main window *)

Definition ZOOM_STEP : float := S754_finite false 5404319552844595 (-55).  (* 0.15 *)

Definition float_add : float -> float -> float := SFadd Float.prec Float.emax.
Definition float_eqb : float -> float -> bool := SFeqb.
Definition f2 : float := S754_finite false 4503599627370496 (-51).         (* 2.0 *)

(** The factors of [zoom_in] and [zoom_out]: [1.0 + ZOOM_STEP] and
    [1.0 / (1.0 + ZOOM_STEP)]. *)
Definition zoom_in_factor : float := float_add Float.f1 ZOOM_STEP.
Definition zoom_out_factor : float := Float.div Float.f1 (float_add Float.f1 ZOOM_STEP).

(** [QRect.center()] of [viewport().rect()], a rectangle at the origin:
    the sum of the opposite edges halved, in C integer arithmetic. *)
Definition viewport_center (view_rect : QSize) : QPoint :=
  mkQPoint (Z.quot (0 + (sz_width view_rect - 1)) 2)
           (Z.quot (0 + (sz_height view_rect - 1)) 2).

Definition center_widget (c : Canvas) (view_rect : QSize) : QPoint :=
  mkQPoint (sb_value (h_bar c) + pt_x (viewport_center view_rect))
           (sb_value (v_bar c) + pt_y (viewport_center view_rect)).

(** [view_rect] is the size of the viewport of the scroll area. *)
Definition zoom_in (c : Canvas) (view_rect : QSize) : option Canvas :=
  _zoom_at_point c (center_widget c view_rect) zoom_in_factor.

Definition zoom_out (c : Canvas) (view_rect : QSize) : option Canvas :=
  _zoom_at_point c (center_widget c view_rect) zoom_out_factor.

Definition reset_zoom (c : Canvas) (view_rect : QSize) : option Canvas :=
  if negb (float_eqb (scale_factor c) Float.f1) then
    let center_widget_before := center_widget c view_rect in
    let image_point :=
      QPointF_div (QPointF_of_QPoint center_widget_before) (scale_factor c) in
    let c := set_scale_factor Float.f1 c in
    let target_widget_pos_f := QPointF_mul image_point (scale_factor c) in
    target_center_h ←
      Float.py_round (Float.sub (ptf_x target_widget_pos_f)
                        (Float.div (Float.of_int (sz_width view_rect)) f2));
    target_center_v ←
      Float.py_round (Float.sub (ptf_y target_widget_pos_f)
                        (Float.div (Float.of_int (sz_height view_rect)) f2));
    let c := set_h_bar (QScrollBar_setValue (h_bar c) target_center_h) c in
    Some (set_v_bar (QScrollBar_setValue (v_bar c) target_center_v) c)
  else Some c.

Record QWheelEvent := mkQWheelEvent {
  wh_control : bool;        (* event.modifiers() & Qt.ControlModifier *)
  wh_position : QPointF;    (* event.position() *)
  wh_angle_y : Z            (* event.angleDelta().y() *)
}.

Definition wheelEvent (c : Canvas) (event : QWheelEvent) : option Canvas :=
  if wh_control event then
    cursor_pos_widget ← QPointF_toPoint (wh_position event);
    let delta := wh_angle_y event in
    let factor :=
      if 0 <? delta then zoom_in_factor
      else if delta <? 0 then zoom_out_factor
      else Float.of_int 0 in
    _zoom_at_point c cursor_pos_widget factor
  else Some c.

(** [painter.drawImage(0, 0, self.image)] draws the whole image at the
    origin of the new one. *)
Definition _check_image_size (c : Canvas) : Canvas :=
  if negb (bool_decide (QImage_size (image c) = _image_size c)) then
    let new_image := QImage_filled (_image_size c) px_transparent in
    let new_image := QPainter_drawImage (QImage_size (image c)) (image c) new_image in
    set_image new_image c
  else c.

(** ** The main window *)

Inductive Key := Key_Plus | Key_Equal | Key_Minus | Key_other.

Definition keyPressEvent (c : Canvas) (key : Key) : Canvas :=
  if String.eqb (current_tool c) "brush" || String.eqb (current_tool c) "eraser" then
    match key with
    | Key_Plus | Key_Equal => adjust_size c SIZE_STEP
    | Key_Minus => adjust_size c (- SIZE_STEP)
    | Key_other => c
    end
  else c.

(** [str.split(sep)] for a separator of one character. *)
Fixpoint str_split (sep : ascii) (s : string) : list string :=
  match s with
  | EmptyString => [EmptyString]
  | String a s' =>
      if Ascii.eqb a sep then EmptyString :: str_split sep s'
      else match str_split sep s' with
           | part :: parts => String a part :: parts
           | [] => [String a EmptyString]
           end
  end.

(** What [save_drawing] does with the path the file dialog returns: no
    path, a warning for an extension it does not know, or a call of
    [image.save(path, fmt)] on [get_image_for_saving(force_white_bg)]. *)
Inductive save_outcome :=
| Save_cancelled
| Save_unsupported
| Save_as (fmt : string) (force_white_bg : bool).

Definition save_drawing (path : string) : save_outcome :=
  if negb (String.eqb path "") then
    let parts := str_split "." (str_lower path) in
    let ext := if (1 <? length parts)%nat then default EmptyString (last parts)
               else EmptyString in
    if String.eqb ext "png" then Save_as "PNG" false
    else if String.eqb ext "jpg" || String.eqb ext "jpeg" then Save_as "JPEG" true
    else if String.eqb ext "bmp" then Save_as "BMP" false
    else Save_unsupported
  else Save_cancelled.

(** [MainWindow.confirm_new_drawing], given the answer to the question. *)
Definition confirm_new_drawing (c : Canvas) (view_rect : QSize) (yes : bool)
  : option Canvas :=
  if yes then reset_zoom (clear_canvas c) view_rect else Some c.

(** ** Sequences of user actions *)

Inductive action :=
| act_set_tool (tool : string)
| act_set_color (color : QColor)
| act_set_pen_size (size : Z)
| act_adjust_size (delta : Z)
| act_key (key : Key)
| act_clear
| act_new (view_rect : QSize) (yes : bool)
| act_undo
| act_redo
| act_resize_dialog (u : dialog_input)
| act_load (new_image : QImage)
| act_press (event : QMouseEvent)
| act_move (event : QMouseEvent)
| act_release (event : QMouseEvent)
| act_zoom_in (view_rect : QSize)
| act_zoom_out (view_rect : QSize)
| act_reset_zoom (view_rect : QSize)
| act_wheel (event : QWheelEvent).

Section Actions.

Variable QPainter_drawPoint :
  QPen -> CompositionMode -> QPointF -> QImage -> QImage.
Variable QPainter_drawLine :
  QPen -> CompositionMode -> QPointF -> QPointF -> QImage -> QImage.

(** The entry point each action reaches; [None] when it raises. *)
Definition perform (c : Canvas) (a : action) : option Canvas :=
  match a with
  | act_set_tool tool => Some (set_tool c tool)
  | act_set_color color => Some (set_color c color)
  | act_set_pen_size size => Some (set_pen_size c size)
  | act_adjust_size delta => Some (adjust_size c delta)
  | act_key key => Some (keyPressEvent c key)
  | act_clear => Some (clear_canvas c)
  | act_new view_rect yes => confirm_new_drawing c view_rect yes
  | act_undo => Some (undo c)
  | act_redo => Some (redo c)
  | act_resize_dialog u => Some (show_resize_dialog c u).1
  | act_load new_image => Some (load_image c new_image)
  | act_press event => mousePressEvent QPainter_drawPoint c event
  | act_move event => mouseMoveEvent QPainter_drawLine c event
  | act_release event => mouseReleaseEvent c event
  | act_zoom_in view_rect => zoom_in c view_rect
  | act_zoom_out view_rect => zoom_out c view_rect
  | act_reset_zoom view_rect => reset_zoom c view_rect
  | act_wheel event => wheelEvent c event
  end.

Fixpoint perform_all (c : Canvas) (actions : list action) : option Canvas :=
  match actions with
  | [] => Some c
  | a :: rest => c' ← perform c a; perform_all c' rest
  end.

End Actions.

(** A painting primitive changes pixels only: the image keeps its size
    and its number of pixels. *)
Definition keeps_size (paint : QImage -> QImage) : Prop :=
  forall img,
    QImage_wf img ->
    QImage_wf (paint img) /\ QImage_size (paint img) = QImage_size img.

(** A buffer as the history records it: a well-formed image of positive
    dimensions, of the size recorded with it. *)
Definition buffer_ok (b : QImage * QSize) : Prop :=
  QImage_wf b.1 /\ QImage_size b.1 = b.2 /\ 0 < sz_width b.2 /\ 0 < sz_height b.2.

(** The images an action brings in are well formed. *)
Definition action_ok (a : action) : Prop :=
  match a with
  | act_load new_image => QImage_wf new_image
  | _ => True
  end.

Definition sizes_ok (c : Canvas) : Prop :=
  MIN_PEN_SIZE <= brush_size c <= MAX_PEN_SIZE /\
  MIN_PEN_SIZE <= eraser_size c <= MAX_PEN_SIZE /\
  QColor_isValid (current_color c) = true.

Definition history_bounded (c : Canvas) : Prop :=
  (length (undo_stack c) <= MAX_UNDO_STATES)%nat /\
  (length (redo_stack c) <= MAX_UNDO_STATES)%nat.

Definition scale_ok (c : Canvas) : Prop :=
  Float.valid (scale_factor c) = true /\
  Float.leb Float.f0_1 (scale_factor c) = true /\
  Float.leb (scale_factor c) Float.f16 = true.

Definition buffers_ok (c : Canvas) : Prop :=
  buffer_ok (live c) /\ Forall buffer_ok (undo_stack c) /\ Forall buffer_ok (redo_stack c).

(** What undo and redo work on: the live buffer and the two stacks. *)
Definition document (c : Canvas) : (QImage * QSize) * list (QImage * QSize) * list (QImage * QSize) :=
  (live c, undo_stack c, redo_stack c).

(** The tool, its colour and the two stored sizes. *)
Definition tool_state (c : Canvas) : string * QColor * Z * Z :=
  (current_tool c, current_color c, brush_size c, eraser_size c).

(** An image all of whose pixels the painter copies as they are. *)
Definition pixels_verbatim (img : QImage) : Prop :=
  forall x y,
    QImage_contains img x y = true ->
    exists px, pixelColor img x y = QColor_rgba px /\ copied_verbatim px.

(** A rectangle of pixels, the right and bottom edges excluded. *)
Definition in_rect (x0 y0 x1 y1 : Z) (p : Z * Z) : Prop :=
  x0 <= p.1 < x1 /\ y0 <= p.2 < y1.

(** A stroke or a pan: a press, moves, a release. *)
Definition gesture dp dl (c : Canvas) (press : QMouseEvent) (moves : list QMouseEvent)
  (release : QMouseEvent) : option Canvas :=
  perform_all dp dl c ([act_press press] ++ map act_move moves ++ [act_release release]).

(** ** More sample inputs *)

(** The red 1 x 1 canvas widened to 2 x 1, and the same with the
    widening undone. *)
Definition widened_canvas : Canvas := resize_canvas red_canvas 2 1.
Definition undone_canvas : Canvas := undo widened_canvas.

(** A press of the right button at widget position (0, 0), and a move
    with the left button held. *)
Definition press_right : QMouseEvent :=
  mkQMouseEvent RightButton [RightButton] (mkQPointF (S754_zero false) (S754_zero false)).

(** A white pixel, a black one, a white one: the black pixel separates
    the other two.  Loaded in the canvas, red selected. *)
Definition barrier_image : QImage :=
  mkQImage 3 1 [ARGB 255 255 255 255; ARGB 0 0 0 255; ARGB 255 255 255 255].
Definition barrier_canvas : Canvas := set_color (load_image canvas0 barrier_image) Qt_red.

(** The actions by what they are meant to change: the tool settings,
    the view, or the document. *)
Definition is_tool_action (a : action) : bool :=
  match a with
  | act_set_tool _ | act_set_color _ | act_set_pen_size _ | act_adjust_size _
  | act_key _ => true
  | _ => false
  end.

Definition is_view_action (a : action) : bool :=
  match a with
  | act_zoom_in _ | act_zoom_out _ | act_reset_zoom _ | act_wheel _ => true
  | _ => false
  end.

(** The scale and the two scroll bars. *)
Definition view_state (c : Canvas) : float * QScrollBar * QScrollBar :=
  (scale_factor c, h_bar c, v_bar c).

(** Ctrl held and the wheel turned by no vertical step, at the origin. *)
Definition wheel_no_delta : QWheelEvent :=
  mkQWheelEvent true (mkQPointF (S754_zero false) (S754_zero false)) 0.

(** Whether a character occurs in a string. *)
Fixpoint str_contains (a : ascii) (s : string) : bool :=
  match s with
  | EmptyString => false
  | String b s' => Ascii.eqb b a || str_contains a s'
  end.

(** The format [save_drawing] chooses for an extension in lower case. *)
Definition extension_format (ext : string) : save_outcome :=
  if String.eqb ext "png" then Save_as "PNG" false
  else if String.eqb ext "jpg" || String.eqb ext "jpeg" then Save_as "JPEG" true
  else if String.eqb ext "bmp" then Save_as "BMP" false
  else Save_unsupported.

(** A canvas whose image is not of the recorded size: the red 1 x 1
    image under a recorded size of 2 x 1. *)
Definition mismatched_canvas : Canvas := set__image_size (mkQSize 2 1) red_canvas.

(** What an action is bound to notify: a change of the history is
    announced by [history_changed], a change of colour by
    [color_changed] with the new colour. *)
Definition announces (c c' : Canvas) (new : list Signal) : Prop :=
  emitted c' = emitted c ++ new /\
  (undo_stack c' <> undo_stack c \/ redo_stack c' <> redo_stack c ->
   history_changed ∈ new) /\
  (current_color c' <> current_color c -> color_changed (current_color c') ∈ new).

(** ** Proof automation *)

(** Reading a field through the setters. *)
Ltac fields :=
  cbn [current_tool current_color brush_size eraser_size drawing last_point
       _image_size image scale_factor undo_stack redo_stack _current_stroke_saved
       panning pan_start_pos cursor_pos h_bar v_bar emitted
       emit set_emitted set_current_tool set_current_color set_brush_size
       set_eraser_size set_drawing set_last_point set__image_size set_image
       set_scale_factor set_undo_stack set_redo_stack set__current_stroke_saved
       set_panning set_pan_start_pos set_cursor_pos set_h_bar set_v_bar].


(* ================================================================== *)
(** * Properties of pixel buffers *)

Lemma QImage_contains_spec img x y :
  QImage_contains img x y = true <->
  0 <= x < image_width img /\ 0 <= y < image_height img.
Proof. unfold QImage_contains. rewrite !andb_true_iff. lia. Qed.

Lemma pixel_index_lt img x y :
  QImage_wf img -> QImage_contains img x y = true ->
  (pixel_index img x y < length (image_bits img))%nat.
Proof.
  intros (Hw & Hh & Hlen) Hin. apply QImage_contains_spec in Hin.
  rewrite Hlen. unfold pixel_index. nia.
Qed.

Lemma pixel_index_inj img x y x' y' :
  QImage_contains img x y = true -> QImage_contains img x' y' = true ->
  pixel_index img x y = pixel_index img x' y' -> x = x' /\ y = y'.
Proof.
  intros H H'. apply QImage_contains_spec in H, H'. unfold pixel_index.
  intros Heq. apply Z2Nat.inj in Heq; [|nia|nia].
  assert (y = y') by (destruct (Z.lt_trichotomy y y') as [?|[?|?]]; [nia|assumption|nia]).
  subst y'. lia.
Qed.

Lemma pixelColor_tabulate w h f x y :
  0 <= x < w -> 0 <= y < h ->
  pixelColor (QImage_tabulate w h f) x y = QColor_rgba (f x y).
Proof.
  intros Hx Hy. unfold pixelColor.
  replace (QImage_contains _ x y) with true
    by (symmetry; apply QImage_contains_spec; simpl; lia).
  unfold pixel_index; simpl.
  rewrite list_lookup_fmap.
  assert (Hi : seqZ 0 (w * h) !! Z.to_nat (y * w + x) = Some (y * w + x)).
  { apply lookup_seqZ. rewrite Z2Nat.id by nia. split; [lia|].
    assert (y * w <= (h - 1) * w) by (apply Z.mul_le_mono_nonneg_r; lia). lia. }
  rewrite Hi; simpl.
  f_equal. f_equal.
  - rewrite Z.add_comm, Z.mod_add by lia. apply Z.mod_small; lia.
  - rewrite Z.add_comm, Z.div_add by lia. rewrite Z.div_small; lia.
Qed.

Lemma QImage_tabulate_wf w h f : 0 <= w -> 0 <= h -> QImage_wf (QImage_tabulate w h f).
Proof.
  intros; unfold QImage_wf; simpl. repeat split; try lia.
  rewrite length_map, length_seqZ. reflexivity.
Qed.

Lemma pixelColor_set_eq img x y px :
  QImage_wf img -> QImage_contains img x y = true ->
  pixelColor (setPixelColor img x y (QColor_rgba px)) x y = QColor_rgba px.
Proof.
  intros Hwf Hin. unfold setPixelColor. rewrite Hin.
  unfold pixelColor, QImage_contains in *; simpl. rewrite Hin.
  unfold pixel_index; simpl.
  rewrite list_lookup_insert_eq; [reflexivity|].
  apply (pixel_index_lt img x y Hwf Hin).
Qed.

Lemma pixelColor_set_ne img x y c x' y' :
  (x', y') <> (x, y) ->
  pixelColor (setPixelColor img x y c) x' y' = pixelColor img x' y'.
Proof.
  intros Hne. unfold setPixelColor. destruct c as [|px]; [reflexivity|].
  destruct (QImage_contains img x y) eqn:Hin; [|reflexivity].
  unfold pixelColor. change (QImage_contains (mkQImage _ _ _) x' y') with (QImage_contains img x' y').
  destruct (QImage_contains img x' y') eqn:Hin'; [|reflexivity].
  unfold pixel_index at 1; simpl. fold (pixel_index img x' y').
  rewrite list_lookup_insert_ne; [reflexivity|].
  intros Heq. apply pixel_index_inj in Heq; [|assumption..]. destruct Heq; congruence.
Qed.

Lemma setPixelColor_wf img x y c : QImage_wf img -> QImage_wf (setPixelColor img x y c).
Proof.
  intros Hwf. unfold setPixelColor. destruct c; [assumption|].
  destruct (QImage_contains img x y); [|assumption].
  destruct Hwf as (? & ? & ?). unfold QImage_wf; simpl. rewrite length_insert. auto.
Qed.

Lemma setPixelColor_dims img x y c :
  image_width (setPixelColor img x y c) = image_width img /\
  image_height (setPixelColor img x y c) = image_height img.
Proof.
  unfold setPixelColor. destruct c; [auto|]. destruct (QImage_contains img x y); auto.
Qed.

(* ================================================================== *)
(** * The painter's arithmetic *)

Lemma qt_byte_mul_0_r c : qt_byte_mul c 0 = 0.
Proof. unfold qt_byte_mul. rewrite Z.mul_0_r. reflexivity. Qed.

Lemma qt_byte_mul_0_l a : qt_byte_mul 0 a = 0.
Proof. unfold qt_byte_mul. rewrite Z.mul_0_l. reflexivity. Qed.

Lemma qt_byte_mul_255 c : 0 <= c <= 255 -> qt_byte_mul c 255 = c.
Proof.
  intros Hc. unfold qt_byte_mul. cbv zeta.
  rewrite !Z.shiftr_div_pow2 by lia. change (2 ^ 8) with 256.
  assert (H1 : c * 255 / 256 = if c =? 0 then 0 else c - 1).
  { destruct (Z.eqb_spec c 0) as [->|Hne]; [reflexivity|].
    symmetry. apply (Z.div_unique _ _ _ (256 - c)); lia. }
  rewrite H1. destruct (Z.eqb_spec c 0) as [->|Hne]; [reflexivity|].
  symmetry. apply (Z.div_unique _ _ _ 127); lia.
Qed.

Lemma qPremultiply_transparent : qPremultiply px_transparent = ARGB 0 0 0 0.
Proof. reflexivity. Qed.

(** Drawn on a transparent pixel, an opaque pixel and the pixel
    [0 0 0 0] stay as they are. *)
Lemma QPainter_compose_verbatim px :
  copied_verbatim px -> QPainter_compose px px_transparent = px.
Proof.
  intros [->|(Ha & Hr & Hg & Hb)]; [reflexivity|].
  destruct px as [r g b a]. cbn [alpha red green blue] in *. subst a.
  unfold QPainter_compose, qPremultiply. cbn [alpha red green blue].
  rewrite !qt_byte_mul_255 by assumption.
  unfold source_over. cbn [alpha]. change (255 <=? 255) with true. cbv iota.
  unfold qUnpremultiply. cbn [alpha]. reflexivity.
Qed.

(** A pixel of alpha 0 leaves the transparent pixel as it is, whatever
    colour it carries. *)
Lemma QPainter_compose_alpha_0 px :
  alpha px = 0 -> QPainter_compose px px_transparent = px_transparent.
Proof.
  intros Ha. destruct px as [r g b a]. cbn [alpha] in Ha. subst a.
  unfold QPainter_compose, qPremultiply. cbn [alpha red green blue].
  rewrite !qt_byte_mul_0_r. reflexivity.
Qed.

(** The alpha channel comes through unchanged. *)
Lemma QPainter_compose_alpha px :
  0 <= alpha px <= 255 -> alpha (QPainter_compose px px_transparent) = alpha px.
Proof.
  intros Ha. unfold QPainter_compose. rewrite qPremultiply_transparent.
  assert (Hs : alpha (qPremultiply px) = alpha px) by reflexivity.
  revert Hs. generalize (qPremultiply px). intros s Hs. rewrite <- Hs in *.
  unfold source_over.
  destruct (Z.leb_spec 255 (alpha s)) as [H255|Hlt].
  - unfold qUnpremultiply.
    replace (alpha s =? 255) with true by (symmetry; apply Z.eqb_eq; lia). reflexivity.
  - destruct (decide _) as [E|_].
    + rewrite E. reflexivity.
    + cbn [alpha red green blue]. rewrite !qt_byte_mul_0_l, !Z.add_0_r.
      unfold qUnpremultiply. cbn [alpha].
      replace (alpha s =? 255) with false by (symmetry; apply Z.eqb_neq; lia).
      destruct (Z.eqb_spec (alpha s) 0) as [E|_]; [rewrite E|]; reflexivity.
Qed.

(** [resize_canvas] either leaves the canvas alone (a dimension that is
    no C [int], or the current size) or captures and installs the new
    buffer. *)
Lemma resize_canvas_cases c w h :
  resize_canvas c w h = c \/
  (resize_canvas_raises w h = false /\ mkQSize w h <> _image_size c /\
   resize_canvas c w h =
     set__image_size (mkQSize w h)
       (set_image
          (QPainter_drawImage (QSize_boundedTo (_image_size c) (mkQSize w h)) (image c)
             (QImage_filled (mkQSize w h) px_transparent))
          (_save_state c false))).
Proof.
  unfold resize_canvas.
  destruct (resize_canvas_raises w h); [left; reflexivity|].
  destruct (decide (mkQSize w h = _image_size c)) as [E|E]; [left; reflexivity|].
  right. repeat split. exact E.
Qed.

Lemma resize_canvas_in_range w h :
  0 < w <= MAX_CANVAS_DIM -> 0 < h <= MAX_CANVAS_DIM -> resize_canvas_raises w h = false.
Proof.
  unfold MAX_CANVAS_DIM, resize_canvas_raises, fits_int. intros Hw Hh.
  change (2 ^ 31) with 2147483648.
  repeat match goal with
  | |- context [?a <=? ?b] => destruct (Z.leb_spec a b); [|lia]
  | |- context [?a <? ?b] => destruct (Z.ltb_spec a b); [|lia]
  end.
  reflexivity.
Qed.

(* ================================================================== *)
(** * The flood fill loop *)

Lemma adjacent4_neighbors x y n : adjacent4 (x, y) n <-> n ∈ neighbors x y.
Proof.
  destruct n as [nx ny]. unfold adjacent4, neighbors; simpl.
  rewrite !elem_of_cons, elem_of_nil. split.
  - intros [[-> H]|[-> H]].
    + destruct (Z.abs_spec (y - ny)) as [[_ E]|[_ E]]; rewrite E in H.
      * right; right; right; left. f_equal; lia.
      * right; right; left. f_equal; lia.
    + destruct (Z.abs_spec (x - nx)) as [[_ E]|[_ E]]; rewrite E in H.
      * right; left. f_equal; lia.
      * left. f_equal; lia.
  - intros [E|[E|[E|[E|[]]]]]; inversion E; subst; lia.
Qed.

(** Every coordinate of the box occurs in [box_list], whose length is the
    area of the box. *)
Lemma box_list_length img :
  0 <= image_width img -> 0 <= image_height img ->
  length (box_list img) = flood_bound img.
Proof.
  intros. unfold box_list, flood_bound. rewrite length_map, length_seqZ. reflexivity.
Qed.

Lemma in_box_list img p :
  0 <= image_width img -> 0 <= image_height img ->
  in_box img p -> p ∈ box_list img.
Proof.
  intros Hw Hh [Hx Hy]. destruct p as [x y]; simpl in *.
  unfold box_list. apply list_elem_of_fmap.
  exists ((y + 1) * (image_width img + 2) + (x + 1)). split.
  - f_equal.
    + rewrite Z.add_comm, Z.mod_add by lia. rewrite Z.mod_small; lia.
    + rewrite Z.add_comm, Z.div_add by lia. rewrite Z.div_small; lia.
  - apply elem_of_seqZ.
    assert ((y + 1) * (image_width img + 2)
            <= (image_height img + 1) * (image_width img + 2))
      by (apply Z.mul_le_mono_nonneg_r; lia).
    nia.
Qed.

Lemma box_bound img (l : list (Z * Z)) :
  0 <= image_width img -> 0 <= image_height img ->
  NoDup l -> (forall p, p ∈ l -> in_box img p) ->
  (length l <= flood_bound img)%nat.
Proof.
  intros Hw Hh Hnd Hbox. rewrite <- box_list_length by assumption.
  apply submseteq_length, NoDup_submseteq; [assumption|].
  intros p Hp. apply in_box_list; auto.
Qed.

(** The inner loop appends to the queue exactly the neighbours that were
    not yet processed, each once, and records them as processed. *)
Lemma enqueue_new_foldl (ns : list (Z * Z)) :
  forall (queue : list (Z * Z)) (processed : gset (Z * Z)),
  exists new,
    (foldl enqueue_new (queue, processed) ns).1 = queue ++ new /\
    NoDup new /\
    (forall n, n ∈ new <-> n ∈ ns /\ n ∉ processed) /\
    (forall n, n ∈ (foldl enqueue_new (queue, processed) ns).2 <->
               n ∈ processed \/ n ∈ new).
Proof.
  induction ns as [|a ns IH]; intros queue processed.
  - exists []. simpl. rewrite app_nil_r. split; [reflexivity|split; [constructor|split]].
    + intros n. rewrite elem_of_nil. tauto.
    + intros n. rewrite elem_of_nil. tauto.
  - simpl. destruct (decide (a ∈ processed)) as [Ha|Ha].
    + replace (enqueue_new (queue, processed) a) with (queue, processed)
        by (unfold enqueue_new; simpl; rewrite decide_True; auto).
      destruct (IH queue processed) as (new & Hq & Hnd & Hnew & Hp).
      exists new. split; [exact Hq|split; [exact Hnd|split; [|exact Hp]]].
      intros n. rewrite Hnew, elem_of_cons. split; [tauto|].
      intros [[->|Hn] Hnp]; [contradiction|tauto].
    + replace (enqueue_new (queue, processed) a)
        with (queue ++ [a], processed ∪ {[a]})
        by (unfold enqueue_new; simpl; rewrite decide_False; auto).
      destruct (IH (queue ++ [a]) (processed ∪ {[a]})) as (new & Hq & Hnd & Hnew & Hp).
      exists (a :: new). split; [|split; [|split]].
      * rewrite Hq, <- app_assoc. reflexivity.
      * constructor; [|assumption]. intros Hin. apply Hnew in Hin as [_ Hin].
        apply Hin, elem_of_union. right. apply elem_of_singleton. reflexivity.
      * intros n. rewrite !elem_of_cons, Hnew, elem_of_union, elem_of_singleton.
        destruct (decide (n = a)) as [->|Hne]; tauto.
      * intros n. rewrite Hp, elem_of_cons, elem_of_union, elem_of_singleton. tauto.
Qed.

(** The fill starts in a state that satisfies the invariant. *)
Lemma flood_inv_start img0 (start : QPoint) fill_color :
  QImage_wf img0 ->
  QImage_contains img0 (pt_x start) (pt_y start) = true ->
  flood_inv img0 (pt_x start, pt_y start) fill_color [] (flood_start img0 start).
Proof.
  intros Hwf Hin. pose proof (proj1 (QImage_contains_spec _ _ _) Hin) as Hr.
  constructor; simpl; try reflexivity; try assumption.
  - apply NoDup_singleton.
  - intros p. rewrite elem_of_singleton, list_elem_of_singleton. reflexivity.
  - intros p Hp. apply list_elem_of_singleton in Hp as ->. unfold in_box; simpl. lia.
  - apply list_elem_of_singleton. reflexivity.
  - intros p n Hp. inversion Hp.
  - intros p Hp. apply list_elem_of_singleton in Hp. left; assumption.
Qed.

(** A coordinate still in the queue shows its original colour. *)
Lemma flood_inv_head_pixel img0 seed fill_color done s x y q :
  flood_inv img0 seed fill_color done s ->
  fs_queue s = (x, y) :: q ->
  QImage_contains img0 x y = true ->
  pixelColor (fs_image s) x y = pixelColor img0 x y.
Proof.
  intros Hinv Hq Hin. rewrite (inv_pixels _ _ _ _ _ Hinv x y Hin).
  rewrite decide_False; [reflexivity|].
  intros [Hd _]. pose proof (inv_nodup _ _ _ _ _ Hinv) as Hnd.
  rewrite Hq in Hnd. apply NoDup_app in Hnd as (_ & Hdisj & _).
  apply (Hdisj _ Hd). left.
Qed.

Lemma elem_of_snoc_ne (done : list (Z * Z)) p p' :
  p' <> p -> p' ∈ done ++ [p] <-> p' ∈ done.
Proof.
  intros Hne. rewrite elem_of_app, list_elem_of_singleton. tauto.
Qed.

(** One iteration preserves the invariant, the coordinate taken from the
    queue joining [done]. *)
Lemma flood_step_inv img0 seed fill_px done s p q :
  flood_inv img0 seed (QColor_rgba fill_px) done s ->
  fs_queue s = p :: q ->
  exists s',
    flood_step (image_width img0) (image_height img0)
      (pixelColor img0 seed.1 seed.2) (QColor_rgba fill_px) s = Some s' /\
    flood_inv img0 seed (QColor_rgba fill_px) (done ++ [p]) s'.
Proof.
  intros Hinv Hq. destruct p as [x y].
  pose proof Hinv as [Hwf Hw Hh Hnd Hproc Hbox Hseed Hclosed Hpix Hfront].
  rewrite Hq in *.
  assert (Hmem : forall p', p' ∈ (done ++ [(x, y)]) ++ q <-> p' ∈ done ++ (x, y) :: q).
  { intros p'. rewrite <- app_assoc. reflexivity. }
  assert (Hxy : (x, y) ∉ done).
  { intros Hd. apply NoDup_app in Hnd as (_ & Hdisj & _). apply (Hdisj _ Hd). left. }
  unfold flood_step. rewrite Hq.
  change ((0 <=? x) && (x <? image_width img0) && (0 <=? y) && (y <? image_height img0))
    with (QImage_contains img0 x y).
  destruct (QImage_contains img0 x y) eqn:Hin; cbn [negb].
  2: { (* outside the image *)
    eexists; split; [reflexivity|]. constructor; simpl; try assumption.
    - rewrite <- app_assoc. exact Hnd.
    - intros p'. rewrite Hmem. apply Hproc.
    - intros p'. rewrite Hmem. apply Hbox.
    - apply Hmem, Hseed.
    - intros p' n Hp' Hc Ht Hadj. apply Hmem.
      apply elem_of_app in Hp' as [Hp'|Hp']; [eapply Hclosed; eassumption|].
      apply list_elem_of_singleton in Hp' as ->. simpl in Hc. congruence.
    - intros x' y' Hin'. rewrite (Hpix x' y' Hin').
      assert (Hne : (x', y') <> (x, y)) by congruence.
      destruct (decide ((x', y') ∈ done ∧ _)) as [[? ?]|Hn];
        destruct (decide ((x', y') ∈ done ++ [(x, y)] ∧ _)) as [[? ?]|Hn'];
        try reflexivity.
      + exfalso. apply Hn'. split; [apply elem_of_snoc_ne|]; assumption.
      + exfalso. apply Hn. split; [eapply elem_of_snoc_ne|]; eassumption.
    - intros p'. rewrite Hmem. apply Hfront. }
  assert (Hin_s : QImage_contains (fs_image s) x y = true).
  { unfold QImage_contains. rewrite Hw, Hh. exact Hin. }
  assert (Hcol : pixelColor (fs_image s) x y = pixelColor img0 x y)
    by (eapply flood_inv_head_pixel; eassumption).
  destruct (decide (pixelColor (fs_image s) x y = pixelColor img0 seed.1 seed.2))
    as [Ht|Ht].
  2: { (* another colour: nothing is painted *)
    eexists; split; [reflexivity|]. constructor; simpl; try assumption.
    - rewrite <- app_assoc. exact Hnd.
    - intros p'. rewrite Hmem. apply Hproc.
    - intros p'. rewrite Hmem. apply Hbox.
    - apply Hmem, Hseed.
    - intros p' n Hp' Hc Ht' Hadj. apply Hmem.
      apply elem_of_app in Hp' as [Hp'|Hp']; [eapply Hclosed; eassumption|].
      apply list_elem_of_singleton in Hp' as ->. simpl in Ht'. congruence.
    - intros x' y' Hin'. rewrite (Hpix x' y' Hin').
      destruct (decide ((x', y') ∈ done ∧ _)) as [[? ?]|Hn];
        destruct (decide ((x', y') ∈ done ++ [(x, y)] ∧ _)) as [[Hd' ?]|Hn'];
        try reflexivity.
      + exfalso. apply Hn'. split; [apply elem_of_app; left|]; assumption.
      + exfalso. apply elem_of_app in Hd' as [?|Hd']; [tauto|].
        apply list_elem_of_singleton in Hd'. inversion Hd'; subst. congruence.
    - intros p'. rewrite Hmem. apply Hfront. }
  (* the colour of the seed: paint and enqueue the neighbours *)
  destruct (enqueue_new_foldl (neighbors x y) q (fs_processed s))
    as (new & Hq' & Hndnew & Hnew & Hproc').
  eexists; split; [reflexivity|].
  assert (Hconn : connected img0 seed (x, y)).
  { destruct (Hfront (x, y)) as [E|(r & Hr & Hadj)]; [apply elem_of_app; right; left|..].
    - rewrite E. constructor. rewrite <- E. exact Hin.
    - econstructor; [exact Hr|exact Hadj|exact Hin|]. simpl. congruence. }
  assert (Hmem' : forall p', p' ∈ (done ++ [(x, y)]) ++ q ++ new <->
                             p' ∈ done ++ (x, y) :: q \/ p' ∈ new).
  { intros p'. rewrite app_assoc, elem_of_app, Hmem. reflexivity. }
  constructor; cbn [fs_image fs_queue fs_processed].
  - exact (setPixelColor_wf _ x y _ Hwf).
  - rewrite (proj1 (setPixelColor_dims _ _ _ _)). exact Hw.
  - rewrite (proj2 (setPixelColor_dims _ _ _ _)). exact Hh.
  - rewrite Hq', app_assoc, <- (app_assoc done). simpl.
    apply NoDup_app. split; [exact Hnd|split; [|exact Hndnew]].
    intros p' Hp' Hn. apply Hnew in Hn as [_ Hn]. apply Hn, Hproc, Hp'.
  - intros p'. rewrite Hq', Hmem', Hproc', Hproc. reflexivity.
  - intros p'. rewrite Hq', Hmem'. intros [Hp'|Hp']; [apply Hbox, Hp'|].
    apply Hnew in Hp' as [Hp' _]. apply QImage_contains_spec in Hin.
    unfold neighbors in Hp'. unfold in_box.
    repeat (apply elem_of_cons in Hp' as [->|Hp']; [simpl; lia|]). inversion Hp'.
  - rewrite Hq'. apply Hmem'. left. exact Hseed.
  - intros p' n Hp' Hc Ht' Hadj. rewrite Hq'. apply Hmem'.
    apply elem_of_app in Hp' as [Hp'|Hp'].
    + left. eapply Hclosed; eassumption.
    + apply list_elem_of_singleton in Hp' as ->.
      apply adjacent4_neighbors in Hadj.
      destruct (decide (n ∈ fs_processed s)) as [Hn|Hn].
      * left. apply Hproc, Hn.
      * right. apply Hnew. split; assumption.
  - intros x' y' Hin'. destruct (decide ((x', y') = (x, y))) as [E|Hne].
    + inversion E; subst x' y'. rewrite pixelColor_set_eq by assumption.
      rewrite decide_True; [reflexivity|]. split; [apply elem_of_app; right; left|].
      congruence.
    + rewrite pixelColor_set_ne by assumption. rewrite (Hpix x' y' Hin').
      destruct (decide ((x', y') ∈ done ∧ _)) as [[? ?]|Hn];
        destruct (decide ((x', y') ∈ done ++ [(x, y)] ∧ _)) as [[? ?]|Hn'];
        try reflexivity.
      * exfalso. apply Hn'. split; [apply elem_of_snoc_ne|]; assumption.
      * exfalso. apply Hn. split; [eapply elem_of_snoc_ne|]; eassumption.
  - intros p'. rewrite Hq', Hmem'. intros [Hp'|Hp']; [apply Hfront, Hp'|].
    right. exists (x, y). split; [exact Hconn|].
    apply adjacent4_neighbors. apply Hnew in Hp'. tauto.
Qed.

Lemma flood_run_empty fuel w h target fill s :
  fs_queue s = [] -> flood_run fuel w h target fill s = Some (s, []).
Proof. intros Hq. destruct fuel; simpl; rewrite Hq; reflexivity. Qed.

(** Termination: from a state satisfying the invariant the loop exits as
    soon as the fuel covers the coordinates of the box not yet taken. *)
Lemma flood_run_total img0 seed fill_px fuel :
  forall done s,
  flood_inv img0 seed (QColor_rgba fill_px) done s ->
  (flood_bound img0 <= length done + fuel)%nat ->
  exists s_end popped,
    flood_run fuel (image_width img0) (image_height img0)
      (pixelColor img0 seed.1 seed.2) (QColor_rgba fill_px) s = Some (s_end, popped) /\
    fs_queue s_end = [] /\
    flood_inv img0 seed (QColor_rgba fill_px) (done ++ popped) s_end.
Proof.
  induction fuel as [|fuel IH]; intros done s Hinv Hfuel.
  - destruct (fs_queue s) as [|p q] eqn:Hq.
    + exists s, []. rewrite flood_run_empty, app_nil_r by assumption. auto.
    + exfalso.
      pose proof (inv_wf _ _ _ _ _ Hinv) as (Hw & Hh & _).
      rewrite (inv_width _ _ _ _ _ Hinv) in Hw. rewrite (inv_height _ _ _ _ _ Hinv) in Hh.
      pose proof (box_bound img0 _ Hw Hh (inv_nodup _ _ _ _ _ Hinv)
                    (inv_box _ _ _ _ _ Hinv)) as Hb.
      rewrite Hq, length_app in Hb. simpl in Hb. lia.
  - destruct (fs_queue s) as [|p q] eqn:Hq.
    + exists s, []. rewrite flood_run_empty, app_nil_r by assumption. auto.
    + destruct (flood_step_inv _ _ _ _ _ _ _ Hinv Hq) as (s' & Hstep & Hinv').
      destruct (IH (done ++ [p]) s' Hinv') as (s_end & popped & Hrun & Hend & Hinv_end).
      { rewrite length_app. simpl. lia. }
      exists s_end, (p :: popped). simpl. rewrite Hq, Hstep, Hrun.
      rewrite <- app_assoc in Hinv_end. auto.
Qed.

(** More fuel does not change the outcome. *)
Lemma flood_run_mono w h target fill fuel :
  forall fuel' s r,
  flood_run fuel w h target fill s = Some r -> (fuel <= fuel')%nat ->
  flood_run fuel' w h target fill s = Some r.
Proof.
  induction fuel as [|fuel IH]; intros fuel' s r Hrun Hle.
  - destruct (fs_queue s) as [|p q] eqn:Hq.
    + rewrite flood_run_empty in * by assumption. assumption.
    + simpl in Hrun. rewrite Hq in Hrun.
      destruct (flood_step w h target fill s) eqn:Hstep; [discriminate|].
      destruct fuel'; simpl; rewrite Hq, Hstep; assumption.
  - destruct fuel' as [|fuel']; [lia|].
    simpl in *. destruct (fs_queue s) as [|p q]; [assumption|].
    destruct (flood_step w h target fill s) as [s'|]; [|assumption].
    destruct (flood_run fuel w h target fill s') as [[s_end popped]|] eqn:Hrec;
      [|discriminate].
    rewrite (IH fuel' s' _ Hrec) by lia. assumption.
Qed.

Lemma connected_color img seed p :
  connected img seed p -> pixelColor img p.1 p.2 = pixelColor img seed.1 seed.2.
Proof. intros H. destruct H; [reflexivity|assumption]. Qed.

Lemma connected_contains img seed p :
  connected img seed p -> QImage_contains img p.1 p.2 = true.
Proof. intros H. destruct H; assumption. Qed.

(** When the loop has ended, the coordinates taken from the queue cover
    the connected region, and the image is the original one with exactly
    that region repainted. *)
Lemma flood_inv_end_connected img0 seed fill_color done s p :
  flood_inv img0 seed fill_color done s -> fs_queue s = [] ->
  connected img0 seed p -> p ∈ done.
Proof.
  intros Hinv Hq Hconn. induction Hconn as [Hin|p q Hp IH Hadj Hin Hcol].
  - pose proof (inv_seed _ _ _ _ _ Hinv) as Hs.
    rewrite Hq, app_nil_r in Hs. exact Hs.
  - pose proof (inv_closed _ _ _ _ _ Hinv p q IH (connected_contains _ _ _ Hp)
                  (connected_color _ _ _ Hp) Hadj) as Hq'.
    rewrite Hq, app_nil_r in Hq'. exact Hq'.
Qed.

Lemma flood_inv_end_pixels img0 seed fill_color done s x y :
  flood_inv img0 seed fill_color done s -> fs_queue s = [] ->
  QImage_contains img0 x y = true ->
  (connected img0 seed (x, y) -> pixelColor (fs_image s) x y = fill_color) /\
  (~ connected img0 seed (x, y) -> pixelColor (fs_image s) x y = pixelColor img0 x y).
Proof.
  intros Hinv Hq Hin. rewrite (inv_pixels _ _ _ _ _ Hinv x y Hin). split.
  - intros Hconn. rewrite decide_True; [reflexivity|]. split.
    + eapply flood_inv_end_connected; eassumption.
    + apply (connected_color _ _ _ Hconn).
  - intros Hn. rewrite decide_False; [reflexivity|]. intros [Hd Hcol]. apply Hn.
    destruct (inv_front _ _ _ _ _ Hinv (x, y)) as [E|(q & Hconn & Hadj)].
    + apply elem_of_app. left. exact Hd.
    + rewrite E. constructor. rewrite <- E. exact Hin.
    + econstructor; eassumption.
Qed.

(** C5.  The traversal of the flood fill terminates.  For a seed outside
    the buffer [flood_fill] returns at once.  For every well-formed buffer
    and seed inside it, the [while queue:] loop (an explicit queue, no
    recursion) exits with an empty queue after taking the coordinates
    [popped] from it, whatever the fuel from [flood_bound] on; every
    coordinate ever enqueued (the final [processed] set) is taken exactly
    once, and all of them lie in the buffer or on its one-pixel border, so
    that the number of queue operations is at most
    (width + 2) * (height + 2). *)
Theorem flood_fill_terminates :
  (forall (c : Canvas) (start : QPoint) (erase_mode : bool),
     QImage_contains (image c) (pt_x start) (pt_y start) = false ->
     flood_fill c start erase_mode = c) /\
  (forall (img : QImage) (start : QPoint) (fill_px : Pixel),
     QImage_wf img ->
     QImage_contains img (pt_x start) (pt_y start) = true ->
     exists s_end popped,
       (forall fuel, (flood_bound img <= fuel)%nat ->
          flood_run fuel (image_width img) (image_height img)
            (pixelColor img (pt_x start) (pt_y start)) (QColor_rgba fill_px)
            (flood_start img start) = Some (s_end, popped)) /\
       fs_queue s_end = [] /\
       NoDup popped /\
       (forall p, p ∈ fs_processed s_end <-> p ∈ popped) /\
       (forall p, p ∈ popped -> in_box img p) /\
       (length popped <= flood_bound img)%nat).
Proof.
  split.
  { intros c start erase_mode Hout. unfold flood_fill. rewrite Hout. reflexivity. }
  intros img start fill_px Hwf Hin.
  pose proof (flood_inv_start img start (QColor_rgba fill_px) Hwf Hin) as Hinv.
  destruct (flood_run_total img (pt_x start, pt_y start) fill_px (flood_bound img)
              [] _ Hinv) as (s_end & popped & Hrun & Hend & Hinv_end).
  { simpl. lia. }
  simpl in Hrun, Hinv_end.
  pose proof Hinv_end as [_ _ _ Hnd Hproc Hbox _ _ _ _].
  rewrite Hend, app_nil_r in Hnd, Hproc, Hbox.
  exists s_end, popped. split; [|split; [|split; [|split; [|split]]]]; try assumption.
  - intros fuel Hfuel. eapply flood_run_mono; eassumption.
  - destruct Hwf as (Hw & Hh & _). apply box_bound; assumption.
Qed.

Lemma square_image_wf : QImage_wf square_image.
Proof. apply QImage_tabulate_wf; lia. Qed.

Lemma flood_fill_terminates_witness :
  QImage_contains (image square_canvas) 16 0 = false /\
  flood_fill square_canvas (mkQPoint 16 0) false = square_canvas /\
  QImage_wf square_image /\
  QImage_contains square_image 5 5 = true /\
  exists s_end popped,
    (forall fuel, (flood_bound square_image <= fuel)%nat ->
       flood_run fuel 16 12 Qt_black Qt_red
         (flood_start square_image (mkQPoint 5 5)) = Some (s_end, popped)) /\
    fs_queue s_end = [] /\
    NoDup popped /\
    (forall p, p ∈ fs_processed s_end <-> p ∈ popped) /\
    (forall p, p ∈ popped -> in_box square_image p) /\
    (length popped <= flood_bound square_image)%nat.
Proof.
  split; [reflexivity|].
  split; [exact (proj1 flood_fill_terminates square_canvas (mkQPoint 16 0) false eq_refl)|].
  split; [exact square_image_wf|]. split; [reflexivity|].
  exact (proj2 flood_fill_terminates square_image (mkQPoint 5 5) (ARGB 255 0 0 255)
           square_image_wf eq_refl).
Defined.

(** C3.  Flood fill repaints exactly the 4-connected region of the seed.
    For every well-formed buffer, seed inside it and valid fill colour,
    the buffer keeps its dimensions, every pixel connected to the seed
    through pixels of the seed's original colour takes the fill colour,
    every other pixel keeps its colour, and nothing else in the canvas
    changes; on the black 10 x 10 square at the origin of a white image,
    filling at (5, 5) with red yields the red square on white. *)
Theorem flood_fill_repaints_connected_region :
  (forall (c : Canvas) (start : QPoint) (erase_mode : bool) (fill_px : Pixel),
     QImage_wf (image c) ->
     QImage_contains (image c) (pt_x start) (pt_y start) = true ->
     (if erase_mode then QColor_rgba (ARGB 0 0 0 0) else current_color c)
       = QColor_rgba fill_px ->
     let c' := flood_fill c start erase_mode in
     c' = set_image (image c') c /\
     image_width (image c') = image_width (image c) /\
     image_height (image c') = image_height (image c) /\
     forall x y,
       QImage_contains (image c) x y = true ->
       (connected (image c) (pt_x start, pt_y start) (x, y) ->
        pixelColor (image c') x y = QColor_rgba fill_px) /\
       (~ connected (image c) (pt_x start, pt_y start) (x, y) ->
        pixelColor (image c') x y = pixelColor (image c) x y)) /\
  image (flood_fill square_canvas (mkQPoint 5 5) false) = square_filled.
Proof.
  split; [|vm_compute; reflexivity].
  intros c start erase_mode fill_px Hwf Hin Hfill c'. subst c'.
  unfold flood_fill. rewrite Hin, Hfill. cbn [negb].
  assert (Hid : forall c0 : Canvas, c0 = set_image (image c0) c0) by (intros []; reflexivity).
  destruct (decide (pixelColor (image c) (pt_x start) (pt_y start) = QColor_rgba fill_px))
    as [Hsame|Hdiff].
  - (* the seed already has the fill colour: nothing to do *)
    split; [apply Hid|]. split; [reflexivity|]. split; [reflexivity|].
    intros x y Hxy. split; [|reflexivity].
    intros Hconn. rewrite <- Hsame. apply (connected_color _ _ _ Hconn).
  - pose proof (flood_inv_start (image c) start (QColor_rgba fill_px) Hwf Hin) as Hinv.
    destruct (flood_run_total (image c) (pt_x start, pt_y start) fill_px
                (flood_bound (image c)) [] _ Hinv) as (s' & popped' & Hrun' & Hend' & Hinv').
    { simpl. lia. }
    simpl in Hrun'. rewrite Hrun'. clear Hrun'.
    split; [reflexivity|]. cbn [image set_image].
    split; [apply (inv_width _ _ _ _ _ Hinv')|].
    split; [apply (inv_height _ _ _ _ _ Hinv')|].
    intros x y Hxy.
    apply (flood_inv_end_pixels _ _ _ _ _ x y Hinv' Hend' Hxy).
Qed.

Lemma flood_fill_repaints_connected_region_witness :
  QImage_wf (image square_canvas) /\
  QImage_contains (image square_canvas) 5 5 = true /\
  current_color square_canvas = Qt_red /\
  forall x y,
    QImage_contains (image square_canvas) x y = true ->
    (connected (image square_canvas) (5, 5) (x, y) ->
     pixelColor (image (flood_fill square_canvas (mkQPoint 5 5) false)) x y = Qt_red) /\
    (~ connected (image square_canvas) (5, 5) (x, y) ->
     pixelColor (image (flood_fill square_canvas (mkQPoint 5 5) false)) x y
       = pixelColor (image square_canvas) x y).
Proof.
  split; [exact square_image_wf|]. split; [reflexivity|]. split; [reflexivity|].
  exact (proj2 (proj2 (proj2
    (proj1 flood_fill_repaints_connected_region square_canvas (mkQPoint 5 5) false
       (ARGB 255 0 0 255) square_image_wf eq_refl eq_refl)))).
Defined.

(* ================================================================== *)
(** * Undo and redo *)

Lemma deque_append_room {A} (maxlen : nat) (d : list A) (x : A) :
  (length d < maxlen)%nat -> Deque.append maxlen d x = d ++ [x].
Proof.
  intros Hlen. unfold Deque.append. rewrite length_app. simpl.
  replace (length d + 1 - maxlen)%nat with 0%nat by lia. reflexivity.
Qed.

Lemma deque_append_last {A} (maxlen : nat) (d : list A) (x : A) :
  (0 < maxlen)%nat -> last (Deque.append maxlen d x) = Some x.
Proof.
  intros Hpos. unfold Deque.append.
  rewrite length_app. simpl.
  rewrite drop_app_le by lia. apply last_snoc.
Qed.

Lemma deque_append_length {A} (maxlen : nat) (d : list A) (x : A) :
  length (Deque.append maxlen d x) = Nat.min (length d + 1) maxlen.
Proof.
  unfold Deque.append. rewrite length_drop, length_app. simpl. lia.
Qed.

Lemma deque_pop_snoc {A} (d : list A) (x : A) : Deque.pop (d ++ [x]) = Some (x, d).
Proof. unfold Deque.pop. rewrite last_snoc, removelast_last. reflexivity. Qed.

Lemma save_state_live c initial : live (_save_state c initial) = live c.
Proof. destruct initial; reflexivity. Qed.

Lemma save_state_undo_stack c initial :
  undo_stack (_save_state c initial)
  = Deque.append MAX_UNDO_STATES (undo_stack c) (live c).
Proof. destruct initial; reflexivity. Qed.

(** [undo] on a stack without an entry above the baseline does nothing. *)
Lemma undo_floor c b : undo_stack c = [b] -> undo c = c.
Proof. intros H. unfold undo, can_undo. rewrite H. reflexivity. Qed.

Lemma undo_floor_iter n c b : undo_stack c = [b] -> Nat.iter n undo c = c.
Proof.
  intros H. induction n as [|n IH]; [reflexivity|].
  simpl. rewrite IH. eapply undo_floor, H.
Qed.

(** [undo] makes the top entry live and removes it from the stack. *)
Lemma undo_top c b l e :
  undo_stack c = b :: l ++ [e] ->
  live (undo c) = e /\ undo_stack (undo c) = b :: l.
Proof.
  intros H. unfold undo, can_undo. rewrite H.
  replace (1 <? length (b :: l ++ [e]))%nat with true
    by (symmetry; apply Nat.ltb_lt; simpl; rewrite length_app; simpl; lia).
  cbn [negb set_redo_stack undo_stack]. rewrite H.
  change (b :: l ++ [e]) with ((b :: l) ++ [e]). rewrite deque_pop_snoc.
  destruct e as [prev_image prev_size]. split; reflexivity.
Qed.

(** Undoing at least as often as there are entries above the baseline
    makes the oldest of them live. *)
Lemma undo_iter_oldest l :
  forall c b n,
  undo_stack c = b :: l -> (length l <= n)%nat ->
  live (Nat.iter n undo c) = hd (live c) l.
Proof.
  induction l as [|e l IH] using rev_ind; intros c b n Hs Hn.
  - rewrite (undo_floor_iter n c b Hs). reflexivity.
  - rewrite length_app in Hn. simpl in Hn.
    destruct n as [|n]; [lia|].
    rewrite Nat.iter_succ_r.
    destruct (undo_top c b l e Hs) as [Hlive Hstack].
    rewrite (IH (undo c) b n Hstack) by lia.
    rewrite Hlive. destruct l; reflexivity.
Qed.

(** An edit either leaves the canvas alone or pushes the live buffer. *)
Lemma apply_edit_history c e :
  apply_edit c e = c \/
  undo_stack (apply_edit c e) = Deque.append MAX_UNDO_STATES (undo_stack c) (live c).
Proof.
  destruct e as [|w h]; cbn [apply_edit].
  - right. reflexivity.
  - destruct (resize_canvas_cases c w h) as [E|(_ & _ & E)]; [left; exact E|].
    right. rewrite E. reflexivity.
Qed.

Lemma edits_history b edits :
  forall c l,
  undo_stack c = b :: l -> hd (live c) l = b ->
  (S (length l) + length edits <= MAX_UNDO_STATES)%nat ->
  exists l',
    undo_stack (foldl apply_edit c edits) = b :: l' /\
    hd (live (foldl apply_edit c edits)) l' = b /\
    (length l' <= length l + length edits)%nat.
Proof.
  induction edits as [|e edits IH]; intros c l Hs Hhd Hlen; simpl in *.
  - exists l. split; [assumption|]. split; [assumption|lia].
  - destruct (apply_edit_history c e) as [E|E].
    + rewrite E. destruct (IH c l Hs Hhd) as (l' & ? & ? & ?); [lia|].
      exists l'. split; [assumption|]. split; [assumption|lia].
    + rewrite Hs, deque_append_room in E by (simpl; lia).
      destruct (IH (apply_edit c e) (l ++ [live c]) E) as (l' & ? & ? & Hl').
      * destruct l; simpl in *; assumption.
      * rewrite length_app. simpl. lia.
      * rewrite length_app in Hl'. simpl in Hl'.
        exists l'. split; [assumption|]. split; [assumption|lia].
Qed.

(** A press of the left button ends with a capture of the buffer as the
    press left it. *)
Lemma press_captures_result dp c ev c' :
  ev_button ev = LeftButton ->
  mousePressEvent dp c ev = Some c' ->
  last (undo_stack c') = Some (live c') /\
  length (undo_stack c') = Nat.min (length (undo_stack c) + 1) MAX_UNDO_STATES.
Proof.
  intros Hb. unfold mousePressEvent. rewrite Hb.
  destruct (QPointF_toPoint _) as [image_pos_i|]; [|discriminate].
  cbn [mbind option_bind].
  assert (Hflood : forall p, undo_stack (flood_fill c p false) = undo_stack c).
  { intros p. unfold flood_fill. repeat case_match; reflexivity. }
  assert (Hdraw : forall c1 p, undo_stack (draw_point dp c1 p) = undo_stack c1).
  { intros c1 p. unfold draw_point. repeat case_match; reflexivity. }
  destruct (String.eqb (current_tool c) "bucket"); intros [= <-];
    rewrite save_state_live, save_state_undo_stack.
  - split; [apply deque_append_last; unfold MAX_UNDO_STATES; lia|].
    rewrite deque_append_length. cbn [undo_stack set__current_stroke_saved].
    rewrite Hflood. reflexivity.
  - split; [apply deque_append_last; unfold MAX_UNDO_STATES; lia|].
    rewrite deque_append_length. cbn [undo_stack set__current_stroke_saved].
    rewrite Hdraw. reflexivity.
Qed.

Lemma QImage_fill_filled size px :
  QImage_fill (QImage_filled size px) px = QImage_filled size px.
Proof.
  unfold QImage_fill, QImage_filled.
  destruct ((sz_width size <=? 0) || (sz_height size <=? 0)); simpl; [reflexivity|].
  rewrite length_replicate. reflexivity.
Qed.

(** The first capture of a session, by [clear_canvas] on a buffer that is
    already transparent, leaves the baseline alone in the history. *)
Lemma clear_canvas_first c :
  undo_stack c = [] ->
  QImage_fill (image c) px_transparent = image c ->
  undo_stack (clear_canvas c) = [live (clear_canvas c)] /\
  image (clear_canvas c) = image c.
Proof.
  intros Hs Hfill. unfold clear_canvas, live.
  cbn [image set_image _image_size undo_stack].
  rewrite save_state_undo_stack.
  change (image (_save_state (set__current_stroke_saved true c) false)) with (image c).
  change (_image_size (_save_state (set__current_stroke_saved true c) false))
    with (_image_size c).
  change (undo_stack (set__current_stroke_saved true c)) with (undo_stack c).
  change (live (set__current_stroke_saved true c)) with (image c, _image_size c).
  rewrite Hs, Hfill. split; reflexivity.
Qed.

(** After [__init__] and [set_up_canvas] the history holds the baseline,
    a fully transparent buffer of the default size. *)
Lemma set_up_canvas_baseline h v :
  undo_stack (set_up_canvas (Canvas_init h v))
    = [live (set_up_canvas (Canvas_init h v))] /\
  image (set_up_canvas (Canvas_init h v))
    = QImage_filled (mkQSize DEFAULT_WIDTH DEFAULT_HEIGHT) px_transparent.
Proof.
  unfold set_up_canvas.
  apply (clear_canvas_first (Canvas_init h v) eq_refl).
  apply QImage_fill_filled.
Qed.

(** C1, as the code has it.  After the baseline capture, any sequence of
    fewer than [MAX_UNDO_STATES] = 50 edits that capture before they
    mutate (clearing and resizing), followed by as many calls of [undo],
    leaves the live buffer equal to the baseline, pixels and size.  Right
    after creation the history holds the baseline alone and [can_undo] is
    false; after the press that starts a stroke or a fill it is true. *)
Theorem undo_returns_to_baseline :
  (forall (c : Canvas) (edits : list edit),
     undo_stack c = [live c] ->
     (length edits < MAX_UNDO_STATES)%nat ->
     live (Nat.iter (length edits) undo (foldl apply_edit c edits)) = live c) /\
  (forall h v : QScrollBar,
     undo_stack (set_up_canvas (Canvas_init h v))
       = [live (set_up_canvas (Canvas_init h v))] /\
     image (set_up_canvas (Canvas_init h v))
       = QImage_filled (mkQSize DEFAULT_WIDTH DEFAULT_HEIGHT) px_transparent) /\
  (forall (c : Canvas), undo_stack c = [live c] -> can_undo c = false) /\
  (forall dp (c : Canvas) (ev : QMouseEvent) (c' : Canvas),
     undo_stack c = [live c] ->
     ev_button ev = LeftButton ->
     mousePressEvent dp c ev = Some c' ->
     can_undo c' = true).
Proof.
  split; [|split; [|split]].
  - intros c edits Hbase Hlen.
    destruct (edits_history (live c) edits c [] Hbase eq_refl) as (l & Hs & Hhd & Hl).
    { simpl. lia. }
    rewrite (undo_iter_oldest l _ _ _ Hs) by (simpl in Hl; lia).
    exact Hhd.
  - intros h v. apply set_up_canvas_baseline.
  - intros c Hbase. unfold can_undo. rewrite Hbase. reflexivity.
  - intros dp c ev c' Hbase Hb Hpress.
    destruct (press_captures_result dp c ev c' Hb Hpress) as [_ Hlen].
    unfold can_undo. rewrite Hlen, Hbase. reflexivity.
Qed.

Lemma undo_returns_to_baseline_witness :
  undo_stack red_canvas = [live red_canvas] /\
  (length [edit_resize 2 1; edit_clear; edit_resize 3 2] < MAX_UNDO_STATES)%nat /\
  live (Nat.iter 3 undo
          (foldl apply_edit red_canvas [edit_resize 2 1; edit_clear; edit_resize 3 2]))
    = live red_canvas /\
  can_undo red_canvas = false /\
  ev_button press_origin = LeftButton /\
  exists c', mousePressEvent pixel_drawPoint red_canvas press_origin = Some c' /\
             can_undo c' = true.
Proof.
  split; [reflexivity|]. split; [vm_compute; lia|].
  split.
  { exact (proj1 undo_returns_to_baseline red_canvas
             [edit_resize 2 1; edit_clear; edit_resize 3 2] eq_refl
             ltac:(vm_compute; lia)). }
  split.
  { exact (proj1 (proj2 (proj2 undo_returns_to_baseline)) red_canvas eq_refl). }
  split; [reflexivity|].
  eexists. split; [reflexivity|].
  exact (proj2 (proj2 (proj2 undo_returns_to_baseline)) pixel_drawPoint red_canvas
           press_origin _ eq_refl eq_refl eq_refl).
Defined.

(** C1 as stated fails at the capacity: fifty resizes after the baseline
    (each one changes the size), then fifty calls of [undo], leave the
    2 x 1 buffer of the first resize, not the 1 x 1 baseline. *)
Lemma undo_fifty_edits_counterexample :
  undo_stack red_canvas = [live red_canvas] /\
  length fifty_resizes = MAX_UNDO_STATES /\
  live (Nat.iter (length fifty_resizes) undo (foldl apply_edit red_canvas fifty_resizes))
    = (mkQImage 2 1 [ARGB 255 0 0 255; ARGB 0 0 0 0], mkQSize 2 1) /\
  live (Nat.iter (length fifty_resizes) undo (foldl apply_edit red_canvas fifty_resizes))
    <> live red_canvas.
Proof.
  split; [reflexivity|]. split; [reflexivity|].
  split; [vm_compute; reflexivity|].
  vm_compute. discriminate.
Qed.

(** C2, the code at a failing input.  On a white 2 x 1 buffer with the
    bucket and black selected, the press at (0, 0) fills the buffer and
    only then captures: the entry on top of the undo stack is the black
    buffer the fill produced, not the white one that preceded it, and the
    [undo] that follows leaves the black buffer live. *)
Theorem bucket_press_captures_after_fill :
  forall dp,
  match mousePressEvent dp white_bucket_canvas press_origin with
  | Some c' =>
      live white_bucket_canvas = (white_image, mkQSize 2 1) /\
      live c' = (mkQImage 2 1 [ARGB 0 0 0 255; ARGB 0 0 0 255], mkQSize 2 1) /\
      last (undo_stack c') = Some (live c') /\
      last (undo_stack c') <> Some (live white_bucket_canvas) /\
      can_undo c' = true /\
      live (undo c') = live c'
  | None => False
  end.
Proof.
  intros dp. vm_compute. repeat split; discriminate.
Qed.

(** C4, as the code has it.  When the pixel under a bucket press already
    has the fill colour, [flood_fill] returns the canvas as it is; the
    press then captures as for any other fill: the unchanged buffer is
    pushed on the undo stack, the redo stack is cleared and
    [history_changed] is emitted. *)
Theorem fill_same_color_keeps_buffer dp (c : Canvas) (ev : QMouseEvent) (seed : QPoint) :
  ev_button ev = LeftButton ->
  current_tool c = "bucket"%string ->
  QPointF_toPoint (_to_image_coords c (ev_position ev)) = Some seed ->
  QImage_contains (image c) (pt_x seed) (pt_y seed) = true ->
  pixelColor (image c) (pt_x seed) (pt_y seed) = current_color c ->
  flood_fill c seed false = c /\
  exists c',
    mousePressEvent dp c ev = Some c' /\
    live c' = live c /\
    undo_stack c' = Deque.append MAX_UNDO_STATES (undo_stack c) (live c) /\
    redo_stack c' = [] /\
    emitted c' = emitted c ++ [history_changed].
Proof.
  intros Hb Htool Hseed Hin Hcol.
  assert (Hfill : flood_fill c seed false = c).
  { unfold flood_fill. rewrite Hin. cbn [negb]. rewrite decide_True by exact Hcol.
    reflexivity. }
  split; [exact Hfill|].
  unfold mousePressEvent. rewrite Hb, Hseed. cbn [mbind option_bind].
  rewrite Htool. cbn [String.eqb Ascii.eqb Bool.eqb]. rewrite Hfill.
  eexists. split; [reflexivity|]. repeat split.
Qed.

Lemma fill_same_color_keeps_buffer_witness :
  ev_button press_origin = LeftButton /\
  current_tool black_bucket_canvas = "bucket"%string /\
  QPointF_toPoint (_to_image_coords black_bucket_canvas (ev_position press_origin))
    = Some (mkQPoint 0 0) /\
  QImage_contains (image black_bucket_canvas) 0 0 = true /\
  pixelColor (image black_bucket_canvas) 0 0 = current_color black_bucket_canvas /\
  flood_fill black_bucket_canvas (mkQPoint 0 0) false = black_bucket_canvas.
Proof.
  split; [reflexivity|]. split; [reflexivity|]. split; [reflexivity|].
  split; [reflexivity|]. split; [reflexivity|].
  exact (proj1 (fill_same_color_keeps_buffer pixel_drawPoint black_bucket_canvas
                  press_origin (mkQPoint 0 0) eq_refl eq_refl eq_refl eq_refl eq_refl)).
Defined.

(** C4 as stated fails: on a black 1 x 1 buffer with black selected, the
    bucket press leaves the buffer as it is and yet adds an entry to the
    undo stack. *)
Lemma fill_same_color_counterexample :
  pixelColor (image black_bucket_canvas) 0 0 = current_color black_bucket_canvas /\
  match mousePressEvent pixel_drawPoint black_bucket_canvas press_origin with
  | Some c' =>
      image c' = image black_bucket_canvas /\
      length (undo_stack black_bucket_canvas) = 1%nat /\
      length (undo_stack c') = 2%nat /\
      undo_stack c' <> undo_stack black_bucket_canvas
  | None => False
  end.
Proof.
  split; [reflexivity|]. vm_compute. repeat split; discriminate.
Qed.

(** C10.  Resizing to the current size is a no-op: the canvas is returned
    as it is, so that the pixel buffer, the scale factor, both history
    stacks and the list of emitted signals are unchanged. *)
Theorem resize_same_size_noop (c : Canvas) :
  let c' := resize_canvas c (sz_width (_image_size c)) (sz_height (_image_size c)) in
  c' = c /\
  image c' = image c /\
  scale_factor c' = scale_factor c /\
  undo_stack c' = undo_stack c /\
  redo_stack c' = redo_stack c /\
  emitted c' = emitted c.
Proof.
  assert (E : resize_canvas c (sz_width (_image_size c)) (sz_height (_image_size c)) = c).
  { destruct (resize_canvas_cases c (sz_width (_image_size c)) (sz_height (_image_size c)))
      as [E|(_ & Hne & _)]; [exact E|].
    exfalso. apply Hne. destruct (_image_size c); reflexivity. }
  cbv zeta. rewrite E. repeat split.
Qed.

(* ================================================================== *)
(** * Tool state and its signals *)

Lemma adjust_size_spec c delta :
  current_pen_size (adjust_size c delta) =
    (if has_pen c then clamp_pen_size (current_pen_size c + delta) else 1) /\
  emitted (adjust_size c delta) = emitted c ++
    (if decide (current_pen_size (adjust_size c delta) = current_pen_size c) then []
     else [pen_size_changed (current_pen_size (adjust_size c delta))]).
Proof.
  unfold adjust_size, has_pen, clamp_pen_size.
  generalize (Z.max MIN_PEN_SIZE (Z.min (current_pen_size c + delta) MAX_PEN_SIZE)).
  intros new_size. unfold current_pen_size.
  size_setter_cases c new_size.
  - rewrite decide_True, app_nil_r by reflexivity. auto.
  - rewrite decide_False by congruence. auto.
  - rewrite decide_True, app_nil_r by reflexivity. auto.
  - rewrite decide_False by congruence. auto.
  - rewrite decide_True, app_nil_r by reflexivity. auto.
Qed.

Lemma set_pen_size_spec c size :
  current_pen_size (set_pen_size c size) =
    (if has_pen c then clamp_pen_size size else 1) /\
  emitted (set_pen_size c size) = emitted c.
Proof.
  unfold set_pen_size, has_pen, clamp_pen_size.
  generalize (Z.max MIN_PEN_SIZE (Z.min size MAX_PEN_SIZE)).
  intros new_size. unfold current_pen_size.
  size_setter_cases c new_size; auto.
Qed.

(** C9, as the code has it.  The relative adjustment clamps the size to
    [1, 100] and emits [pen_size_changed], with the new size, exactly when
    the pen size of the active tool changes.  The absolute setter applies
    the same clamp and stores the size under the same condition, but
    emits nothing.  [set_color] emits [color_changed] exactly when the
    colour is valid, equal to the current one or not.  [set_tool] emits
    [pen_size_changed] exactly when the tool changes. *)
Theorem tool_setters_notifications (c : Canvas) :
  (forall delta,
     current_pen_size (adjust_size c delta) =
       (if has_pen c then clamp_pen_size (current_pen_size c + delta) else 1) /\
     emitted (adjust_size c delta) = emitted c ++
       (if decide (current_pen_size (adjust_size c delta) = current_pen_size c) then []
        else [pen_size_changed (current_pen_size (adjust_size c delta))])) /\
  (forall size,
     current_pen_size (set_pen_size c size) =
       (if has_pen c then clamp_pen_size size else 1) /\
     emitted (set_pen_size c size) = emitted c) /\
  (forall color,
     current_color (set_color c color) =
       (if QColor_isValid color then color else current_color c) /\
     emitted (set_color c color) = emitted c ++
       (if QColor_isValid color then [color_changed color] else [])) /\
  (forall tool,
     current_tool (set_tool c tool) = str_lower tool /\
     emitted (set_tool c tool) = emitted c ++
       (if decide (str_lower tool = current_tool c) then []
        else [pen_size_changed (current_pen_size (set_tool c tool))])).
Proof.
  split; [|split; [|split]].
  - intros delta. apply adjust_size_spec.
  - intros size. apply set_pen_size_spec.
  - intros color. unfold set_color. destruct (QColor_isValid color).
    + split; reflexivity.
    + rewrite app_nil_r. split; reflexivity.
  - intros tool. unfold set_tool.
    destruct (String.eqb_spec (str_lower tool) (current_tool c)) as [E|E]; cbn [negb].
    + rewrite decide_True by exact E. rewrite app_nil_r. split; [symmetry; exact E|reflexivity].
    + rewrite decide_False by exact E. split; reflexivity.
Qed.

(** C9 as stated fails on the initial canvas (brush of size 5, black):
    [set_pen_size 10] changes the pen size and emits nothing, and
    [set_color] with the current colour changes nothing and emits
    [color_changed]. *)
Lemma tool_setters_counterexample :
  (current_pen_size canvas0 = 5 /\
   current_pen_size (set_pen_size canvas0 10) = 10 /\
   emitted (set_pen_size canvas0 10) = emitted canvas0) /\
  (current_color canvas0 = Qt_black /\
   current_color (set_color canvas0 Qt_black) = Qt_black /\
   emitted (set_color canvas0 Qt_black) = emitted canvas0 ++ [color_changed Qt_black]).
Proof. repeat split. Qed.

(* ================================================================== *)
(** * Resizing *)

Lemma pixelColor_wf img x y :
  QImage_wf img -> QImage_contains img x y = true ->
  pixelColor img x y
    = QColor_rgba (default px_transparent (image_bits img !! pixel_index img x y)).
Proof.
  intros Hwf Hin. unfold pixelColor. rewrite Hin.
  destruct (lookup_lt_is_Some_2 (image_bits img) (pixel_index img x y)
              (pixel_index_lt img x y Hwf Hin)) as [px Hpx].
  rewrite Hpx. reflexivity.
Qed.

Lemma QImage_filled_pos w h px :
  0 < w -> 0 < h ->
  QImage_filled (mkQSize w h) px = mkQImage w h (replicate (Z.to_nat (w * h)) px).
Proof.
  intros Hw Hh. unfold QImage_filled; simpl.
  destruct (Z.leb_spec w 0); [lia|]. destruct (Z.leb_spec h 0); [lia|]. reflexivity.
Qed.

(** The pixels [drawImage] leaves in a fresh transparent image: those of
    the source inside the rectangle, composed with the transparent
    pixel, and transparent ones elsewhere. *)
Lemma pixelColor_drawImage_rect (src : QImage) (rect : QSize) w h x y :
  QImage_wf src -> 0 < w -> 0 < h -> 0 <= x < w -> 0 <= y < h ->
  pixelColor (QPainter_drawImage rect src (QImage_filled (mkQSize w h) px_transparent)) x y
  = if (x <? sz_width rect) && (y <? sz_height rect) && QImage_contains src x y
    then QColor_rgba
           (QPainter_compose
              (default px_transparent (image_bits src !! pixel_index src x y))
              px_transparent)
    else Qt_transparent.
Proof.
  intros Hwf Hw Hh Hx Hy. rewrite QImage_filled_pos by assumption.
  unfold QPainter_drawImage. cbn [image_width image_height image_bits].
  rewrite pixelColor_tabulate by assumption.
  assert (Hd : default px_transparent
                 (replicate (Z.to_nat (w * h)) px_transparent
                    !! pixel_index (mkQImage w h (replicate (Z.to_nat (w * h)) px_transparent)) x y)
               = px_transparent).
  { unfold pixel_index. cbn [image_width].
    rewrite lookup_replicate_2; [reflexivity|].
    assert (y * w <= (h - 1) * w) by (apply Z.mul_le_mono_nonneg_r; lia). nia. }
  cbv zeta. rewrite Hd.
  destruct ((x <? sz_width rect) && (y <? sz_height rect) && QImage_contains src x y);
    reflexivity.
Qed.

Lemma drawn_as_compose px :
  drawn_as (QColor_rgba px) (QColor_rgba (QPainter_compose px px_transparent)).
Proof.
  unfold drawn_as. split; [|split].
  - intros Hv. rewrite (QPainter_compose_verbatim px Hv). reflexivity.
  - intros Ha. rewrite (QPainter_compose_alpha_0 px Ha). reflexivity.
  - eexists. split; [reflexivity|]. apply QPainter_compose_alpha.
Qed.

(** The pixels of a resized buffer: those of the old buffer where it had
    any, as the painter draws them, and transparent ones elsewhere. *)
Lemma pixelColor_drawImage (src : QImage) w h x y :
  QImage_wf src -> 0 < w -> 0 < h -> 0 <= x < w -> 0 <= y < h ->
  if QImage_contains src x y
  then drawn_as (pixelColor src x y)
         (pixelColor
            (QPainter_drawImage (QSize_boundedTo (QImage_size src) (mkQSize w h)) src
               (QImage_filled (mkQSize w h) px_transparent)) x y)
  else pixelColor
         (QPainter_drawImage (QSize_boundedTo (QImage_size src) (mkQSize w h)) src
            (QImage_filled (mkQSize w h) px_transparent)) x y = Qt_transparent.
Proof.
  intros Hwf Hw Hh Hx Hy.
  rewrite (pixelColor_drawImage_rect src _ w h x y Hwf Hw Hh Hx Hy).
  cbn [QSize_boundedTo QImage_size sz_width sz_height].
  destruct (QImage_contains src x y) eqn:Hin.
  - rewrite (pixelColor_wf src x y Hwf Hin).
    apply QImage_contains_spec in Hin.
    replace (x <? Z.min (image_width src) w) with true by (symmetry; apply Z.ltb_lt; lia).
    replace (y <? Z.min (image_height src) h) with true by (symmetry; apply Z.ltb_lt; lia).
    cbn [andb]. apply drawn_as_compose.
  - rewrite andb_false_r. reflexivity.
Qed.

(** C8, as the code has it.  [resize_canvas] itself checks no range: the
    dimensions only have to be C [int]s, or [QSize] raises and nothing is
    done.  The dialog that calls it offers spin boxes ranging over
    [1, MAX_CANVAS_DIM] = [1, 10000], so the dimensions it passes are always
    in that range and the "Invalid Size" warning is never shown.  For
    dimensions in that range other than the current ones,
    [resize_canvas] captures the live buffer, then installs a buffer of the
    new size on which the old one has been drawn at the origin: inside
    the old bounds a pixel that is opaque or [0 0 0 0] is the old one, a
    pixel of alpha 0 is [0 0 0 0] whatever colour it carried, and any
    pixel keeps its alpha; outside the old bounds the buffer is
    transparent.  A partially transparent pixel is not copied as it is:
    [200 100 50] of alpha 3 comes out as [170 85 85] of alpha 3. *)
Theorem resize_dialog_and_canvas :
  (forall (c : Canvas) (u : dialog_input),
     let dims := getDimensions
                   (ResizeDialog_exec
                      (ResizeDialog_init (sz_width (_image_size c))
                         (sz_height (_image_size c))) u) in
     1 <= dims.1 <= MAX_CANVAS_DIM /\
     1 <= dims.2 <= MAX_CANVAS_DIM /\
     show_resize_dialog c u =
       (if accepted u then resize_canvas c dims.1 dims.2 else c, false)) /\
  (forall (c : Canvas) (new_width new_height : Z),
     resize_canvas_raises new_width new_height = true ->
     resize_canvas c new_width new_height = c) /\
  (forall (c : Canvas) (new_width new_height : Z),
     QImage_wf (image c) ->
     _image_size c = QImage_size (image c) ->
     0 < new_width <= MAX_CANVAS_DIM -> 0 < new_height <= MAX_CANVAS_DIM ->
     mkQSize new_width new_height <> _image_size c ->
     let c' := resize_canvas c new_width new_height in
     resize_canvas_raises new_width new_height = false /\
     _image_size c' = mkQSize new_width new_height /\
     QImage_size (image c') = mkQSize new_width new_height /\
     QImage_wf (image c') /\
     undo_stack c' = Deque.append MAX_UNDO_STATES (undo_stack c) (live c) /\
     redo_stack c' = [] /\
     forall x y,
       0 <= x < new_width -> 0 <= y < new_height ->
       if QImage_contains (image c) x y
       then drawn_as (pixelColor (image c) x y) (pixelColor (image c') x y)
       else pixelColor (image c') x y = Qt_transparent) /\
  image (resize_canvas faint_canvas 2 1) = mkQImage 2 1 [ARGB 170 85 85 3; ARGB 0 0 0 0] /\
  image (resize_canvas ghost_canvas 2 1) = mkQImage 2 1 [ARGB 0 0 0 0; ARGB 0 0 0 0].
Proof.
  split; [|split; [|split; [|split]]].
  - intros c u dims.
    assert (Hw : 1 <= dims.1 <= MAX_CANVAS_DIM).
    { subst dims. unfold getDimensions, ResizeDialog_exec, ResizeDialog_init, fst.
      cbn [width_spinbox]. destruct (entered_width u); cbn [from_option];
        unfold QSpinBox_setValue, MAX_CANVAS_DIM; cbn [spin_value spin_minimum spin_maximum];
        lia. }
    assert (Hh : 1 <= dims.2 <= MAX_CANVAS_DIM).
    { subst dims. unfold getDimensions, ResizeDialog_exec, ResizeDialog_init, snd.
      cbn [height_spinbox]. destruct (entered_height u); cbn [from_option];
        unfold QSpinBox_setValue, MAX_CANVAS_DIM; cbn [spin_value spin_minimum spin_maximum];
        lia. }
    split; [exact Hw|]. split; [exact Hh|].
    unfold show_resize_dialog. fold dims. destruct (accepted u); [|reflexivity].
    destruct dims as [new_w new_h]. cbn [fst snd] in *.
    replace (0 <? new_w) with true by (symmetry; apply Z.ltb_lt; lia).
    replace (0 <? new_h) with true by (symmetry; apply Z.ltb_lt; lia).
    reflexivity.
  - intros c new_width new_height Hraises. unfold resize_canvas. rewrite Hraises.
    reflexivity.
  - intros c new_width new_height Hwf Hsize Hw Hh Hne c'. subst c'.
    pose proof (resize_canvas_in_range new_width new_height Hw Hh) as Hfits.
    split; [exact Hfits|].
    destruct (resize_canvas_cases c new_width new_height) as [E|(_ & _ & E)].
    { exfalso. unfold resize_canvas in E. rewrite Hfits in E.
      rewrite decide_False in E by exact Hne.
      apply (f_equal _image_size) in E. cbn [_image_size set__image_size] in E.
      congruence. }
    rewrite E.
    cbn [_image_size set__image_size image set_image undo_stack redo_stack].
    rewrite save_state_undo_stack.
    change (_image_size (_save_state c false)) with (_image_size c).
    change (image (_save_state c false)) with (image c).
    rewrite Hsize.
    split; [reflexivity|].
    split; [rewrite QImage_filled_pos by lia; reflexivity|].
    split.
    { rewrite QImage_filled_pos by lia.
      apply QImage_tabulate_wf; cbn [image_width image_height]; lia. }
    split; [reflexivity|]. split; [reflexivity|].
    intros x y Hx Hy. apply pixelColor_drawImage; first [assumption | lia].
  - vm_compute. reflexivity.
  - vm_compute. reflexivity.
Qed.

Lemma resize_dialog_and_canvas_witness :
  QImage_wf (image red_canvas) /\
  _image_size red_canvas = QImage_size (image red_canvas) /\
  0 < 2 <= MAX_CANVAS_DIM /\ 0 < 3 <= MAX_CANVAS_DIM /\
  mkQSize 2 3 <> _image_size red_canvas /\
  resize_canvas_raises (2 ^ 31) 1 = true /\
  resize_canvas red_canvas (2 ^ 31) 1 = red_canvas /\
  image (resize_canvas red_canvas 2 3)
    = mkQImage 2 3 [ARGB 255 0 0 255; ARGB 0 0 0 0; ARGB 0 0 0 0;
                    ARGB 0 0 0 0; ARGB 0 0 0 0; ARGB 0 0 0 0] /\
  forall x y,
    0 <= x < 2 -> 0 <= y < 3 ->
    if QImage_contains (image red_canvas) x y
    then drawn_as (pixelColor (image red_canvas) x y)
           (pixelColor (image (resize_canvas red_canvas 2 3)) x y)
    else pixelColor (image (resize_canvas red_canvas 2 3)) x y = Qt_transparent.
Proof.
  assert (Hwf : QImage_wf (image red_canvas)) by (vm_compute; repeat split; discriminate).
  assert (Hne : mkQSize 2 3 <> _image_size red_canvas) by (vm_compute; discriminate).
  assert (H2 : 0 < 2 <= MAX_CANVAS_DIM) by (unfold MAX_CANVAS_DIM; lia).
  assert (H3 : 0 < 3 <= MAX_CANVAS_DIM) by (unfold MAX_CANVAS_DIM; lia).
  split; [exact Hwf|]. split; [reflexivity|]. split; [exact H2|]. split; [exact H3|].
  split; [exact Hne|]. split; [reflexivity|].
  split; [exact (proj1 (proj2 resize_dialog_and_canvas) red_canvas (2 ^ 31) 1 eq_refl)|].
  split; [vm_compute; reflexivity|].
  exact (proj2 (proj2 (proj2 (proj2 (proj2 (proj2
    (proj1 (proj2 (proj2 resize_dialog_and_canvas)) red_canvas 2 3 Hwf eq_refl
       H2 H3 Hne))))))).
Defined.

(** C8 as stated fails: [resize_canvas] checks no range.  Called with a
    width of 0 it captures the state and replaces the buffer by a null
    image; called with a width above the maximum it resizes. *)
Lemma resize_invalid_counterexample :
  live red_canvas = (red_image, mkQSize 1 1) /\
  length (undo_stack red_canvas) = 1%nat /\
  (live (resize_canvas red_canvas 0 1) = (mkQImage 0 0 [], mkQSize 0 1) /\
   length (undo_stack (resize_canvas red_canvas 0 1)) = 2%nat) /\
  (MAX_CANVAS_DIM < 10001 /\
   QImage_size (image (resize_canvas red_canvas 10001 1)) = mkQSize 10001 1 /\
   length (undo_stack (resize_canvas red_canvas 10001 1)) = 2%nat).
Proof.
  split; [reflexivity|]. split; [reflexivity|].
  split; [split; vm_compute; reflexivity|].
  split; [reflexivity|]. split; vm_compute; reflexivity.
Qed.

(* ================================================================== *)
(** * Zoom *)

(** ** Facts of binary64 arithmetic *)

Lemma float_sub_diag s m e :
  Float.sub (S754_finite s m e) (S754_finite s m e) = S754_zero false.
Proof.
  unfold Float.sub, SFsub. rewrite Z.sub_diag. reflexivity.
Qed.

Lemma float_compare_antisym x y :
  SFcompare y x = CompOpp <$> SFcompare x y.
Proof.
  destruct x as [sx|sx| |sx mx ex], y as [sy|sy| |sy my ey]; simpl;
    try reflexivity; try (destruct sx; reflexivity); try (destruct sy; reflexivity);
    try (destruct sx, sy; reflexivity).
  assert (Hz : (ey ?= ex) = CompOpp (ex ?= ey)) by apply Z.compare_antisym.
  assert (Hp : Pos.compare_cont Eq my mx = CompOpp (Pos.compare_cont Eq mx my))
    by (symmetry; apply (Pos.compare_cont_antisym mx my Eq)).
  rewrite Hz, Hp.
  destruct sx, sy, (ex ?= ey), (Pos.compare_cont Eq mx my); reflexivity.
Qed.

Lemma float_compare_eq x y :
  SFcompare x y = Some Eq ->
  match x, y with
  | S754_finite sx mx ex, S754_finite sy my ey => x = y
  | _, _ => True
  end.
Proof.
  destruct x as [sx|sx| |sx mx ex], y as [sy|sy| |sy my ey]; try (intros; exact I).
  simpl. destruct sx, sy; try discriminate.
  - destruct (Z.compare_spec ex ey) as [->| |]; try discriminate.
    intros [= H]. destruct (Pos.compare_cont Eq mx my) eqn:Hc; try discriminate.
    apply Pos.compare_eq in Hc. subst. reflexivity.
  - destruct (Z.compare_spec ex ey) as [->| |]; try discriminate.
    intros [= H]. apply Pos.compare_eq in H. subst. reflexivity.
Qed.

(** The clamp always yields a positive finite number between 0.1 and
    16.0, whatever the product, a NaN included. *)
Lemma zoom_new_scale_cases old_scale factor :
  let p := Float.mul old_scale factor in
  (zoom_new_scale old_scale factor = Float.f0_1 /\ Float.ltb Float.f0_1 p = false) \/
  (zoom_new_scale old_scale factor = Float.f16 /\ Float.ltb Float.f16 p = true) \/
  (zoom_new_scale old_scale factor = p /\
   Float.ltb Float.f0_1 p = true /\ Float.ltb Float.f16 p = false).
Proof.
  intros p. unfold zoom_new_scale. fold p. unfold Float.py_max, Float.py_min.
  destruct (Float.ltb Float.f16 p) eqn:H16.
  - right; left. split; reflexivity.
  - destruct (Float.ltb Float.f0_1 p) eqn:H01.
    + right; right. auto.
    + left. auto.
Qed.

Lemma zoom_new_scale_finite old_scale factor :
  exists m e, zoom_new_scale old_scale factor = S754_finite false m e.
Proof.
  destruct (zoom_new_scale_cases old_scale factor) as [[E _]|[[E _]|(E & H01 & H16)]];
    rewrite E; [eexists _, _; reflexivity..|].
  destruct (Float.mul old_scale factor) as [s|s| |s m e];
    try (destruct s); try discriminate H01; try discriminate H16.
  eexists _, _; reflexivity.
Qed.

Lemma zoom_new_scale_range old_scale factor :
  Float.leb Float.f0_1 (zoom_new_scale old_scale factor) = true /\
  Float.leb (zoom_new_scale old_scale factor) Float.f16 = true.
Proof.
  destruct (zoom_new_scale_cases old_scale factor) as [[E _]|[[E _]|(E & H01 & H16)]];
    rewrite E; [split; reflexivity..|].
  generalize dependent (Float.mul old_scale factor). intros p _ H01 H16.
  unfold Float.leb, Float.ltb, SFleb, SFltb in *. split.
  - destruct (SFcompare Float.f0_1 p) as [[]|]; try discriminate. reflexivity.
  - rewrite (float_compare_antisym p Float.f16) in H16.
    destruct (SFcompare p Float.f16) as [[]|] eqn:Hc; try reflexivity; try discriminate.
    destruct p as [s|s| |s m e]; try (destruct s); discriminate.
Qed.

Lemma digits2_pos_iter_xO m k :
  Z.pos (digits2_pos (Pos.iter xO m k)) = Z.pos (digits2_pos m) + Z.pos k.
Proof.
  induction k as [|k IH] using Pos.peano_ind.
  - simpl. lia.
  - rewrite Pos.iter_succ. cbn [digits2_pos]. rewrite Pos2Z.inj_succ, IH. lia.
Qed.

Lemma float_mul_one s m e :
  Float.valid (S754_finite s m e) = true ->
  Float.mul (S754_finite s m e) Float.f1 = S754_finite s m e.
Proof.
  unfold Float.valid, valid_binary, bounded, canonical_mantissa.
  intros Hv. apply andb_true_iff in Hv as [Hc Hb].
  apply Z.eqb_eq in Hc.
  unfold Float.mul, Float.f1, SFmul. rewrite Pos.mul_comm.
  change (4503599627370496 * m)%positive with (Pos.iter xO m 52).
  unfold binary_round_aux, shr_fexp.
  unfold Zdigits2. rewrite digits2_pos_iter_xO.
  replace (Z.pos (digits2_pos m) + 52 + (e + -52)) with (Z.pos (digits2_pos m) + e) by lia.
  rewrite Hc. replace (e - (e + -52)) with 52 by lia.
  cbn [shr shr_record_of_loc]. 
  change (SpecFloat.iter_pos shr_1 52
            {| shr_m := Z.pos (Pos.iter xO m 52); shr_r := false; shr_s := false |})
    with {| shr_m := Z.pos m; shr_r := false; shr_s := false |}.
  cbn [shr_m loc_of_shr_record round_nearest_even Zdigits2].
  replace (e + -52 + 52) with e by lia.
  rewrite Hc, Z.sub_diag. cbn [shr shr_record_of_loc shr_m].
  rewrite Hb. destruct s; reflexivity.
Qed.

Lemma float_sub_self_negligible x m e :
  x = S754_finite false m e ->
  Float.ltb (Float.abs (Float.sub x x)) Float.f0_001 = true.
Proof. intros ->. rewrite float_sub_diag. reflexivity. Qed.

Lemma float_ltb_asym x y : Float.ltb x y = true -> Float.ltb y x = false.
Proof.
  unfold Float.ltb, SFltb. rewrite (float_compare_antisym x y).
  destruct (SFcompare x y) as [[]|]; try discriminate. reflexivity.
Qed.

Lemma float_above_16_not_below_0_1 p :
  Float.ltb Float.f16 p = true -> Float.ltb p Float.f0_1 = false.
Proof.
  destruct p as [s|s| |s m e]; try (destruct s); try discriminate; try reflexivity.
  unfold Float.ltb, SFltb, Float.f16, Float.f0_1. cbn [SFcompare].
  destruct (Z.compare_spec (-48) e); try discriminate;
    destruct (Z.compare_spec e (-56)); try reflexivity; lia.
Qed.

Lemma float_equal_0_1 p :
  p <> S754_nan ->
  Float.ltb Float.f0_1 p = false -> Float.ltb p Float.f0_1 = false -> p = Float.f0_1.
Proof.
  intros Hnan. unfold Float.ltb, SFltb. rewrite (float_compare_antisym Float.f0_1 p).
  destruct (SFcompare Float.f0_1 p) as [[]|] eqn:Hc; try discriminate.
  - intros _ _. pose proof (float_compare_eq _ _ Hc) as H.
    destruct p as [s|s| |s m e]; try (destruct s); try discriminate Hc.
    symmetry. exact H.
  - destruct p as [s|s| |s m e]; try (destruct s); try discriminate Hc. congruence.
Qed.

(** On every product that is a number, the scale computed by the code is
    the clamp of the specification. *)
Lemma zoom_new_scale_clamp old_scale factor :
  Float.mul old_scale factor <> S754_nan ->
  zoom_new_scale old_scale factor
    = clamp (Float.mul old_scale factor) Float.f0_1 Float.f16.
Proof.
  unfold zoom_new_scale, clamp, Float.py_max, Float.py_min.
  generalize (Float.mul old_scale factor). intros p Hnan.
  destruct (Float.ltb Float.f16 p) eqn:H16.
  - rewrite (float_above_16_not_below_0_1 p H16). reflexivity.
  - destruct (Float.ltb Float.f0_1 p) eqn:H01.
    + rewrite (float_ltb_asym _ _ H01). reflexivity.
    + destruct (Float.ltb p Float.f0_1) eqn:Hlt; [reflexivity|].
      symmetry. apply float_equal_0_1; assumption.
Qed.

(** C6.  [_zoom_at_point] works with the scale [zoom_new_scale], the
    product of the current scale and the factor clamped to [0.1, 16.0]:
    it lies in that interval, it is the clamp of the specification on
    every product that is a number, and it is the scale stored when the
    zoom takes effect.  When the new scale differs from the current one by
    less than 0.001 the call is a no-op: the canvas is returned as it is,
    with the same scale factor and a zero scroll delta.  This is the case
    when the clamped scale equals the current one, and when the factor is
    1.0 and the scale is a binary64 number within [0.1, 16.0]. *)
Theorem zoom_at_point_negligible (c : Canvas) (widget_point : QPoint) (factor : float) :
  (Float.leb Float.f0_1 (zoom_new_scale (scale_factor c) factor) = true /\
   Float.leb (zoom_new_scale (scale_factor c) factor) Float.f16 = true) /\
  (Float.mul (scale_factor c) factor <> S754_nan ->
   zoom_new_scale (scale_factor c) factor
     = clamp (Float.mul (scale_factor c) factor) Float.f0_1 Float.f16) /\
  (forall c',
     zoom_negligible (scale_factor c) factor = false ->
     _zoom_at_point c widget_point factor = Some c' ->
     scale_factor c' = zoom_new_scale (scale_factor c) factor) /\
  (zoom_negligible (scale_factor c) factor = true ->
   zoom_noop c widget_point factor) /\
  (zoom_new_scale (scale_factor c) factor = scale_factor c ->
   zoom_noop c widget_point factor) /\
  (Float.valid (scale_factor c) = true ->
   Float.leb Float.f0_1 (scale_factor c) = true ->
   Float.leb (scale_factor c) Float.f16 = true ->
   factor = Float.f1 ->
   zoom_noop c widget_point factor).
Proof.
  assert (Hguard : zoom_negligible (scale_factor c) factor = true ->
                   zoom_noop c widget_point factor).
  { intros Hg. exists c. unfold _zoom_at_point.
    change (Float.ltb _ Float.f0_001) with (zoom_negligible (scale_factor c) factor).
    rewrite Hg. unfold scroll_delta. rewrite !Z.sub_diag. auto. }
  assert (Hsame : zoom_new_scale (scale_factor c) factor = scale_factor c ->
                  zoom_noop c widget_point factor).
  { intros E. apply Hguard. unfold zoom_negligible. rewrite E.
    destruct (zoom_new_scale_finite (scale_factor c) factor) as (m & e & Hfin).
    rewrite E in Hfin. eapply float_sub_self_negligible, Hfin. }
  split; [apply zoom_new_scale_range|].
  split; [apply zoom_new_scale_clamp|].
  split; [|split; [exact Hguard|split; [exact Hsame|]]].
  - intros c' Hg. unfold _zoom_at_point.
    change (Float.ltb _ Float.f0_001) with (zoom_negligible (scale_factor c) factor).
    rewrite Hg.
    destruct (Float.py_round (ptf_x _)) as [dx|]; cbn [mbind option_bind];
      [|discriminate].
    destruct (Float.py_round (ptf_y _)) as [dy|]; cbn [mbind option_bind];
      [|discriminate].
    intros [= <-]. reflexivity.
  - intros Hv H01 H16 ->. apply Hsame.
    destruct (scale_factor c) as [s|s| |s m e] eqn:Hs;
      try (destruct s); try discriminate H01; try discriminate H16.
    unfold zoom_new_scale. rewrite (float_mul_one false m e Hv).
    unfold Float.py_max, Float.py_min, Float.leb, Float.ltb, SFleb, SFltb in *.
    rewrite (float_compare_antisym (S754_finite false m e) Float.f16).
    destruct (SFcompare (S754_finite false m e) Float.f16) as [[]|];
      try discriminate H16; cbn [fmap option_fmap option_map CompOpp].
    + destruct (SFcompare Float.f0_1 (S754_finite false m e)) as [[]|] eqn:Hc;
        try discriminate H01; [|reflexivity].
      exact (float_compare_eq _ _ Hc).
    + destruct (SFcompare Float.f0_1 (S754_finite false m e)) as [[]|] eqn:Hc;
        try discriminate H01; [|reflexivity].
      exact (float_compare_eq _ _ Hc).
Qed.

Lemma zoom_at_point_negligible_witness :
  zoom_negligible (scale_factor canvas0) Float.f1 = true /\
  zoom_new_scale (scale_factor canvas0) Float.f1 = scale_factor canvas0 /\
  Float.valid (scale_factor canvas0) = true /\
  Float.leb Float.f0_1 (scale_factor canvas0) = true /\
  Float.leb (scale_factor canvas0) Float.f16 = true /\
  zoom_noop canvas0 (mkQPoint 10 20) Float.f1.
Proof.
  split; [reflexivity|]. split; [reflexivity|]. split; [reflexivity|].
  split; [reflexivity|]. split; [reflexivity|].
  exact (proj2 (proj2 (proj2 (proj2 (proj2
    (zoom_at_point_negligible canvas0 (mkQPoint 10 20) Float.f1)))))
    eq_refl eq_refl eq_refl eq_refl).
Defined.

(* ================================================================== *)
(** * Coordinates: the round trip through image space *)

(** ** Number of binary digits *)

Lemma digits2_pos_bounds m :
  2 ^ (Z.pos (digits2_pos m) - 1) <= Z.pos m < 2 ^ Z.pos (digits2_pos m).
Proof.
  induction m as [m IH|m IH|]; cbn [digits2_pos].
  - rewrite Pos2Z.inj_succ. change (Z.pos m~1) with (2 * Z.pos m + 1).
    replace (Z.succ (Z.pos (digits2_pos m)) - 1) with (Z.succ (Z.pos (digits2_pos m) - 1)) by lia.
    rewrite !Z.pow_succ_r by lia. lia.
  - rewrite Pos2Z.inj_succ. change (Z.pos m~0) with (2 * Z.pos m).
    replace (Z.succ (Z.pos (digits2_pos m)) - 1) with (Z.succ (Z.pos (digits2_pos m) - 1)) by lia.
    rewrite !Z.pow_succ_r by lia. lia.
  - change (2 ^ (1 - 1)) with 1. change (2 ^ 1) with 2. lia.
Qed.

Lemma digits2_pos_unique m d :
  2 ^ (d - 1) <= Z.pos m < 2 ^ d -> Z.pos (digits2_pos m) = d.
Proof.
  intros [Hlo Hhi]. pose proof (digits2_pos_bounds m) as [Hlo' Hhi'].
  assert (0 < d).
  { destruct (Z.lt_trichotomy d 0) as [Hd|[->|Hd]]; [|simpl in Hhi; lia|lia].
    rewrite Z.pow_neg_r in Hhi by lia. lia. }
  destruct (Z.lt_trichotomy (Z.pos (digits2_pos m)) d) as [Hlt|[Heq|Hgt]];
    [exfalso|exact Heq|exfalso].
  - assert (2 ^ Z.pos (digits2_pos m) <= 2 ^ (d - 1)) by (apply Z.pow_le_mono_r; lia). lia.
  - assert (2 ^ d <= 2 ^ (Z.pos (digits2_pos m) - 1)) by (apply Z.pow_le_mono_r; lia). lia.
Qed.

Lemma fexp_normal e :
  -1021 <= e -> fexp Float.prec Float.emax e = e - 53.
Proof.
  intros H. unfold fexp, emin, Float.prec, Float.emax. lia.
Qed.

(** ** Shifting a mantissa right *)

Lemma loc_of_shr_record_of_loc m l :
  loc_of_shr_record (shr_record_of_loc m l) = l /\
  shr_m (shr_record_of_loc m l) = m.
Proof. destruct l as [|[]]; split; reflexivity. Qed.

(** One step to the right halves the scale: the position of N / D among
    the integers becomes that of N / (2 D). *)
Lemma shr_1_locates N D r :
  locates N D (shr_m r) (loc_of_shr_record r) ->
  locates N (2 * D) (shr_m (shr_1 r)) (loc_of_shr_record (shr_1 r)).
Proof.
  destruct r as [m rb sb]. unfold locates. cbn [shr_m].
  intros (HD & Hm & Hb & Hl).
  assert (Hcases : exists m' b, m = 2 * m' + b /\ 0 <= m' /\ (b = 0 \/ b = 1) /\
            shr_1 (Build_shr_record m rb sb)
              = Build_shr_record m' (if Z.eqb b 0 then false else true) (rb || sb)).
  { destruct m as [|[p|p|]|p]; try lia.
    - exists 0, 0. split; [lia|split; [lia|split; [lia|reflexivity]]].
    - exists (Z.pos p), 1. split; [lia|split; [lia|split; [lia|reflexivity]]].
    - exists (Z.pos p), 0. split; [lia|split; [lia|split; [lia|reflexivity]]].
    - exists 0, 1. split; [lia|split; [lia|split; [lia|reflexivity]]]. }
  destruct Hcases as (m' & b & -> & Hm' & Hb01 & ->). cbn [shr_m].
  split; [lia|]. split; [exact Hm'|]. split; [destruct Hb01; subst b; lia|].
  destruct Hb01 as [-> | ->]; cbn [Z.eqb];
    destruct rb, sb; cbn [orb loc_of_shr_record] in *;
    repeat match goal with
      | H : _ /\ _ |- _ => destruct H
      | |- _ /\ _ => split
      | |- (_ ?= _) = _ => first [apply Z.compare_lt_iff | apply Z.compare_gt_iff
                                 | apply Z.compare_eq_iff]
      | H : (_ ?= _) = Lt |- _ => apply Z.compare_lt_iff in H
      | H : (_ ?= _) = Gt |- _ => apply Z.compare_gt_iff in H
      | H : (_ ?= _) = Eq |- _ => apply Z.compare_eq_iff in H
      end; lia.
Qed.

Lemma iter_shr_locates n :
  forall N D r,
  locates N D (shr_m r) (loc_of_shr_record r) ->
  locates N (2 ^ Z.pos n * D) (shr_m (SpecFloat.iter_pos shr_1 n r))
    (loc_of_shr_record (SpecFloat.iter_pos shr_1 n r)).
Proof.
  induction n as [n IH|n IH|]; intros N D r H; cbn [SpecFloat.iter_pos].
  - apply shr_1_locates in H. apply IH in H. apply IH in H.
    replace (2 ^ Z.pos n~1 * D) with (2 ^ Z.pos n * (2 ^ Z.pos n * (2 * D))); [exact H|].
    replace (Z.pos n~1) with (Z.pos n + Z.pos n + 1) by lia.
    rewrite !Z.pow_add_r by lia. change (2 ^ 1) with 2. ring.
  - apply IH in H. apply IH in H.
    replace (2 ^ Z.pos n~0 * D) with (2 ^ Z.pos n * (2 ^ Z.pos n * D)); [exact H|].
    replace (Z.pos n~0) with (Z.pos n + Z.pos n) by lia.
    rewrite !Z.pow_add_r by lia. ring.
  - apply shr_1_locates in H. exact H.
Qed.

(** Rounding to nearest moves the mantissa by at most half a unit. *)
Lemma round_nearest_even_locates N D m l :
  locates N D m l ->
  m <= round_nearest_even m l <= m + 1 /\
  - D <= 2 * (round_nearest_even m l * D - N) <= D.
Proof.
  unfold locates. intros (HD & Hm & Hb & Hl).
  destruct l as [|[]]; cbn [round_nearest_even].
  - subst N. lia.
  - destruct Hl as [_ Hl]. rewrite Z.compare_eq_iff in Hl.
    destruct (Z.even m); lia.
  - destruct Hl as [_ Hl]. rewrite Z.compare_lt_iff in Hl. lia.
  - destruct Hl as [_ Hl]. rewrite Z.compare_gt_iff in Hl. lia.
Qed.

Lemma pow2_pos k : 0 <= k -> 0 < 2 ^ k.
Proof. intros. apply Z.pow_pos_nonneg; lia. Qed.

(** The first shift of [binary_round_aux]: a mantissa of at least 53
    digits is brought to 53 digits exactly. *)
Lemma shr_fexp_normal p ex lx N D :
  locates N D (Z.pos p) lx ->
  53 <= Z.pos (digits2_pos p) ->
  -1021 <= Z.pos (digits2_pos p) + ex ->
  exists r,
    shr_fexp Float.prec Float.emax (Z.pos p) ex lx
      = (r, ex + (Z.pos (digits2_pos p) - 53)) /\
    locates N (2 ^ (Z.pos (digits2_pos p) - 53) * D) (shr_m r) (loc_of_shr_record r) /\
    2 ^ 52 <= shr_m r < 2 ^ 53.
Proof.
  intros Hloc Hd He.
  pose proof (digits2_pos_bounds p) as Hp.
  set (d := Z.pos (digits2_pos p)) in *.
  unfold shr_fexp. cbn [Zdigits2]. fold d.
  rewrite fexp_normal by exact He.
  replace (d + ex - 53 - ex) with (d - 53) by lia.
  assert (Hr : exists r,
            shr (shr_record_of_loc (Z.pos p) lx) ex (d - 53) = (r, ex + (d - 53)) /\
            locates N (2 ^ (d - 53) * D) (shr_m r) (loc_of_shr_record r)).
  { destruct (d - 53) as [|n|n] eqn:Hn; try lia; cbn [shr].
    - eexists. split; [rewrite Z.add_0_r; reflexivity|].
      destruct (loc_of_shr_record_of_loc (Z.pos p) lx) as [-> ->].
      change (2 ^ 0) with 1. rewrite Z.mul_1_l. exact Hloc.
    - eexists. split; [reflexivity|].
      apply iter_shr_locates.
      destruct (loc_of_shr_record_of_loc (Z.pos p) lx) as [-> ->]. exact Hloc. }
  destruct Hr as (r & Hshr & Hlocr). exists r.
  split; [exact Hshr|]. split; [exact Hlocr|].
  destruct Hloc as (HD & _ & HN & _). destruct Hlocr as (_ & Hm & HN' & _).
  assert (Hk : 0 < 2 ^ (d - 53)) by (apply pow2_pos; lia).
  assert (Hlo : 2 ^ (d - 1) = 2 ^ 52 * 2 ^ (d - 53))
    by (rewrite <- Z.pow_add_r by lia; f_equal; lia).
  assert (Hhi : 2 ^ d = 2 ^ 53 * 2 ^ (d - 53))
    by (rewrite <- Z.pow_add_r by lia; f_equal; lia).
  set (k := 2 ^ (d - 53)) in *. set (m := shr_m r) in *.
  split.
  - (* (m + 1) k D > N >= p D >= 2^52 k D *)
    assert (2 ^ 52 * k * D < (m + 1) * (k * D)) by nia.
    assert (2 ^ 52 < m + 1) by nia. lia.
  - (* m k D <= N < (p + 1) D <= 2^53 k D *)
    assert (m * (k * D) < 2 ^ 53 * k * D) by nia.
    nia.
Qed.

(** The second shift of [binary_round_aux]: the rounded mantissa has 53
    digits, or is 2^53 and loses one. *)
Lemma shr_fexp_rounded m e :
  2 ^ 52 <= m <= 2 ^ 53 -> -1021 <= 53 + e ->
  exists p k,
    shr_fexp Float.prec Float.emax m e loc_Exact
      = (Build_shr_record (Z.pos p) false false, e + k) /\
    0 <= k <= 1 /\ Z.pos p * 2 ^ k = m /\ 2 ^ 52 <= Z.pos p < 2 ^ 53.
Proof.
  intros Hm He. destruct m as [|q|q]; try lia.
  unfold shr_fexp. cbn [Zdigits2 shr_record_of_loc].
  destruct (Z.eq_dec (Z.pos q) (2 ^ 53)) as [E|E].
  - assert (q = 9007199254740992%positive) as -> by lia. clear E.
    exists 4503599627370496%positive, 1.
    change (Z.pos (digits2_pos 9007199254740992)) with 54.
    rewrite fexp_normal by lia.
    replace (54 + e - 53 - e) with 1 by lia.
    split; [reflexivity|]. split; [lia|]. split; [reflexivity|]. lia.
  - exists q, 0.
    rewrite (digits2_pos_unique q 53) by (change (53 - 1) with 52; lia).
    rewrite fexp_normal by lia.
    replace (53 + e - 53 - e) with 0 by lia.
    cbn [shr]. rewrite Z.add_0_r, Z.mul_1_r.
    split; [reflexivity|]. split; [lia|]. split; [reflexivity|]. lia.
Qed.

(** Rounding in the normal range.  When the mantissa [p] with location
    [lx] describes the rational N / D, with at least 53 digits and an
    exponent away from the subnormal and overflow thresholds,
    [binary_round_aux] returns a finite number of 53 digits within half a
    unit in the last place of (N / D) * 2^ex. *)
Lemma binary_round_aux_normal sx p ex lx N D :
  locates N D (Z.pos p) lx ->
  53 <= Z.pos (digits2_pos p) ->
  -1021 <= Z.pos (digits2_pos p) + ex ->
  Z.pos (digits2_pos p) + ex <= 1023 ->
  exists m k,
    binary_round_aux Float.prec Float.emax sx (Z.pos p) ex lx
      = S754_finite sx m (ex + k) /\
    Z.pos (digits2_pos p) - 53 <= k <= Z.pos (digits2_pos p) - 52 /\
    2 ^ 52 <= Z.pos m < 2 ^ 53 /\
    - (2 ^ k * D) <= 2 * (Z.pos m * 2 ^ k * D - N) <= 2 ^ k * D.
Proof.
  intros Hloc Hd Hlo Hhi.
  destruct (shr_fexp_normal p ex lx N D Hloc Hd Hlo) as (r & Hshr & Hlocr & Hr).
  set (d := Z.pos (digits2_pos p)) in *.
  destruct (round_nearest_even_locates _ _ _ _ Hlocr) as [Hm1 Herr].
  set (m1 := round_nearest_even (shr_m r) (loc_of_shr_record r)) in *.
  destruct (shr_fexp_rounded m1 (ex + (d - 53))) as (q & k & Hshr2 & Hk & Hq & Hqb);
    [lia|lia|].
  unfold binary_round_aux. rewrite Hshr. fold m1. rewrite Hshr2. cbn [shr_m].
  replace (ex + (d - 53) + k <=? Float.emax - Float.prec) with true
    by (symmetry; apply Z.leb_le; unfold Float.emax, Float.prec; lia).
  exists q, (d - 53 + k). split; [f_equal; lia|]. split; [lia|]. split; [exact Hqb|].
  assert (Hpow : 2 ^ (d - 53 + k) = 2 ^ (d - 53) * 2 ^ k) by (apply Z.pow_add_r; lia).
  assert (Hk0 : 0 < 2 ^ (d - 53)) by (apply pow2_pos; lia).
  destruct Hloc as (HD & _).
  assert (Hk1 : 1 <= 2 ^ k) by (assert (0 < 2 ^ k) by (apply pow2_pos; lia); lia).
  rewrite Hpow.
  replace (Z.pos q * (2 ^ (d - 53) * 2 ^ k) * D) with (m1 * (2 ^ (d - 53) * D))
    by (rewrite <- Hq; ring).
  assert (0 < 2 ^ (d - 53) * D) by nia.
  assert (2 ^ (d - 53) * D <= 2 ^ (d - 53) * 2 ^ k * D) by nia.
  lia.
Qed.

(** A number that is already in canonical form is returned as it is. *)
Lemma binary_round_aux_canonical sx p e :
  Z.pos (digits2_pos p) = 53 -> -1021 <= 53 + e -> 53 + e <= 1024 ->
  binary_round_aux Float.prec Float.emax sx (Z.pos p) e loc_Exact = S754_finite sx p e.
Proof.
  intros Hd Hlo Hhi. unfold binary_round_aux, shr_fexp.
  cbn [Zdigits2 shr_record_of_loc]. rewrite Hd, fexp_normal by lia.
  replace (53 + e - 53 - e) with 0 by lia.
  cbn [shr shr_m loc_of_shr_record round_nearest_even Zdigits2 shr_record_of_loc].
  rewrite Hd, fexp_normal by lia.
  replace (53 + e - 53 - e) with 0 by lia. cbn [shr shr_m].
  replace (e <=? Float.emax - Float.prec) with true
    by (symmetry; apply Z.leb_le; unfold Float.emax, Float.prec; lia).
  reflexivity.
Qed.

Lemma pos_iter_xO_value p k : Z.pos (Pos.iter xO p k) = Z.pos p * 2 ^ Z.pos k.
Proof.
  induction k as [|k IH] using Pos.peano_ind.
  - change (Pos.iter xO p 1) with (p~0)%positive. change (2 ^ 1) with 2. lia.
  - rewrite Pos.iter_succ, Pos2Z.inj_succ, Z.pow_succ_r by lia.
    change (Z.pos (Pos.iter xO p k)~0) with (2 * Z.pos (Pos.iter xO p k)).
    rewrite IH. ring.
Qed.

(** The conversion of a non-zero integer below 2^53 in magnitude is
    exact: a mantissa of 53 digits and the matching exponent. *)
Lemma of_int_pos sx (px : positive) :
  Z.pos px < 2 ^ 53 ->
  exists m e,
    binary_round Float.prec Float.emax sx px 0 = S754_finite sx m e /\
    Z.pos (digits2_pos m) = 53 /\
    e = Z.pos (digits2_pos px) - 53 /\
    Z.pos m = Z.pos px * 2 ^ (- e).
Proof.
  intros Hx. pose proof (digits2_pos_bounds px) as Hb.
  set (d := Z.pos (digits2_pos px)) in *.
  assert (Hd : 1 <= d <= 53).
  { split; [unfold d; lia|].
    destruct (Z.le_gt_cases d 53) as [?|Hgt]; [assumption|exfalso].
    assert (2 ^ 53 <= 2 ^ (d - 1)) by (apply Z.pow_le_mono_r; lia). lia. }
  unfold binary_round. rewrite Z.add_0_r. fold d.
  rewrite fexp_normal by lia. unfold shl_align. rewrite Z.sub_0_r.
  destruct (d - 53) as [|k|k] eqn:Hk; try lia.
  - exists px, 0. rewrite binary_round_aux_canonical by (fold d; lia).
    split; [reflexivity|]. split; [fold d; lia|]. split; [reflexivity|].
    change (2 ^ (- 0)) with 1. lia.
  - exists (Pos.iter xO px k), (Z.neg k).
    assert (Hdig : Z.pos (digits2_pos (Pos.iter xO px k)) = 53).
    { rewrite digits2_pos_iter_xO. fold d. lia. }
    rewrite binary_round_aux_canonical by lia.
    split; [reflexivity|]. split; [exact Hdig|]. split; [reflexivity|].
    rewrite pos_iter_xO_value. reflexivity.
Qed.

(** The location computed from a remainder. *)
Lemma new_location_locates D q r :
  0 < D -> 0 <= q -> 0 <= r < D ->
  locates (q * D + r) D q (new_location D r).
Proof.
  intros HD Hq Hr. unfold locates.
  split; [lia|]. split; [lia|]. split; [lia|].
  unfold new_location, new_location_even, new_location_odd.
  destruct (Z.even D) eqn:Hev; destruct (Z.eqb_spec r 0) as [->|Hr0].
  - lia.
  - split; [lia|]. f_equal. lia.
  - lia.
  - split; [lia|].
    replace (2 * (q * D + r - q * D)) with (2 * r) by lia.
    assert (Hodd : 2 * r <> D).
    { intros E. rewrite <- E, Z.even_mul in Hev. discriminate. }
    destruct (Z.compare_spec (2 * r + 1) D);
      [apply Z.compare_lt_iff|apply Z.compare_lt_iff|apply Z.compare_gt_iff]; lia.
Qed.

(** Division of two normal numbers: the quotient is a 53-digit number
    within half a unit in the last place of the exact quotient. *)
Lemma float_div_normal sx mx ex my ey :
  Z.pos (digits2_pos mx) = 53 -> Z.pos (digits2_pos my) = 53 ->
  -900 <= ex - ey <= 900 ->
  exists mq k,
    Float.div (S754_finite sx mx ex) (S754_finite false my ey)
      = S754_finite sx mq (ex - ey - 53 + k) /\
    0 <= k <= 2 /\
    2 ^ 52 <= Z.pos mq < 2 ^ 53 /\
    - (2 ^ k * Z.pos my) <= 2 * (Z.pos mq * 2 ^ k * Z.pos my - Z.pos mx * 2 ^ 53)
      <= 2 ^ k * Z.pos my.
Proof.
  intros Hdx Hdy He.
  pose proof (digits2_pos_bounds mx) as Hbx. rewrite Hdx in Hbx.
  pose proof (digits2_pos_bounds my) as Hby. rewrite Hdy in Hby.
  change (53 - 1) with 52 in *.
  unfold Float.div, SFdiv, SFdiv_core_binary. cbn [Zdigits2].
  rewrite Hdx, Hdy.
  replace (53 + ex - (53 + ey)) with (ex - ey) by lia.
  rewrite fexp_normal by lia.
  rewrite Z.min_l by lia.
  replace (ex - ey - (ex - ey - 53)) with 53 by lia.
  rewrite Z.shiftl_mul_pow2 by lia.
  pose proof (Z_div_mod (Z.pos mx * 2 ^ 53) (Z.pos my) ltac:(lia)) as Hdm.
  destruct (Z.div_eucl (Z.pos mx * 2 ^ 53) (Z.pos my)) as [Q r].
  destruct Hdm as [HQ Hr].
  assert (HQb : 2 ^ 52 <= Q < 2 ^ 54).
  { split.
    - assert (2 ^ 52 * Z.pos my < (Q + 1) * Z.pos my) by nia. nia.
    - assert (Q * Z.pos my < 2 ^ 54 * Z.pos my) by nia. nia. }
  destruct Q as [|pq|pq]; try lia.
  assert (Hdq : 53 <= Z.pos (digits2_pos pq) <= 54).
  { pose proof (digits2_pos_bounds pq) as Hb.
    set (d := Z.pos (digits2_pos pq)) in *. split.
    - destruct (Z.le_gt_cases 53 d) as [?|Hlt]; [assumption|exfalso].
      assert (2 ^ d <= 2 ^ 52) by (apply Z.pow_le_mono_r; lia). lia.
    - destruct (Z.le_gt_cases d 54) as [?|Hgt]; [assumption|exfalso].
      assert (2 ^ 54 <= 2 ^ (d - 1)) by (apply Z.pow_le_mono_r; lia). lia. }
  assert (Hloc : locates (Z.pos mx * 2 ^ 53) (Z.pos my) (Z.pos pq)
                   (new_location (Z.pos my) r)).
  { rewrite HQ. replace (Z.pos my * Z.pos pq + r) with (Z.pos pq * Z.pos my + r) by ring.
    apply new_location_locates; lia. }
  destruct (binary_round_aux_normal (xorb sx false) pq (ex - ey - 53)
              (new_location (Z.pos my) r) _ _ Hloc)
    as (mq & k & Hres & Hk & Hmq & Herr); [lia|lia|lia|].
  rewrite xorb_false_r in Hres |- *.
  exists mq, k. split; [exact Hres|]. split; [lia|]. split; [exact Hmq|exact Herr].
Qed.

(** Multiplication of two normal numbers: the product is a 53-digit
    number within half a unit in the last place of the exact product. *)
Lemma float_mul_normal sx mx ex my ey :
  2 ^ 52 <= Z.pos mx < 2 ^ 53 -> 2 ^ 52 <= Z.pos my < 2 ^ 53 ->
  -900 <= ex + ey <= 900 ->
  exists mp n,
    Float.mul (S754_finite sx mx ex) (S754_finite false my ey)
      = S754_finite sx mp (ex + ey + n) /\
    52 <= n <= 54 /\
    2 ^ 52 <= Z.pos mp < 2 ^ 53 /\
    - 2 ^ n <= 2 * (Z.pos mp * 2 ^ n - Z.pos mx * Z.pos my) <= 2 ^ n.
Proof.
  intros Hbx Hby He.
  unfold Float.mul, SFmul.
  assert (HP : 2 ^ 104 <= Z.pos (mx * my) < 2 ^ 106).
  { rewrite Pos2Z.inj_mul.
    change (2 ^ 104) with (2 ^ 52 * 2 ^ 52). change (2 ^ 106) with (2 ^ 53 * 2 ^ 53).
    nia. }
  assert (Hd : 105 <= Z.pos (digits2_pos (mx * my)) <= 106).
  { pose proof (digits2_pos_bounds (mx * my)) as Hb.
    set (d := Z.pos (digits2_pos (mx * my))) in *. split.
    - destruct (Z.le_gt_cases 105 d) as [?|Hlt]; [assumption|exfalso].
      assert (2 ^ d <= 2 ^ 104) by (apply Z.pow_le_mono_r; lia). lia.
    - destruct (Z.le_gt_cases d 106) as [?|Hgt]; [assumption|exfalso].
      assert (2 ^ 106 <= 2 ^ (d - 1)) by (apply Z.pow_le_mono_r; lia). lia. }
  assert (Hloc : locates (Z.pos (mx * my)) 1 (Z.pos (mx * my)) loc_Exact).
  { unfold locates. lia. }
  destruct (binary_round_aux_normal (xorb sx false) (mx * my) (ex + ey) loc_Exact _ _ Hloc)
    as (mp & n & Hres & Hn & Hmp & Herr); [lia|lia|lia|].
  rewrite xorb_false_r in Hres |- *.
  exists mp, n. split; [exact Hres|]. split; [lia|]. split; [exact Hmp|].
  rewrite !Z.mul_1_r, Pos2Z.inj_mul in Herr. exact Herr.
Qed.

(** A valid scale factor between 0.1 and 16.0 is a normal number with an
    exponent between -56 and -48. *)
Lemma scale_in_range_normal s :
  Float.valid s = true ->
  Float.leb Float.f0_1 s = true -> Float.leb s Float.f16 = true ->
  exists ms es,
    s = S754_finite false ms es /\
    Z.pos (digits2_pos ms) = 53 /\ -56 <= es <= -48.
Proof.
  intros Hv H01 H16.
  destruct s as [sz|sz| |sz ms es]; try (destruct sz); try discriminate H01;
    try discriminate H16.
  exists ms, es. split; [reflexivity|].
  assert (He : -56 <= es <= -48).
  { unfold Float.leb, SFleb, Float.f0_1, Float.f16 in *. cbn [SFcompare] in *.
    destruct (Z.compare_spec (-56) es); destruct (Z.compare_spec es (-48));
      try discriminate H01; try discriminate H16; lia. }
  split; [|exact He].
  unfold Float.valid, valid_binary, bounded, canonical_mantissa in Hv.
  apply andb_true_iff in Hv as [Hc _]. apply Z.eqb_eq in Hc.
  unfold fexp, emin, Float.prec, Float.emax in Hc. lia.
Qed.

(** Rounding to the nearest integer of a number that is within one unit
    of its last place of an integer [x], when that unit is small. *)
Lemma round_magnitude_near mode (m : positive) (e x : Z) :
  e <= -2 -> 0 < x ->
  -1 <= Z.pos m - x * 2 ^ (- e) <= 1 ->
  Float.round_magnitude mode m e = x.
Proof.
  intros He Hx Ht. unfold Float.round_magnitude.
  destruct (Z.leb_spec 0 e) as [?|_]; [lia|].
  assert (Hd : 4 <= 2 ^ (- e)).
  { change 4 with (2 ^ 2). apply Z.pow_le_mono_r; lia. }
  set (d := 2 ^ (- e)) in *. cbv zeta.
  assert (Hcases : Z.pos m = x * d \/ Z.pos m = x * d + 1 \/ Z.pos m = (x - 1) * d + (d - 1))
    by lia.
  destruct Hcases as [E|[E|E]]; rewrite E.
  - rewrite Z.div_mul, Z.mod_mul by lia.
    replace (2 * 0 ?= d) with Lt by (symmetry; apply Z.compare_lt_iff; lia).
    reflexivity.
  - rewrite (Z.add_comm (x * d)), Z.div_add, Z.mod_add by lia.
    rewrite Z.div_small, Z.mod_small by lia.
    replace (2 * 1 ?= d) with Lt by (symmetry; apply Z.compare_lt_iff; lia).
    lia.
  - rewrite (Z.add_comm ((x - 1) * d)), Z.div_add, Z.mod_add by lia.
    rewrite Z.div_small, Z.mod_small by lia.
    replace (2 * (d - 1) ?= d) with Gt by (symmetry; apply Z.compare_gt_iff; lia).
    lia.
Qed.

(** The round trip on one coordinate: dividing the integer [x] by the
    scale, multiplying back and rounding returns [x]. *)
Lemma coordinate_round_trip (s : float) (x : Z) :
  Float.valid s = true ->
  Float.leb Float.f0_1 s = true -> Float.leb s Float.f16 = true ->
  - 2 ^ 31 <= x < 2 ^ 31 ->
  Float.qRound (Float.mul (Float.div (Float.of_int x) s) s) = Some x.
Proof.
  intros Hv H01 H16 Hx.
  destruct (scale_in_range_normal s Hv H01 H16) as (ms & es & -> & Hds & Hes).
  pose proof (digits2_pos_bounds ms) as Hms. rewrite Hds in Hms.
  change (53 - 1) with 52 in Hms.
  assert (Hmag : forall sx (px : positive),
            Z.pos px <= 2 ^ 31 ->
            Float.to_int Float.HalfAway
              (Float.mul (Float.div (binary_round Float.prec Float.emax sx px 0)
                            (S754_finite false ms es)) (S754_finite false ms es))
            = Some (cond_Zopp sx (Z.pos px))).
  { intros sx px Hpx.
    destruct (of_int_pos sx px) as (mX & eX & -> & HdX & HeX & HmX); [lia|].
    pose proof (digits2_pos_bounds px) as Hbpx.
    set (d := Z.pos (digits2_pos px)) in *.
    assert (Hd : 1 <= d <= 32).
    { split; [unfold d; lia|].
      destruct (Z.le_gt_cases d 32) as [?|Hgt]; [assumption|exfalso].
      assert (2 ^ 32 <= 2 ^ (d - 1)) by (apply Z.pow_le_mono_r; lia). lia. }
    destruct (float_div_normal sx mX eX ms es HdX Hds) as (mq & k1 & -> & Hk1 & Hmq & HA);
      [lia|].
    destruct (float_mul_normal sx mq (eX - es - 53 + k1) ms es Hmq Hms)
      as (mp & n & -> & Hn & Hmp & HB); [lia|].
    cbn [Float.to_int]. f_equal. f_equal.
    set (e := eX - es - 53 + k1 + es + n).
    apply round_magnitude_near; [unfold e; lia|lia|].
    (* all quantities at the scale K = 2^(k1 + n) *)
    assert (HK : 2 ^ 53 * 2 ^ (- eX) = 2 ^ (- e) * (2 ^ k1 * 2 ^ n)).
    { rewrite <- !Z.pow_add_r by (unfold e; lia). f_equal. unfold e. lia. }
    assert (Hk1p : 0 < 2 ^ k1) by (apply pow2_pos; lia).
    assert (Hnp : 2 ^ 52 <= 2 ^ n) by (apply Z.pow_le_mono_r; lia).
    assert (Hk1u : 2 ^ k1 <= 2 ^ 2) by (apply Z.pow_le_mono_r; lia).
    set (K1 := 2 ^ k1) in *. set (Kn := 2 ^ n) in *.
    set (de := 2 ^ (- e)) in *.
    assert (HX : Z.pos mX * 2 ^ 53 = Z.pos px * de * (K1 * Kn)).
    { rewrite HmX. rewrite <- Z.mul_assoc, (Z.mul_comm (2 ^ (- eX))), HK. ring. }
    rewrite HX in HA.
    change (2 ^ 53) with (2 * 2 ^ 52) in Hms.
    (* 2 |mp K - px de K| <= K + K1 ms < 3 K *)
    assert (Hsum : - (3 * (K1 * Kn)) < 2 * ((Z.pos mp - Z.pos px * de) * (K1 * Kn))
                   < 3 * (K1 * Kn)) by nia.
    assert (0 < K1 * Kn) by nia.
    nia. }
  unfold Float.qRound, Float.of_int, binary_normalize.
  destruct x as [|px|px].
  - reflexivity.
  - rewrite Hmag by lia. cbn [cond_Zopp].
    replace (- 2 ^ 31 <=? Z.pos px) with true by (symmetry; apply Z.leb_le; lia).
    replace (Z.pos px <? 2 ^ 31) with true by (symmetry; apply Z.ltb_lt; lia).
    reflexivity.
  - rewrite Hmag by lia. cbn [cond_Zopp].
    change (- Z.pos px) with (Z.neg px).
    replace (- 2 ^ 31 <=? Z.neg px) with true by (symmetry; apply Z.leb_le; lia).
    replace (Z.neg px <? 2 ^ 31) with true by (symmetry; apply Z.ltb_lt; lia).
    reflexivity.
Qed.

(** C7.  The round trip through image space returns the screen point.
    For every scale factor that is a binary64 number within [0.1, 16.0]
    and every screen point with integer coordinates in the range of a C
    [int], dividing by the scale ([_to_image_coords]), multiplying back
    and rounding to integer coordinates ([_to_widget_coords]) yields the
    point itself: the error of the two binary64 operations stays within
    one unit in the last place, far below the half unit the rounding
    absorbs. *)
Theorem widget_coords_round_trip (c : Canvas) (p : QPoint) :
  Float.valid (scale_factor c) = true ->
  Float.leb Float.f0_1 (scale_factor c) = true ->
  Float.leb (scale_factor c) Float.f16 = true ->
  - 2 ^ 31 <= pt_x p < 2 ^ 31 ->
  - 2 ^ 31 <= pt_y p < 2 ^ 31 ->
  _to_widget_coords c (_to_image_coords c (QPointF_of_QPoint p)) = Some p.
Proof.
  intros Hv H01 H16 Hx Hy.
  unfold _to_widget_coords, _to_image_coords, QPointF_toPoint, QPointF_mul,
    QPointF_div, QPointF_of_QPoint.
  cbn [ptf_x ptf_y].
  rewrite (coordinate_round_trip _ _ Hv H01 H16 Hx).
  rewrite (coordinate_round_trip _ _ Hv H01 H16 Hy).
  destruct p; reflexivity.
Qed.

Lemma widget_coords_round_trip_witness :
  Float.valid (scale_factor zoomed_out_canvas) = true /\
  Float.leb Float.f0_1 (scale_factor zoomed_out_canvas) = true /\
  Float.leb (scale_factor zoomed_out_canvas) Float.f16 = true /\
  - 2 ^ 31 <= 10 < 2 ^ 31 /\
  - 2 ^ 31 <= -733 < 2 ^ 31 /\
  _to_widget_coords zoomed_out_canvas
    (_to_image_coords zoomed_out_canvas (QPointF_of_QPoint (mkQPoint 10 (-733))))
    = Some (mkQPoint 10 (-733)).
Proof.
  split; [reflexivity|]. split; [reflexivity|]. split; [reflexivity|].
  split; [lia|]. split; [lia|].
  exact (widget_coords_round_trip zoomed_out_canvas (mkQPoint 10 (-733))
           eq_refl eq_refl eq_refl ltac:(cbn [pt_x]; lia) ltac:(cbn [pt_y]; lia)).
Defined.

(* ================================================================== *)
(** * More on undo and redo *)

Lemma can_undo_snoc c :
  can_undo c = true -> exists b l e, undo_stack c = b :: l ++ [e].
Proof.
  unfold can_undo. intros H. apply Nat.ltb_lt in H.
  destruct (undo_stack c) as [|b t]; [simpl in H; lia|].
  destruct t as [|x t] using rev_ind; [simpl in H; lia|].
  exists b, t, x. reflexivity.
Qed.

Lemma can_redo_snoc c :
  can_redo c = true -> exists r n, redo_stack c = r ++ [n].
Proof.
  unfold can_redo. intros H. apply Nat.ltb_lt in H.
  destruct (redo_stack c) as [|x t] using rev_ind; [simpl in H; lia|].
  exists t, x. reflexivity.
Qed.

(** X1: a redo right after an undo brings back the buffer, its recorded
    size and both stacks, and leaves the tool settings and the scale as
    they were; the two steps have each sent one [history_changed].
    (Nothing is said of the scroll bars, which follow the size of the
    widget.) *)
Theorem redo_after_undo (c : Canvas) :
  can_undo c = true ->
  (length (undo_stack c) <= MAX_UNDO_STATES)%nat ->
  (length (redo_stack c) < MAX_UNDO_STATES)%nat ->
  document (redo (undo c)) = document c /\
  tool_state (redo (undo c)) = tool_state c /\
  scale_factor (redo (undo c)) = scale_factor c /\
  emitted (redo (undo c)) = emitted c ++ [history_changed; history_changed].
Proof.
  intros Hcan Hu Hr.
  destruct (can_undo_snoc c Hcan) as (b & l & e & Hs).
  unfold undo. rewrite Hcan. cbn [negb set_redo_stack undo_stack].
  rewrite Hs in Hu |- *. change (b :: l ++ [e]) with ((b :: l) ++ [e]).
  rewrite deque_pop_snoc. destruct e as [prev_image prev_size].
  rewrite (deque_append_room _ _ _ Hr).
  unfold redo, can_redo.
  cbn [redo_stack set_redo_stack set_undo_stack set_image set__image_size emit
       set_emitted undo_stack image _image_size emitted].
  replace (0 <? length (redo_stack c ++ [(QImage_copy (image c), _image_size c)]))%nat
    with true by (symmetry; apply Nat.ltb_lt; rewrite length_app; simpl; lia).
  cbn [negb]. rewrite deque_pop_snoc.
  rewrite deque_append_room
    by (simpl in Hu |- *; rewrite length_app in Hu; simpl in Hu; unfold MAX_UNDO_STATES in *; lia).
  unfold document, live, tool_state. fields. unfold QImage_copy.
  split; [rewrite Hs; reflexivity|]. split; [reflexivity|]. split; [reflexivity|].
  rewrite <- app_assoc. reflexivity.
Qed.

Lemma redo_after_undo_witness :
  can_undo widened_canvas = true /\
  document (redo (undo widened_canvas)) = document widened_canvas.
Proof.
  split; [vm_compute; reflexivity|].
  apply redo_after_undo; vm_compute; first [reflexivity | lia].
Defined.

(** X2: an undo right after a redo brings back the buffer, its recorded
    size and both stacks, when the undo stack held an entry and had
    room for one more; the tool settings and the scale are as they
    were.  (Nothing is said of the scroll bars.) *)
Theorem undo_after_redo (c : Canvas) :
  can_redo c = true ->
  undo_stack c <> [] ->
  (length (undo_stack c) < MAX_UNDO_STATES)%nat ->
  (length (redo_stack c) <= MAX_UNDO_STATES)%nat ->
  document (undo (redo c)) = document c /\
  tool_state (undo (redo c)) = tool_state c /\
  scale_factor (undo (redo c)) = scale_factor c /\
  emitted (undo (redo c)) = emitted c ++ [history_changed; history_changed].
Proof.
  intros Hcan Hne Hu Hr.
  destruct (can_redo_snoc c Hcan) as (r & n & Hs).
  unfold redo. rewrite Hcan. cbn [negb set_undo_stack redo_stack].
  rewrite Hs in Hr |- *. rewrite deque_pop_snoc. destruct n as [next_image next_size].
  rewrite (deque_append_room _ _ _ Hu).
  unfold undo, can_undo.
  cbn [redo_stack set_redo_stack set_undo_stack set_image set__image_size emit
       set_emitted undo_stack image _image_size emitted].
  replace (1 <? length (undo_stack c ++ [(QImage_copy (image c), _image_size c)]))%nat
    with true
    by (symmetry; apply Nat.ltb_lt; rewrite length_app; simpl;
        destruct (undo_stack c); [congruence | simpl; lia]).
  cbn [negb]. rewrite deque_pop_snoc.
  rewrite deque_append_room
    by (rewrite length_app in Hr; simpl in Hr; unfold MAX_UNDO_STATES in *; lia).
  unfold document, live, tool_state. fields. unfold QImage_copy.
  split; [rewrite Hs; reflexivity|]. split; [reflexivity|]. split; [reflexivity|].
  rewrite <- app_assoc. reflexivity.
Qed.

Lemma undo_after_redo_witness :
  can_redo undone_canvas = true /\
  document (undo (redo undone_canvas)) = document undone_canvas.
Proof.
  split; [vm_compute; reflexivity|].
  apply undo_after_redo; vm_compute; first [reflexivity | lia | discriminate].
Defined.

Lemma deque_append_snoc {A} (maxlen : nat) (d : list A) (x : A) :
  (1 < maxlen)%nat -> d <> [] ->
  exists b l, Deque.append maxlen d x = b :: l ++ [x].
Proof.
  intros Hmax Hne. unfold Deque.append. rewrite length_app. simpl.
  rewrite drop_app_le by lia.
  destruct (drop (length d + 1 - maxlen) d) as [|b l] eqn:E.
  - apply (f_equal length) in E. rewrite length_drop in E. simpl in E.
    destruct d; [congruence | simpl in E; lia].
  - exists b, l. reflexivity.
Qed.

(** X3: one undo after a clear or a resize to another size gives back
    the buffer as it was before, however long the history is, as long
    as it held an entry; on an empty history the edit cannot be undone. *)
Theorem undo_reverts_edit (c : Canvas) (e : edit) :
  apply_edit c e <> c ->
  (undo_stack c <> [] -> live (undo (apply_edit c e)) = live c) /\
  (undo_stack c = [] -> undo (apply_edit c e) = apply_edit c e).
Proof.
  intros Hchg.
  destruct (apply_edit_history c e) as [H|H]; [congruence|].
  split; intros Hs.
  - destruct (deque_append_snoc MAX_UNDO_STATES (undo_stack c) (live c)) as (b & l & E);
      [unfold MAX_UNDO_STATES; lia | exact Hs |].
    rewrite E in H. apply (undo_top _ _ _ _ H).
  - rewrite Hs in H. apply (undo_floor _ (live c)). exact H.
Qed.

Lemma undo_reverts_edit_witness :
  apply_edit red_canvas (edit_resize 2 1) <> red_canvas /\
  undo_stack red_canvas <> [] /\
  live (undo (apply_edit red_canvas (edit_resize 2 1))) = live red_canvas.
Proof.
  assert (H : apply_edit red_canvas (edit_resize 2 1) <> red_canvas).
  { intros E. apply (f_equal _image_size) in E. vm_compute in E. discriminate E. }
  split; [exact H|]. split; [vm_compute; discriminate|].
  apply (undo_reverts_edit red_canvas (edit_resize 2 1) H). vm_compute. discriminate.
Defined.

Lemma save_state_redo_stack c : redo_stack (_save_state c false) = [].
Proof. reflexivity. Qed.

Lemma press_redo_stack dp c ev c' :
  ev_button ev = LeftButton ->
  mousePressEvent dp c ev = Some c' -> redo_stack c' = [].
Proof.
  intros Hb H. unfold mousePressEvent in H. rewrite Hb in H.
  destruct (QPointF_toPoint _) as [p|]; [|discriminate H].
  cbn [mbind option_bind] in H.
  destruct (String.eqb (current_tool c) "bucket"); inversion H; reflexivity.
Qed.

(** X4: a new edit drops what could be redone: after a clear, a resize
    to another size, or a press of the left button, nothing can be
    redone; a loaded image starts a history of one entry, the image
    itself, with nothing to undo or redo, and a null image is ignored. *)
Theorem new_edit_drops_redo :
  (forall (c : Canvas) (e : edit),
     apply_edit c e <> c -> can_redo (apply_edit c e) = false) /\
  (forall dp (c : Canvas) (ev : QMouseEvent) (c' : Canvas),
     ev_button ev = LeftButton ->
     mousePressEvent dp c ev = Some c' -> can_redo c' = false) /\
  (forall (c : Canvas) (new_image : QImage),
     QImage_isNull new_image = false ->
     undo_stack (load_image c new_image) = [(new_image, QImage_size new_image)] /\
     live (load_image c new_image) = (new_image, QImage_size new_image) /\
     can_undo (load_image c new_image) = false /\
     can_redo (load_image c new_image) = false) /\
  (forall (c : Canvas) (new_image : QImage),
     QImage_isNull new_image = true -> load_image c new_image = c).
Proof.
  split; [|split; [|split]].
  - intros c e Hchg. unfold can_redo.
    destruct e as [|w h]; cbn [apply_edit] in *.
    + reflexivity.
    + destruct (resize_canvas_cases c w h) as [E|(_ & _ & E)]; [congruence|].
      rewrite E. reflexivity.
  - intros dp c ev c' Hb H. unfold can_redo.
    rewrite (press_redo_stack dp c ev c' Hb H). reflexivity.
  - intros c new_image Hnull. unfold load_image. rewrite Hnull.
    repeat split; reflexivity.
  - intros c new_image Hnull. unfold load_image. rewrite Hnull. reflexivity.
Qed.

Lemma new_edit_drops_redo_witness :
  apply_edit undone_canvas edit_clear <> undone_canvas /\
  can_redo undone_canvas = true /\
  can_redo (apply_edit undone_canvas edit_clear) = false.
Proof.
  assert (H : apply_edit undone_canvas edit_clear <> undone_canvas).
  { intros E. apply (f_equal redo_stack) in E. vm_compute in E. discriminate E. }
  split; [exact H|]. split; [vm_compute; reflexivity|].
  apply (proj1 new_edit_drops_redo undone_canvas edit_clear H).
Defined.

(* ================================================================== *)
(** * Mouse gestures *)

Lemma perform_all_app dp dl (l1 l2 : list action) :
  forall c,
  perform_all dp dl c (l1 ++ l2)
  = c' ← perform_all dp dl c l1; perform_all dp dl c' l2.
Proof.
  induction l1 as [|a l1 IH]; intros c; cbn [perform_all app mbind option_bind].
  - reflexivity.
  - destruct (perform dp dl c a) as [c1|]; cbn [mbind option_bind]; [apply IH | reflexivity].
Qed.

(** What holds before a run of moves and is kept by each holds after. *)
Lemma moves_preserve dp dl (I : Canvas -> Prop) :
  (forall c ev c', I c -> mouseMoveEvent dl c ev = Some c' -> I c') ->
  forall moves c c',
  I c -> perform_all dp dl c (map act_move moves) = Some c' -> I c'.
Proof.
  intros Hstep. induction moves as [|ev moves IH]; intros c c' HI H.
  - inversion H; subst. exact HI.
  - cbn [map perform_all perform] in H.
    destruct (mouseMoveEvent dl c ev) as [c1|] eqn:E; [|discriminate H].
    cbn [mbind option_bind] in H. exact (IH _ _ (Hstep _ _ _ HI E) H).
Qed.

(** A move never touches the history, the notifications, the size of
    the buffer, the tool or the scale, nor the flags of the gesture. *)
Lemma move_frame dl c ev c' :
  mouseMoveEvent dl c ev = Some c' ->
  undo_stack c' = undo_stack c /\ redo_stack c' = redo_stack c /\
  emitted c' = emitted c /\ _image_size c' = _image_size c /\
  tool_state c' = tool_state c /\ scale_factor c' = scale_factor c /\
  drawing c' = drawing c /\ panning c' = panning c.
Proof.
  unfold mouseMoveEvent, draw_line_to, tool_state. intros H.
  destruct (QPointF_toPoint _) as [p|]; [|discriminate H].
  cbn [mbind option_bind] in H. revert H. fields.
  repeat case_match; intros [= <-]; fields; repeat split; congruence.
Qed.

Lemma move_panning dl c ev c' :
  panning c = true -> mouseMoveEvent dl c ev = Some c' -> image c' = image c.
Proof.
  unfold mouseMoveEvent. intros Hp H.
  destruct (QPointF_toPoint _) as [p|]; [|discriminate H].
  cbn [mbind option_bind] in H. revert H. fields. rewrite Hp.
  intros H; inversion H; reflexivity.
Qed.

Lemma release_frame c ev c' :
  mouseReleaseEvent c ev = Some c' ->
  document c' = document c /\ emitted c' = emitted c /\
  tool_state c' = tool_state c /\ scale_factor c' = scale_factor c /\
  h_bar c' = h_bar c /\ v_bar c' = v_bar c.
Proof.
  unfold mouseReleaseEvent, document, live, tool_state. intros H.
  destruct (bool_decide (ev_button ev = RightButton) && panning c).
  - inversion H; subst. repeat split; reflexivity.
  - destruct (QPointF_toPoint _) as [p|]; [|discriminate H].
    cbn [mbind option_bind] in H. revert H. fields.
    case_match; intros [= <-]; repeat split; congruence.
Qed.

Lemma press_left_frame dp c ev c' :
  ev_button ev = LeftButton ->
  mousePressEvent dp c ev = Some c' ->
  emitted c' = emitted c ++ [history_changed] /\
  _image_size c' = _image_size c /\ tool_state c' = tool_state c /\
  scale_factor c' = scale_factor c /\ h_bar c' = h_bar c /\ v_bar c' = v_bar c.
Proof.
  intros Hb H. unfold mousePressEvent in H. rewrite Hb in H.
  destruct (QPointF_toPoint _) as [p|]; [|discriminate H].
  cbn [mbind option_bind] in H. unfold tool_state.
  destruct (String.eqb (current_tool c) "bucket") eqn:Et.
  - inversion H; subst. unfold _save_state, flood_fill. fields.
    repeat case_match; fields; repeat split; reflexivity.
  - inversion H; subst. unfold _save_state, draw_point. fields.
    repeat case_match; fields; repeat split; reflexivity.
Qed.

(** X5: a whole stroke (a press of the left button, any number of moves,
    a release) records one history entry and sends one notification,
    whatever the tool: the moves and the release record nothing. *)
Theorem stroke_records_once dp dl (c : Canvas) (press : QMouseEvent)
  (moves : list QMouseEvent) (release : QMouseEvent) (c' : Canvas) :
  ev_button press = LeftButton ->
  gesture dp dl c press moves release = Some c' ->
  length (undo_stack c') = Nat.min (length (undo_stack c) + 1) MAX_UNDO_STATES /\
  redo_stack c' = [] /\
  emitted c' = emitted c ++ [history_changed] /\
  _image_size c' = _image_size c /\
  tool_state c' = tool_state c /\
  scale_factor c' = scale_factor c.
Proof.
  intros Hb H. unfold gesture in H.
  rewrite perform_all_app in H. cbn [perform_all perform] in H.
  destruct (mousePressEvent dp c press) as [c1|] eqn:E1; [|discriminate H].
  cbn [mbind option_bind] in H. rewrite perform_all_app in H.
  destruct (perform_all dp dl c1 (map act_move moves)) as [c2|] eqn:E2; [|discriminate H].
  cbn [mbind option_bind perform_all perform] in H.
  destruct (mouseReleaseEvent c2 release) as [c3|] eqn:E3; [|discriminate H].
  cbn [mbind option_bind] in H. inversion H; subst c3; clear H.
  destruct (press_captures_result dp c press c1 Hb E1) as [_ Hlen].
  pose proof (press_redo_stack dp c press c1 Hb E1) as Hredo.
  destruct (press_left_frame dp c press c1 Hb E1) as (Hem & Hsz & Hts & Hsc & _).
  assert (HI : undo_stack c2 = undo_stack c1 /\ redo_stack c2 = redo_stack c1 /\
               emitted c2 = emitted c1 /\ _image_size c2 = _image_size c1 /\
               tool_state c2 = tool_state c1 /\ scale_factor c2 = scale_factor c1).
  { apply (moves_preserve dp dl
             (fun c2 => undo_stack c2 = undo_stack c1 /\ redo_stack c2 = redo_stack c1 /\
                        emitted c2 = emitted c1 /\ _image_size c2 = _image_size c1 /\
                        tool_state c2 = tool_state c1 /\ scale_factor c2 = scale_factor c1))
      with (moves := moves) (c := c1); [|repeat split; reflexivity|exact E2].
    intros d ev d' (I1 & I2 & I3 & I4 & I5 & I6) Hm.
    destruct (move_frame dl d ev d' Hm) as (F1 & F2 & F3 & F4 & F5 & F6 & _).
    repeat split; congruence. }
  destruct HI as (I1 & I2 & I3 & I4 & I5 & I6).
  destruct (release_frame c2 release c' E3) as (R1 & R2 & R3 & R4 & _).
  unfold document, live in R1. inversion R1 as [[Ri Rs Ru Rr]].
  repeat split; congruence.
Qed.

Lemma stroke_records_once_witness :
  ev_button press_origin = LeftButton /\
  exists c',
    gesture pixel_drawPoint pixel_drawLine red_canvas press_origin
      [press_origin; press_origin] press_origin = Some c' /\
    length (undo_stack c') = 2%nat /\
    emitted c' = emitted red_canvas ++ [history_changed].
Proof.
  split; [reflexivity|].
  destruct (gesture pixel_drawPoint pixel_drawLine red_canvas press_origin
              [press_origin; press_origin] press_origin) as [c'|] eqn:E;
    [|vm_compute in E; discriminate E].
  exists c'. split; [reflexivity|].
  destruct (stroke_records_once pixel_drawPoint pixel_drawLine red_canvas press_origin
              [press_origin; press_origin] press_origin c' eq_refl E) as (H1 & _ & H3 & _).
  split; [exact H1 | exact H3].
Defined.

(** X6: a pan (a press of the right button, any number of moves, the
    release of the right button) leaves the buffer, the history, the
    notifications, the tool and the scale as they were; only the scroll
    bars and the recorded positions move, and the pan is over at the end. *)
Theorem pan_keeps_document dp dl (c : Canvas) (press : QMouseEvent)
  (moves : list QMouseEvent) (release : QMouseEvent) (c' : Canvas) :
  ev_button press = RightButton ->
  ev_button release = RightButton ->
  gesture dp dl c press moves release = Some c' ->
  document c' = document c /\
  emitted c' = emitted c /\
  tool_state c' = tool_state c /\
  scale_factor c' = scale_factor c /\
  drawing c' = drawing c /\
  panning c' = false.
Proof.
  intros Hb Hr H. unfold gesture in H.
  rewrite perform_all_app in H. cbn [perform_all perform] in H.
  destruct (mousePressEvent dp c press) as [c1|] eqn:E1; [|discriminate H].
  cbn [mbind option_bind] in H. rewrite perform_all_app in H.
  destruct (perform_all dp dl c1 (map act_move moves)) as [c2|] eqn:E2; [|discriminate H].
  cbn [mbind option_bind perform_all perform] in H.
  destruct (mouseReleaseEvent c2 release) as [c3|] eqn:E3; [|discriminate H].
  cbn [mbind option_bind] in H. inversion H; subst c3; clear H.
  unfold mousePressEvent in E1. rewrite Hb in E1.
  destruct (QPointF_toPoint (ev_position press)) as [p|]; [|discriminate E1].
  cbn [mbind option_bind] in E1. inversion E1; subst c1; clear E1.
  set (I := fun d => panning d = true /\ document d = document c /\
                     emitted d = emitted c /\ tool_state d = tool_state c /\
                     scale_factor d = scale_factor c /\ drawing d = drawing c).
  assert (HI : I c2).
  { apply (moves_preserve dp dl I) with (moves := moves)
      (c := set_pan_start_pos p (set_panning true c)); [| |exact E2].
    - intros d ev d' (I1 & I2 & I3 & I4 & I5 & I6) Hm.
      destruct (move_frame dl d ev d' Hm) as (F1 & F2 & F3 & F4 & F5 & F6 & F7 & F8).
      pose proof (move_panning dl d ev d' I1 Hm) as Fi.
      unfold I, document, live in *. inversion I2.
      repeat split; congruence.
    - unfold I, document, live, tool_state. fields. repeat split; reflexivity. }
  destruct HI as (I1 & I2 & I3 & I4 & I5 & I6).
  unfold mouseReleaseEvent in E3. rewrite Hr, I1 in E3.
  rewrite bool_decide_eq_true_2 in E3 by reflexivity.
  cbn [andb] in E3. inversion E3; subst c'; clear E3.
  unfold document, live, tool_state in *. fields.
  inversion I2. inversion I4. repeat split; congruence.
Qed.

Lemma pan_keeps_document_witness :
  ev_button press_right = RightButton /\
  exists c',
    gesture pixel_drawPoint pixel_drawLine red_canvas press_right
      [press_origin; press_right] press_right = Some c' /\
    document c' = document red_canvas /\
    panning c' = false.
Proof.
  split; [reflexivity|].
  destruct (gesture pixel_drawPoint pixel_drawLine red_canvas press_right
              [press_origin; press_right] press_right) as [c'|] eqn:E;
    [|vm_compute in E; discriminate E].
  exists c'. split; [reflexivity|].
  destruct (pan_keeps_document pixel_drawPoint pixel_drawLine red_canvas press_right
              [press_origin; press_right] press_right c' eq_refl eq_refl E)
    as (H1 & _ & _ & _ & _ & H6).
  split; [exact H1 | exact H6].
Defined.

(** X7: a move paints only during a stroke: while panning, with no
    stroke begun, with the left button not held, or with a tool other
    than the brush and the eraser, the buffer is not touched; and no move
    ever touches the history or sends a notification. *)
Theorem move_paints_only_in_stroke dl (c : Canvas) (ev : QMouseEvent) (c' : Canvas) :
  mouseMoveEvent dl c ev = Some c' ->
  (undo_stack c' = undo_stack c /\ redo_stack c' = redo_stack c /\
   emitted c' = emitted c /\ _image_size c' = _image_size c) /\
  (panning c = true \/ drawing c = false \/ LeftButton ∉ ev_buttons ev \/
   has_pen c = false ->
   image c' = image c).
Proof.
  intros H. split.
  - destruct (move_frame dl c ev c' H) as (F1 & F2 & F3 & F4 & _).
    repeat split; assumption.
  - intros Hcases. unfold mouseMoveEvent in H.
    destruct (QPointF_toPoint _) as [p|]; [|discriminate H].
    cbn [mbind option_bind] in H. revert H. fields.
    destruct (panning c) eqn:Ep; [intros [= <-]; reflexivity|].
    destruct (bool_decide (LeftButton ∈ ev_buttons ev)) eqn:Eb;
      cbn [andb]; [|intros [= <-]; reflexivity].
    destruct (drawing c) eqn:Ed; [|intros [= <-]; reflexivity].
    unfold has_pen in Hcases.
    destruct (String.eqb (current_tool c) "brush" || String.eqb (current_tool c) "eraser")
      eqn:Et; [|intros [= <-]; reflexivity].
    apply bool_decide_eq_true_1 in Eb.
    destruct Hcases as [?|[?|[?|?]]]; try discriminate; contradiction.
Qed.

Lemma move_paints_only_in_stroke_witness :
  exists c',
    mouseMoveEvent pixel_drawLine red_canvas press_origin = Some c' /\
    drawing red_canvas = false /\
    image c' = image red_canvas.
Proof.
  destruct (mouseMoveEvent pixel_drawLine red_canvas press_origin) as [c'|] eqn:E;
    [|vm_compute in E; discriminate E].
  exists c'. split; [reflexivity|]. split; [reflexivity|].
  apply (proj2 (move_paints_only_in_stroke pixel_drawLine red_canvas press_origin c' E)).
  right; left; reflexivity.
Defined.

(* ================================================================== *)
(** * More on the flood fill *)

(** What a fill from a seed inside a well-formed image does. *)
Lemma flood_fill_spec (c : Canvas) (start : QPoint) (erase_mode : bool) (fill_px : Pixel) :
  QImage_wf (image c) ->
  QImage_contains (image c) (pt_x start) (pt_y start) = true ->
  (if erase_mode then QColor_rgba (ARGB 0 0 0 0) else current_color c)
    = QColor_rgba fill_px ->
  let c' := flood_fill c start erase_mode in
  c' = set_image (image c') c /\
  QImage_wf (image c') /\
  image_width (image c') = image_width (image c) /\
  image_height (image c') = image_height (image c) /\
  forall x y,
    QImage_contains (image c) x y = true ->
    (connected (image c) (pt_x start, pt_y start) (x, y) ->
     pixelColor (image c') x y = QColor_rgba fill_px) /\
    (~ connected (image c) (pt_x start, pt_y start) (x, y) ->
     pixelColor (image c') x y = pixelColor (image c) x y).
Proof.
  intros Hwf Hin Hfill c'. subst c'.
  unfold flood_fill. rewrite Hin, Hfill. cbn [negb].
  assert (Hid : forall c0 : Canvas, c0 = set_image (image c0) c0) by (intros []; reflexivity).
  destruct (decide (pixelColor (image c) (pt_x start) (pt_y start) = QColor_rgba fill_px))
    as [Hsame|Hdiff].
  - split; [apply Hid|]. split; [exact Hwf|]. split; [reflexivity|]. split; [reflexivity|].
    intros x y Hxy. split; [|reflexivity].
    intros Hconn. rewrite <- Hsame. apply (connected_color _ _ _ Hconn).
  - pose proof (flood_inv_start (image c) start (QColor_rgba fill_px) Hwf Hin) as Hinv.
    destruct (flood_run_total (image c) (pt_x start, pt_y start) fill_px
                (flood_bound (image c)) [] _ Hinv) as (s' & popped' & Hrun' & Hend' & Hinv').
    { simpl. lia. }
    simpl in Hrun'. rewrite Hrun'. clear Hrun'.
    split; [reflexivity|]. cbn [image set_image].
    split; [apply (inv_wf _ _ _ _ _ Hinv')|].
    split; [apply (inv_width _ _ _ _ _ Hinv')|].
    split; [apply (inv_height _ _ _ _ _ Hinv')|].
    intros x y Hxy.
    apply (flood_inv_end_pixels _ _ _ _ _ x y Hinv' Hend' Hxy).
Qed.

(** X8: filling twice from the same seed is filling once. *)
Theorem flood_fill_idempotent (c : Canvas) (start : QPoint) (erase_mode : bool) :
  QImage_wf (image c) ->
  QColor_isValid (if erase_mode then QColor_rgba (ARGB 0 0 0 0) else current_color c)
    = true ->
  flood_fill (flood_fill c start erase_mode) start erase_mode
  = flood_fill c start erase_mode.
Proof.
  intros Hwf Hvalid.
  destruct (QImage_contains (image c) (pt_x start) (pt_y start)) eqn:Hin.
  2:{ assert (E : flood_fill c start erase_mode = c)
        by (unfold flood_fill; rewrite Hin; reflexivity).
      rewrite E. exact E. }
  destruct (if erase_mode then QColor_rgba (ARGB 0 0 0 0) else current_color c)
    as [|fill_px] eqn:Hfill; [discriminate Hvalid|].
  destruct (flood_fill_spec c start erase_mode fill_px Hwf Hin Hfill)
    as (Hc' & Hwf' & Hw & Hh & Hpix).
  set (c' := flood_fill c start erase_mode) in *.
  assert (Hin' : QImage_contains (image c') (pt_x start) (pt_y start) = true).
  { apply QImage_contains_spec. apply QImage_contains_spec in Hin. lia. }
  assert (Hseed : pixelColor (image c') (pt_x start) (pt_y start) = QColor_rgba fill_px).
  { apply (Hpix _ _ Hin). apply connected_seed. exact Hin. }
  assert (Hcol : current_color c' = current_color c) by (rewrite Hc'; reflexivity).
  unfold flood_fill at 1. rewrite Hin', Hseed, Hcol, Hfill. cbn [negb].
  rewrite decide_True by reflexivity. reflexivity.
Qed.

Lemma flood_fill_idempotent_witness :
  QImage_wf (image square_canvas) /\
  flood_fill (flood_fill square_canvas (mkQPoint 5 5) false) (mkQPoint 5 5) false
  = flood_fill square_canvas (mkQPoint 5 5) false.
Proof.
  split; [apply square_image_wf|].
  apply flood_fill_idempotent; [apply square_image_wf | reflexivity].
Defined.

Lemma connected_in_region (img : QImage) (seed : Z * Z) (region : Z * Z -> Prop) :
  region seed ->
  (forall p q, region p -> adjacent4 p q ->
     QImage_contains img q.1 q.2 = true ->
     pixelColor img q.1 q.2 = pixelColor img seed.1 seed.2 -> region q) ->
  forall p, connected img seed p -> region p.
Proof.
  intros Hseed Hclosed p Hconn. induction Hconn as [|p q _ IH Hadj Hq Hcol].
  - exact Hseed.
  - exact (Hclosed p q IH Hadj Hq Hcol).
Qed.

(** X9: a fill stays inside its enclosure: when a set of pixels holds
    the seed and every pixel of the seed's colour next to one of its
    members, no pixel outside the set is repainted. *)
Theorem flood_fill_stays_inside (c : Canvas) (start : QPoint) (erase_mode : bool)
  (fill_px : Pixel) (region : Z * Z -> Prop) :
  QImage_wf (image c) ->
  QImage_contains (image c) (pt_x start) (pt_y start) = true ->
  (if erase_mode then QColor_rgba (ARGB 0 0 0 0) else current_color c)
    = QColor_rgba fill_px ->
  region (pt_x start, pt_y start) ->
  (forall p q, region p -> adjacent4 p q ->
     QImage_contains (image c) q.1 q.2 = true ->
     pixelColor (image c) q.1 q.2 = pixelColor (image c) (pt_x start) (pt_y start) ->
     region q) ->
  forall x y,
    QImage_contains (image c) x y = true ->
    ~ region (x, y) ->
    pixelColor (image (flood_fill c start erase_mode)) x y = pixelColor (image c) x y.
Proof.
  intros Hwf Hin Hfill Hseed Hclosed x y Hxy Hout.
  destruct (flood_fill_spec c start erase_mode fill_px Hwf Hin Hfill)
    as (_ & _ & _ & _ & Hpix).
  apply (Hpix x y Hxy). intros Hconn. apply Hout.
  exact (connected_in_region (image c) (pt_x start, pt_y start) region Hseed Hclosed _ Hconn).
Qed.

Lemma connected_rect (img : QImage) (sx sy x0 y0 x1 y1 : Z) :
  0 <= x0 -> x1 <= image_width img -> 0 <= y0 -> y1 <= image_height img ->
  in_rect x0 y0 x1 y1 (sx, sy) ->
  (forall p, in_rect x0 y0 x1 y1 p -> pixelColor img p.1 p.2 = pixelColor img sx sy) ->
  forall (n : nat) x y,
    in_rect x0 y0 x1 y1 (x, y) ->
    Z.abs (x - sx) + Z.abs (y - sy) = Z.of_nat n ->
    connected img (sx, sy) (x, y).
Proof.
  intros Hx0 Hx1 Hy0 Hy1 Hs Hcol.
  assert (Hin : forall p, in_rect x0 y0 x1 y1 p -> QImage_contains img p.1 p.2 = true).
  { intros p [Hp1 Hp2]. apply QImage_contains_spec. lia. }
  unfold in_rect in Hs. cbn [fst snd] in Hs.
  induction n as [|n IH]; intros x y Hxy Hd.
  - assert (x = sx /\ y = sy) as [-> ->] by lia.
    apply connected_seed. apply (Hin (sx, sy)). exact Hs.
  - pose proof Hxy as Hxy'. unfold in_rect in Hxy'. cbn [fst snd] in Hxy'.
    destruct (Z.eq_dec x sx) as [Ex|Nx].
    + (* same column: one step along the row axis *)
      set (y' := if y <? sy then y + 1 else y - 1).
      assert (Hy' : (y' = y + 1 \/ y' = y - 1) /\ y0 <= y' < y1 /\
                    Z.abs (y' - sy) = Z.abs (y - sy) - 1).
      { unfold y'. destruct (Z.ltb_spec y sy); lia. }
      apply (connected_step img (sx, sy) (x, y') (x, y)).
      * apply IH; [unfold in_rect; cbn [fst snd]; lia | lia].
      * left. cbn [fst snd]. lia.
      * apply (Hin (x, y)). exact Hxy.
      * apply (Hcol (x, y)). exact Hxy.
    + set (x' := if x <? sx then x + 1 else x - 1).
      assert (Hx' : (x' = x + 1 \/ x' = x - 1) /\ x0 <= x' < x1 /\
                    Z.abs (x' - sx) = Z.abs (x - sx) - 1).
      { unfold x'. destruct (Z.ltb_spec x sx); lia. }
      apply (connected_step img (sx, sy) (x', y) (x, y)).
      * apply IH; [unfold in_rect; cbn [fst snd]; lia | lia].
      * right. cbn [fst snd]. lia.
      * apply (Hin (x, y)). exact Hxy.
      * apply (Hcol (x, y)). exact Hxy.
Qed.

(** X10: a rectangle of one colour that holds the seed is repainted
    entirely; so is, in particular, a canvas of one colour. *)
Theorem flood_fill_fills_rectangle (c : Canvas) (start : QPoint) (erase_mode : bool)
  (fill_px : Pixel) (x0 y0 x1 y1 : Z) :
  QImage_wf (image c) ->
  (if erase_mode then QColor_rgba (ARGB 0 0 0 0) else current_color c)
    = QColor_rgba fill_px ->
  0 <= x0 -> x1 <= image_width (image c) ->
  0 <= y0 -> y1 <= image_height (image c) ->
  in_rect x0 y0 x1 y1 (pt_x start, pt_y start) ->
  (forall p, in_rect x0 y0 x1 y1 p ->
     pixelColor (image c) p.1 p.2 = pixelColor (image c) (pt_x start) (pt_y start)) ->
  forall x y,
    in_rect x0 y0 x1 y1 (x, y) ->
    pixelColor (image (flood_fill c start erase_mode)) x y = QColor_rgba fill_px.
Proof.
  intros Hwf Hfill Hx0 Hx1 Hy0 Hy1 Hs Hcol x y Hxy.
  assert (Hin : QImage_contains (image c) (pt_x start) (pt_y start) = true).
  { apply QImage_contains_spec. unfold in_rect in Hs. cbn [fst snd] in Hs. lia. }
  destruct (flood_fill_spec c start erase_mode fill_px Hwf Hin Hfill)
    as (_ & _ & _ & _ & Hpix).
  assert (Hxy' : QImage_contains (image c) x y = true).
  { apply QImage_contains_spec. unfold in_rect in Hxy. cbn [fst snd] in Hxy. lia. }
  apply (Hpix x y Hxy').
  apply (connected_rect (image c) (pt_x start) (pt_y start) x0 y0 x1 y1
           Hx0 Hx1 Hy0 Hy1 Hs Hcol
           (Z.to_nat (Z.abs (x - pt_x start) + Z.abs (y - pt_y start))) x y Hxy).
  lia.
Qed.

Lemma flood_fill_fills_rectangle_witness :
  QImage_wf (image white_bucket_canvas) /\
  current_color white_bucket_canvas = QColor_rgba (ARGB 0 0 0 255) /\
  in_rect 0 0 2 1 (0, 0) /\
  pixelColor (image (flood_fill white_bucket_canvas (mkQPoint 0 0) false)) 1 0
    = QColor_rgba (ARGB 0 0 0 255).
Proof.
  assert (Hwf : QImage_wf (image white_bucket_canvas)) by (vm_compute; repeat split; discriminate).
  assert (Hs : in_rect 0 0 2 1 (0, 0)) by (unfold in_rect; cbn [fst snd]; lia).
  split; [exact Hwf|]. split; [reflexivity|]. split; [exact Hs|].
  apply (flood_fill_fills_rectangle white_bucket_canvas (mkQPoint 0 0) false
           (ARGB 0 0 0 255) 0 0 2 1 Hwf eq_refl); try exact Hs.
  - lia.
  - vm_compute; discriminate.
  - lia.
  - vm_compute; discriminate.
  - intros [px py] [H1 H2]. cbn [fst snd] in *.
    assert (py = 0) as -> by lia.
    assert (px = 0 \/ px = 1) as [-> | ->] by lia; vm_compute; reflexivity.
  - unfold in_rect; cbn [fst snd]; lia.
Defined.

Lemma flood_fill_stays_inside_witness :
  QImage_wf (image barrier_canvas) /\
  QImage_contains (image barrier_canvas) 0 0 = true /\
  current_color barrier_canvas = Qt_red /\
  pixelColor (image (flood_fill barrier_canvas (mkQPoint 0 0) false)) 2 0
    = pixelColor (image barrier_canvas) 2 0.
Proof.
  assert (Hwf : QImage_wf (image barrier_canvas)) by (vm_compute; repeat split; discriminate).
  split; [exact Hwf|]. split; [reflexivity|]. split; [reflexivity|].
  apply (flood_fill_stays_inside barrier_canvas (mkQPoint 0 0) false (ARGB 255 0 0 255)
           (fun p => p = (0, 0)) Hwf eq_refl eq_refl eq_refl).
  - intros p [qx qy] -> Hadj Hq Hcol. cbn [fst snd pt_x pt_y] in *.
    apply QImage_contains_spec in Hq.
    change (image_width (image barrier_canvas)) with 3 in Hq.
    change (image_height (image barrier_canvas)) with 1 in Hq.
    unfold adjacent4 in Hadj. cbn [fst snd] in Hadj.
    assert (qx = 1 /\ qy = 0) as [-> ->] by lia.
    vm_compute in Hcol. discriminate Hcol.
  - reflexivity.
  - intros E. discriminate E.
Defined.

(* ================================================================== *)
(** * What each action leaves alone *)

Lemma zoom_at_point_frame c p factor c' :
  _zoom_at_point c p factor = Some c' ->
  document c' = document c /\ tool_state c' = tool_state c /\
  emitted c' = emitted c /\ drawing c' = drawing c /\ panning c' = panning c.
Proof.
  unfold _zoom_at_point. intros H.
  destruct (Float.ltb _ _); [inversion H; subst; repeat split; reflexivity|].
  revert H. fields.
  destruct (Float.py_round (ptf_x _)) as [dx|]; [|cbn [mbind option_bind]; discriminate].
  cbn [mbind option_bind].
  destruct (Float.py_round (ptf_y _)) as [dy|]; [|cbn [mbind option_bind]; discriminate].
  cbn [mbind option_bind]. intros [= <-]. repeat split; reflexivity.
Qed.

Lemma reset_zoom_frame c view c' :
  reset_zoom c view = Some c' ->
  document c' = document c /\ tool_state c' = tool_state c /\
  emitted c' = emitted c /\ drawing c' = drawing c /\ panning c' = panning c.
Proof.
  unfold reset_zoom. intros H.
  destruct (negb _); [|inversion H; subst; repeat split; reflexivity].
  revert H. fields.
  destruct (Float.py_round (Float.sub (ptf_x _) _)) as [dx|]; [|cbn [mbind option_bind]; discriminate].
  cbn [mbind option_bind].
  destruct (Float.py_round (Float.sub (ptf_y _) _)) as [dy|]; [|cbn [mbind option_bind]; discriminate].
  cbn [mbind option_bind]. intros [= <-]. repeat split; reflexivity.
Qed.

Lemma wheelEvent_frame c ev c' :
  wheelEvent c ev = Some c' ->
  document c' = document c /\ tool_state c' = tool_state c /\
  emitted c' = emitted c /\ drawing c' = drawing c /\ panning c' = panning c.
Proof.
  unfold wheelEvent. intros H.
  destruct (wh_control ev); [|inversion H; subst; repeat split; reflexivity].
  destruct (QPointF_toPoint _) as [p|]; [|discriminate H].
  cbn [mbind option_bind] in H. exact (zoom_at_point_frame _ _ _ _ H).
Qed.

Lemma view_action_frame dp dl c a c' :
  is_view_action a = true -> perform dp dl c a = Some c' ->
  document c' = document c /\ tool_state c' = tool_state c /\
  emitted c' = emitted c /\ drawing c' = drawing c /\ panning c' = panning c.
Proof.
  destruct a; try discriminate; intros _; cbn [perform]; unfold zoom_in, zoom_out.
  - apply zoom_at_point_frame.
  - apply zoom_at_point_frame.
  - apply reset_zoom_frame.
  - apply wheelEvent_frame.
Qed.

Lemma set_tool_frame c tool :
  document (set_tool c tool) = document c /\
  view_state (set_tool c tool) = view_state c /\
  current_color (set_tool c tool) = current_color c /\
  brush_size (set_tool c tool) = brush_size c /\
  eraser_size (set_tool c tool) = eraser_size c.
Proof. unfold set_tool. case_match; repeat split; reflexivity. Qed.

Lemma set_color_frame c color :
  document (set_color c color) = document c /\
  view_state (set_color c color) = view_state c /\
  current_tool (set_color c color) = current_tool c /\
  brush_size (set_color c color) = brush_size c /\
  eraser_size (set_color c color) = eraser_size c.
Proof. unfold set_color. case_match; repeat split; reflexivity. Qed.

Lemma set_pen_size_frame c size :
  document (set_pen_size c size) = document c /\
  view_state (set_pen_size c size) = view_state c /\
  current_tool (set_pen_size c size) = current_tool c /\
  current_color (set_pen_size c size) = current_color c.
Proof. unfold set_pen_size. repeat case_match; repeat split; reflexivity. Qed.

Lemma adjust_size_frame c delta :
  document (adjust_size c delta) = document c /\
  view_state (adjust_size c delta) = view_state c /\
  current_tool (adjust_size c delta) = current_tool c /\
  current_color (adjust_size c delta) = current_color c.
Proof. unfold adjust_size. repeat case_match; repeat split; reflexivity. Qed.

Lemma keyPressEvent_frame c key :
  document (keyPressEvent c key) = document c /\
  view_state (keyPressEvent c key) = view_state c /\
  current_tool (keyPressEvent c key) = current_tool c /\
  current_color (keyPressEvent c key) = current_color c.
Proof.
  unfold keyPressEvent.
  destruct (_ || _); [|repeat split; reflexivity].
  destruct key; first [apply adjust_size_frame | repeat split; reflexivity].
Qed.

Lemma tool_action_frame dp dl c a c' :
  is_tool_action a = true -> perform dp dl c a = Some c' ->
  document c' = document c /\ view_state c' = view_state c.
Proof.
  destruct a; try discriminate; intros _; cbn [perform]; intros [= <-].
  - destruct (set_tool_frame c tool) as (? & ? & _). split; assumption.
  - destruct (set_color_frame c color) as (? & ? & _). split; assumption.
  - destruct (set_pen_size_frame c size) as (? & ? & _). split; assumption.
  - destruct (adjust_size_frame c delta) as (? & ? & _). split; assumption.
  - destruct (keyPressEvent_frame c key) as (? & ? & _). split; assumption.
Qed.

Lemma undo_frame c :
  tool_state (undo c) = tool_state c /\ scale_factor (undo c) = scale_factor c.
Proof.
  unfold undo. destruct (negb _); [split; reflexivity|].
  destruct (Deque.pop _) as [[[prev_image prev_size] rest]|]; split; reflexivity.
Qed.

Lemma redo_frame c :
  tool_state (redo c) = tool_state c /\ scale_factor (redo c) = scale_factor c.
Proof.
  unfold redo. destruct (negb _); [split; reflexivity|].
  destruct (Deque.pop _) as [[[next_image next_size] rest]|]; split; reflexivity.
Qed.

Lemma clear_canvas_frame c :
  tool_state (clear_canvas c) = tool_state c /\
  view_state (clear_canvas c) = view_state c /\
  _image_size (clear_canvas c) = _image_size c.
Proof. repeat split; reflexivity. Qed.

Lemma resize_canvas_frame c w h :
  tool_state (resize_canvas c w h) = tool_state c /\
  scale_factor (resize_canvas c w h) = scale_factor c.
Proof.
  destruct (resize_canvas_cases c w h) as [E|(_ & _ & E)]; rewrite E; split; reflexivity.
Qed.

Lemma show_resize_dialog_frame c u :
  tool_state (show_resize_dialog c u).1 = tool_state c /\
  scale_factor (show_resize_dialog c u).1 = scale_factor c.
Proof.
  unfold show_resize_dialog.
  destruct (accepted u); [|split; reflexivity].
  destruct (getDimensions _) as [new_w new_h].
  destruct (_ && _); [apply resize_canvas_frame | split; reflexivity].
Qed.

Lemma load_image_frame c img : tool_state (load_image c img) = tool_state c.
Proof. unfold load_image. case_match; reflexivity. Qed.

Lemma press_frame dp c ev c' :
  mousePressEvent dp c ev = Some c' ->
  tool_state c' = tool_state c /\ view_state c' = view_state c /\
  _image_size c' = _image_size c.
Proof.
  intros H. destruct (ev_button ev) eqn:Hb.
  - destruct (press_left_frame dp c ev c' Hb H) as (_ & Hs & Ht & Hsc & Hh & Hv).
    unfold view_state. rewrite Hsc, Hh, Hv. repeat split; assumption.
  - unfold mousePressEvent in H. rewrite Hb in H.
    destruct (QPointF_toPoint _) as [p|]; [|discriminate H].
    cbn [mbind option_bind] in H. inversion H; subst. repeat split; reflexivity.
  - unfold mousePressEvent in H. rewrite Hb in H. inversion H; subst.
    repeat split; reflexivity.
Qed.

(** The tool settings are changed by the tool actions only. *)
Lemma other_action_tool_state dp dl c a c' :
  is_tool_action a = false -> perform dp dl c a = Some c' ->
  tool_state c' = tool_state c.
Proof.
  destruct a; try discriminate; intros _; cbn [perform]; intros H.
  - inversion H; subst. apply clear_canvas_frame.
  - unfold confirm_new_drawing in H. destruct yes; [|inversion H; reflexivity].
    destruct (reset_zoom_frame _ _ _ H) as (_ & Ht & _). rewrite Ht.
    apply clear_canvas_frame.
  - inversion H; subst. apply undo_frame.
  - inversion H; subst. apply redo_frame.
  - inversion H; subst. apply show_resize_dialog_frame.
  - inversion H; subst. apply load_image_frame.
  - apply (press_frame dp c event c' H).
  - apply (move_frame dl c event c' H).
  - apply (release_frame c event c' H).
  - apply (zoom_at_point_frame _ _ _ _ H).
  - apply (zoom_at_point_frame _ _ _ _ H).
  - apply (reset_zoom_frame _ _ _ H).
  - apply (wheelEvent_frame _ _ _ H).
Qed.

(** X11: the three concerns of the canvas are kept apart: an action on
    the tool (tool, colour, size, size keys) leaves the buffer, the
    history, the scale and the scroll bars alone; an action on the view
    (zoom in, zoom out, reset, wheel) leaves the buffer, the history and
    the tool settings alone and sends no notification; and nothing but an
    action on the tool changes the tool, the colour or a stored size. *)
Theorem actions_keep_concerns_apart dp dl (c : Canvas) (a : action) (c' : Canvas) :
  perform dp dl c a = Some c' ->
  (is_tool_action a = true -> document c' = document c /\ view_state c' = view_state c) /\
  (is_view_action a = true ->
   document c' = document c /\ tool_state c' = tool_state c /\ emitted c' = emitted c) /\
  (is_tool_action a = false -> tool_state c' = tool_state c).
Proof.
  intros H. split; [|split].
  - intros Ha. exact (tool_action_frame dp dl c a c' Ha H).
  - intros Ha. destruct (view_action_frame dp dl c a c' Ha H) as (H1 & H2 & H3 & _).
    repeat split; assumption.
  - intros Ha. exact (other_action_tool_state dp dl c a c' Ha H).
Qed.

Lemma actions_keep_concerns_apart_witness :
  exists c',
    perform pixel_drawPoint pixel_drawLine red_canvas (act_zoom_in (mkQSize 640 480)) = Some c' /\
    document c' = document red_canvas /\
    tool_state c' = tool_state red_canvas /\
    emitted c' = emitted red_canvas.
Proof.
  destruct (perform pixel_drawPoint pixel_drawLine red_canvas (act_zoom_in (mkQSize 640 480)))
    as [c'|] eqn:E; [|vm_compute in E; discriminate E].
  exists c'. split; [reflexivity|].
  apply (proj1 (proj2 (actions_keep_concerns_apart _ _ _ _ _ E))). reflexivity.
Defined.

(* ================================================================== *)
(** * What holds in every state the user can reach *)

(** What holds before a run of actions and is kept by each holds after. *)
Lemma perform_all_preserves dp dl (I : Canvas -> Prop) (A : action -> Prop) :
  (forall c a c', A a -> I c -> perform dp dl c a = Some c' -> I c') ->
  forall actions c c',
  Forall A actions -> I c -> perform_all dp dl c actions = Some c' -> I c'.
Proof.
  intros Hstep. induction actions as [|a actions IH]; intros c c' HA HI H.
  - inversion H; subst. exact HI.
  - cbn [perform_all] in H.
    destruct (perform dp dl c a) as [c1|] eqn:E; [|discriminate H].
    cbn [mbind option_bind] in H.
    apply Forall_cons in HA as [Ha HA].
    exact (IH _ _ HA (Hstep _ _ _ Ha HI E) H).
Qed.

(** ** Pen sizes and colour *)

Lemma sizes_ok_tool_state c c' : tool_state c' = tool_state c -> sizes_ok c -> sizes_ok c'.
Proof.
  unfold tool_state, sizes_ok. intros [= Ht Hc Hb He]. rewrite Hc, Hb, He. tauto.
Qed.

Lemma set_pen_size_sizes_ok c size : sizes_ok c -> sizes_ok (set_pen_size c size).
Proof.
  unfold sizes_ok, set_pen_size, MIN_PEN_SIZE, MAX_PEN_SIZE. intros (Hb & He & Hc).
  repeat case_match; fields; repeat split; try assumption; lia.
Qed.

Lemma adjust_size_sizes_ok c delta : sizes_ok c -> sizes_ok (adjust_size c delta).
Proof.
  unfold sizes_ok, adjust_size, MIN_PEN_SIZE, MAX_PEN_SIZE. intros (Hb & He & Hc).
  repeat case_match; fields; repeat split; try assumption; lia.
Qed.

Lemma perform_sizes_ok dp dl c a c' :
  sizes_ok c -> perform dp dl c a = Some c' -> sizes_ok c'.
Proof.
  intros Hok H. destruct (is_tool_action a) eqn:Ha.
  2:{ exact (sizes_ok_tool_state _ _ (other_action_tool_state dp dl c a c' Ha H) Hok). }
  destruct a; try discriminate Ha; cbn [perform] in H; inversion H; subst; clear H.
  - destruct (set_tool_frame c tool) as (_ & _ & Hc & Hb & He).
    unfold sizes_ok in *. rewrite Hc, Hb, He. exact Hok.
  - unfold set_color. destruct (QColor_isValid color) eqn:Hv; [|exact Hok].
    unfold sizes_ok in *. fields. tauto.
  - apply set_pen_size_sizes_ok. exact Hok.
  - apply adjust_size_sizes_ok. exact Hok.
  - unfold keyPressEvent. destruct (_ || _); [|exact Hok].
    destruct key; first [apply adjust_size_sizes_ok; exact Hok | exact Hok].
Qed.

Lemma sizes_ok_pen_size c :
  sizes_ok c -> MIN_PEN_SIZE <= current_pen_size c <= MAX_PEN_SIZE.
Proof.
  unfold sizes_ok, current_pen_size, MIN_PEN_SIZE, MAX_PEN_SIZE. intros (Hb & He & _).
  repeat case_match; lia.
Qed.

(** X12: whatever the user does, from the start on, both stored pen
    sizes and the size of the current tool stay between 1 and 100 and
    the colour stays a valid one. *)
Theorem pen_sizes_stay_in_range dp dl (h v : QScrollBar) (actions : list action)
  (c' : Canvas) :
  perform_all dp dl (Canvas_init h v) actions = Some c' ->
  sizes_ok c' /\ MIN_PEN_SIZE <= current_pen_size c' <= MAX_PEN_SIZE.
Proof.
  intros H.
  assert (Hok : sizes_ok c').
  { apply (perform_all_preserves dp dl sizes_ok (fun _ => True)) with
      (actions := actions) (c := Canvas_init h v); [| |  |exact H].
    - intros c a c1 _. apply perform_sizes_ok.
    - apply Forall_forall. intros; exact I.
    - unfold sizes_ok, Canvas_init, MIN_PEN_SIZE, MAX_PEN_SIZE, DEFAULT_PEN_SIZE. fields.
      repeat split; try lia. }
  split; [exact Hok | exact (sizes_ok_pen_size c' Hok)].
Qed.

Lemma pen_sizes_stay_in_range_witness :
  exists c',
    perform_all pixel_drawPoint pixel_drawLine (Canvas_init sb0 sb0)
      [act_adjust_size 500; act_set_tool "Eraser"; act_key Key_Minus; act_set_pen_size (-3)]
    = Some c' /\
    sizes_ok c' /\ MIN_PEN_SIZE <= current_pen_size c' <= MAX_PEN_SIZE.
Proof.
  eexists. split; [reflexivity|].
  apply (pen_sizes_stay_in_range pixel_drawPoint pixel_drawLine sb0 sb0
           [act_adjust_size 500; act_set_tool "Eraser"; act_key Key_Minus;
            act_set_pen_size (-3)]).
  reflexivity.
Defined.

(** ** The length of the history *)

Lemma deque_pop_length {A} (d : list A) x rest :
  Deque.pop d = Some (x, rest) -> (length rest < length d)%nat.
Proof.
  unfold Deque.pop. destruct d as [|y d] using rev_ind; [discriminate|].
  rewrite last_snoc, removelast_last. intros [= _ <-]. rewrite length_app. simpl. lia.
Qed.

Lemma deque_append_bounded {A} (maxlen : nat) (d : list A) x :
  (length (Deque.append maxlen d x) <= maxlen)%nat.
Proof. rewrite deque_append_length. lia. Qed.

Lemma history_bounded_document c c' :
  document c' = document c -> history_bounded c -> history_bounded c'.
Proof. unfold document, history_bounded. intros [= _ _ -> ->]. tauto. Qed.

Lemma save_state_bounded c initial :
  history_bounded c -> history_bounded (_save_state c initial).
Proof.
  unfold history_bounded, _save_state. intros [Hu Hr].
  destruct initial; cbn [negb]; fields; (split; [apply deque_append_bounded|]).
  - exact Hr.
  - simpl; lia.
Qed.

Lemma undo_bounded c : history_bounded c -> history_bounded (undo c).
Proof.
  unfold history_bounded, undo. intros [Hu Hr].
  destruct (negb (can_undo c)); [split; assumption|]. fields.
  destruct (Deque.pop (undo_stack c)) as [[[prev_image prev_size] rest]|] eqn:E; fields.
  - apply deque_pop_length in E. split; [lia | apply deque_append_bounded].
  - split; [exact Hu | apply deque_append_bounded].
Qed.

Lemma redo_bounded c : history_bounded c -> history_bounded (redo c).
Proof.
  unfold history_bounded, redo. intros [Hu Hr].
  destruct (negb (can_redo c)); [split; assumption|]. fields.
  destruct (Deque.pop (redo_stack c)) as [[[next_image next_size] rest]|] eqn:E; fields.
  - apply deque_pop_length in E. split; [apply deque_append_bounded | lia].
  - split; [apply deque_append_bounded | exact Hr].
Qed.

Lemma clear_canvas_bounded c : history_bounded c -> history_bounded (clear_canvas c).
Proof.
  intros H. unfold clear_canvas.
  apply (save_state_bounded (set__current_stroke_saved true c) false) in H.
  exact H.
Qed.

Lemma resize_canvas_bounded c w h :
  history_bounded c -> history_bounded (resize_canvas c w h).
Proof.
  intros H. destruct (resize_canvas_cases c w h) as [E|(_ & _ & E)]; rewrite E; [exact H|].
  apply (save_state_bounded c false) in H. exact H.
Qed.

Lemma perform_history_bounded dp dl c a c' :
  history_bounded c -> perform dp dl c a = Some c' -> history_bounded c'.
Proof.
  intros Hok H.
  destruct (is_tool_action a) eqn:Ht.
  { destruct (tool_action_frame dp dl c a c' Ht H) as [Hd _].
    exact (history_bounded_document _ _ Hd Hok). }
  destruct (is_view_action a) eqn:Hv.
  { destruct (view_action_frame dp dl c a c' Hv H) as [Hd _].
    exact (history_bounded_document _ _ Hd Hok). }
  destruct a; try discriminate Ht; try discriminate Hv; cbn [perform] in H.
  - inversion H; subst. apply clear_canvas_bounded, Hok.
  - unfold confirm_new_drawing in H. destruct yes; [|inversion H; subst; exact Hok].
    destruct (reset_zoom_frame _ _ _ H) as [Hd _].
    apply (history_bounded_document _ _ Hd). apply clear_canvas_bounded, Hok.
  - inversion H; subst. apply undo_bounded, Hok.
  - inversion H; subst. apply redo_bounded, Hok.
  - inversion H; subst. unfold show_resize_dialog.
    destruct (accepted u); [|exact Hok].
    destruct (getDimensions _) as [new_w new_h].
    destruct (_ && _); [apply resize_canvas_bounded, Hok | exact Hok].
  - inversion H; subst. unfold load_image. case_match; [exact Hok|].
    unfold history_bounded, MAX_UNDO_STATES. simpl. lia.
  - destruct (ev_button event) eqn:Hb.
    + destruct (press_captures_result dp c event c' Hb H) as [_ Hlen].
      pose proof (press_redo_stack dp c event c' Hb H) as Hredo.
      unfold history_bounded. rewrite Hlen, Hredo. simpl. lia.
    + unfold mousePressEvent in H. rewrite Hb in H.
      destruct (QPointF_toPoint _) as [p|]; [|discriminate H].
      cbn [mbind option_bind] in H. inversion H; subst. exact Hok.
    + unfold mousePressEvent in H. rewrite Hb in H. inversion H; subst. exact Hok.
  - destruct (move_frame dl c event c' H) as (Hu & Hr & _).
    unfold history_bounded. rewrite Hu, Hr. exact Hok.
  - destruct (release_frame c event c' H) as (Hd & _).
    exact (history_bounded_document _ _ Hd Hok).
Qed.

(** X13: whatever the user does, from the start on, neither the undo
    stack nor the redo stack ever holds more than 50 entries. *)
Theorem history_stays_bounded dp dl (h v : QScrollBar) (actions : list action)
  (c' : Canvas) :
  perform_all dp dl (Canvas_init h v) actions = Some c' ->
  history_bounded c'.
Proof.
  intros H.
  apply (perform_all_preserves dp dl history_bounded (fun _ => True)) with
    (actions := actions) (c := Canvas_init h v); [| |  |exact H].
  - intros c a c1 _. apply perform_history_bounded.
  - apply Forall_forall. intros; exact I.
  - unfold history_bounded, Canvas_init. fields. simpl. lia.
Qed.

Lemma history_stays_bounded_witness :
  exists c',
    perform_all pixel_drawPoint pixel_drawLine (Canvas_init sb0 sb0)
      [act_load red_image; act_clear; act_undo; act_redo] = Some c' /\
    history_bounded c'.
Proof.
  destruct (perform_all pixel_drawPoint pixel_drawLine (Canvas_init sb0 sb0)
              [act_load red_image; act_clear; act_undo; act_redo]) as [c'|] eqn:E;
    [|vm_compute in E; discriminate E].
  exists c'. split; [reflexivity|].
  exact (history_stays_bounded _ _ _ _ _ _ E).
Defined.

(** ** The shape of the buffers *)

Lemma Forall_deque_append {A} (P : A -> Prop) (maxlen : nat) (d : list A) x :
  Forall P d -> P x -> Forall P (Deque.append maxlen d x).
Proof.
  intros Hd Hx. unfold Deque.append. apply Forall_drop, Forall_app.
  split; [exact Hd | apply Forall_singleton; exact Hx].
Qed.

Lemma Forall_deque_pop {A} (P : A -> Prop) (d : list A) x rest :
  Forall P d -> Deque.pop d = Some (x, rest) -> P x /\ Forall P rest.
Proof.
  unfold Deque.pop. destruct d as [|y d] using rev_ind; [discriminate|].
  rewrite last_snoc, removelast_last. intros Hd [= <- <-].
  apply Forall_app in Hd as [Hd Hy]. inversion Hy; subst. split; assumption.
Qed.

Lemma buffers_ok_document c c' :
  document c' = document c -> buffers_ok c -> buffers_ok c'.
Proof.
  unfold document, buffers_ok, buffer_ok, live. cbn [fst snd].
  intros [= -> -> -> ->]. tauto.
Qed.

Lemma save_state_buffers c initial : buffers_ok c -> buffers_ok (_save_state c initial).
Proof.
  unfold buffers_ok. intros (Hl & Hu & Hr).
  rewrite save_state_live, save_state_undo_stack.
  split; [exact Hl|]. split; [apply Forall_deque_append; assumption|].
  destruct initial; [exact Hr | apply Forall_nil_2].
Qed.

Lemma undo_buffers c : buffers_ok c -> buffers_ok (undo c).
Proof.
  unfold undo. intros Hok. destruct (negb (can_undo c)); [exact Hok|].
  destruct Hok as (Hl & Hu & Hr). fields.
  destruct (Deque.pop (undo_stack c)) as [[[prev_image prev_size] rest]|] eqn:E.
  - destruct (Forall_deque_pop _ _ _ _ Hu E) as [Hx Hrest].
    unfold buffers_ok, live. fields.
    split; [exact Hx|]. split; [exact Hrest|].
    apply Forall_deque_append; assumption.
  - unfold buffers_ok, live. fields. split; [exact Hl|]. split; [exact Hu|].
    apply Forall_deque_append; assumption.
Qed.

Lemma redo_buffers c : buffers_ok c -> buffers_ok (redo c).
Proof.
  unfold redo. intros Hok. destruct (negb (can_redo c)); [exact Hok|].
  destruct Hok as (Hl & Hu & Hr). fields.
  destruct (Deque.pop (redo_stack c)) as [[[next_image next_size] rest]|] eqn:E.
  - destruct (Forall_deque_pop _ _ _ _ Hr E) as [Hx Hrest].
    unfold buffers_ok, live. fields.
    split; [exact Hx|]. split; [|exact Hrest].
    apply Forall_deque_append; assumption.
  - unfold buffers_ok, live. fields. split; [exact Hl|]. split; [|exact Hr].
    apply Forall_deque_append; assumption.
Qed.

(** Replacing the image by one of the same shape. *)
Lemma set_image_buffers c img :
  QImage_wf img -> QImage_size img = QImage_size (image c) ->
  buffers_ok c -> buffers_ok (set_image img c).
Proof.
  unfold buffers_ok, buffer_ok, live. cbn [fst snd]. fields.
  intros Hwf Hsz ((_ & Hs & Hpos) & Hu & Hr). rewrite Hsz.
  split; [split; [exact Hwf | split; [exact Hs | exact Hpos]] | split; assumption].
Qed.

Lemma QImage_fill_wf img px :
  QImage_wf img ->
  QImage_wf (QImage_fill img px) /\ QImage_size (QImage_fill img px) = QImage_size img.
Proof.
  unfold QImage_wf, QImage_fill, QImage_size. cbn [image_width image_height image_bits].
  intros (Hw & Hh & Hlen). rewrite length_replicate. tauto.
Qed.

Lemma clear_canvas_buffers c : buffers_ok c -> buffers_ok (clear_canvas c).
Proof.
  intros Hok. unfold clear_canvas.
  assert (H1 : buffers_ok (_save_state (set__current_stroke_saved true c) false))
    by (apply save_state_buffers; exact Hok).
  destruct (QImage_fill_wf (image c) px_transparent) as [Hwf Hsz];
    [apply Hok|].
  apply set_image_buffers; assumption.
Qed.

Lemma resize_canvas_buffers c w h :
  0 < w -> 0 < h -> buffers_ok c -> buffers_ok (resize_canvas c w h).
Proof.
  intros Hw Hh Hok.
  destruct (resize_canvas_cases c w h) as [E|(_ & _ & E)]; rewrite E; [exact Hok|].
  destruct (save_state_buffers c false Hok) as (_ & Hu & Hr).
  unfold buffers_ok, buffer_ok, live. cbn [fst snd]. fields.
  split; [|split; [exact Hu | exact Hr]].
  rewrite QImage_filled_pos by assumption.
  unfold QPainter_drawImage. cbn [image_width image_height].
  split; [apply QImage_tabulate_wf; lia|].
  split; [reflexivity|]. cbn [sz_width sz_height]. lia.
Qed.

Lemma load_image_buffers c img :
  QImage_wf img -> buffers_ok c -> buffers_ok (load_image c img).
Proof.
  intros Hwf Hok. unfold load_image.
  destruct (QImage_isNull img) eqn:Hnull; [exact Hok|].
  unfold QImage_isNull in Hnull. apply orb_false_iff in Hnull as [H1 H2].
  apply Z.leb_gt in H1, H2.
  assert (Hb : buffer_ok (img, QImage_size img)).
  { unfold buffer_ok. cbn [fst snd QImage_size sz_width sz_height]. tauto. }
  unfold buffers_ok, live. cbn.
  split; [exact Hb|]. split; [|apply Forall_nil_2].
  apply Forall_singleton. exact Hb.
Qed.

Lemma flood_step_wf w h target fill s s' :
  QImage_wf (fs_image s) ->
  flood_step w h target fill s = Some s' ->
  QImage_wf (fs_image s') /\ QImage_size (fs_image s') = QImage_size (fs_image s).
Proof.
  unfold flood_step. intros Hwf H.
  destruct (fs_queue s) as [|[x y] queue]; [discriminate H|].
  destruct (negb _); [inversion H; subst; split; [exact Hwf | reflexivity]|].
  destruct (decide _); inversion H; subst; cbn [fs_image];
    [|split; [exact Hwf | reflexivity]].
  split; [apply setPixelColor_wf, Hwf|].
  destruct (setPixelColor_dims (fs_image s) x y fill) as [Hw Hh].
  unfold QImage_size. rewrite Hw, Hh. reflexivity.
Qed.

Lemma flood_run_wf w h target fill fuel :
  forall s s_end popped,
  QImage_wf (fs_image s) ->
  flood_run fuel w h target fill s = Some (s_end, popped) ->
  QImage_wf (fs_image s_end) /\ QImage_size (fs_image s_end) = QImage_size (fs_image s).
Proof.
  induction fuel as [|fuel IH]; intros s s_end popped Hwf H; cbn [flood_run] in H.
  - destruct (fs_queue s) as [|p q]; [inversion H; subst; split; [exact Hwf|reflexivity]|].
    destruct (flood_step _ _ _ _ s); [discriminate H|].
    inversion H; subst; split; [exact Hwf|reflexivity].
  - destruct (fs_queue s) as [|p q] eqn:Eq;
      [inversion H; subst; split; [exact Hwf|reflexivity]|].
    destruct (flood_step w h target fill s) as [s1|] eqn:E1;
      [|inversion H; subst; split; [exact Hwf|reflexivity]].
    destruct (flood_step_wf _ _ _ _ _ _ Hwf E1) as [Hwf1 Hsz1].
    destruct (flood_run fuel w h target fill s1) as [[s2 popped2]|] eqn:E2; [|discriminate H].
    inversion H; subst.
    destruct (IH _ _ _ Hwf1 E2) as [Hwf2 Hsz2].
    split; [exact Hwf2 | congruence].
Qed.

(** A fill changes nothing but pixels, whatever the colour. *)
Lemma flood_fill_shape c start erase_mode :
  QImage_wf (image c) ->
  flood_fill c start erase_mode = set_image (image (flood_fill c start erase_mode)) c /\
  QImage_wf (image (flood_fill c start erase_mode)) /\
  QImage_size (image (flood_fill c start erase_mode)) = QImage_size (image c).
Proof.
  intros Hwf.
  assert (Hid : forall c0 : Canvas, c0 = set_image (image c0) c0) by (intros []; reflexivity).
  unfold flood_fill.
  destruct (negb _); [split; [apply Hid | split; [exact Hwf | reflexivity]]|].
  destruct (decide _); [split; [apply Hid | split; [exact Hwf | reflexivity]]|].
  destruct (flood_run _ _ _ _ _ _) as [[s popped]|] eqn:E;
    [|split; [apply Hid | split; [exact Hwf | reflexivity]]].
  split; [reflexivity|]. cbn [image set_image].
  apply (flood_run_wf _ _ _ _ _ (flood_start (image c) start) s popped Hwf E).
Qed.

Lemma press_buffers dp c ev c' :
  (forall pen mode p, keeps_size (dp pen mode p)) ->
  buffers_ok c -> mousePressEvent dp c ev = Some c' -> buffers_ok c'.
Proof.
  intros Hdp Hok H. unfold mousePressEvent in H.
  destruct (ev_button ev).
  - destruct (QPointF_toPoint _) as [p|]; [|discriminate H].
    cbn [mbind option_bind] in H.
    assert (Hwf : QImage_wf (image c)) by apply Hok.
    destruct (String.eqb (current_tool c) "bucket").
    + inversion H; subst; clear H. apply save_state_buffers.
      destruct (flood_fill_shape c p false Hwf) as (Hc & Hwf' & Hsz).
      rewrite Hc.
      apply (buffers_ok_document (set_image (image (flood_fill c p false)) c)); [reflexivity|].
      apply set_image_buffers; assumption.
    + inversion H; subst; clear H. apply save_state_buffers.
      match goal with |- buffers_ok (set__current_stroke_saved true ?d) =>
        apply (buffers_ok_document d); [reflexivity|] end.
      unfold draw_point. fields.
      destruct (String.eqb (current_tool c) "brush").
      * match goal with |- buffers_ok (set_image ?img ?d) =>
          apply (buffers_ok_document (set_image img c)); [reflexivity|] end.
        apply set_image_buffers; [apply Hdp, Hwf | apply Hdp, Hwf | exact Hok].
      * destruct (String.eqb (current_tool c) "eraser").
        -- match goal with |- buffers_ok (set_image ?img ?d) =>
             apply (buffers_ok_document (set_image img c)); [reflexivity|] end.
           apply set_image_buffers; [apply Hdp, Hwf | apply Hdp, Hwf | exact Hok].
        -- apply (buffers_ok_document c); [reflexivity | exact Hok].
  - destruct (QPointF_toPoint _) as [p|]; [|discriminate H].
    cbn [mbind option_bind] in H. inversion H; subst.
    apply (buffers_ok_document c); [reflexivity | exact Hok].
  - inversion H; subst. exact Hok.
Qed.

Lemma move_buffers dl c ev c' :
  (forall pen mode p q, keeps_size (dl pen mode p q)) ->
  buffers_ok c -> mouseMoveEvent dl c ev = Some c' -> buffers_ok c'.
Proof.
  intros Hdl Hok H. unfold mouseMoveEvent in H.
  destruct (QPointF_toPoint _) as [p|]; [|discriminate H].
  cbn [mbind option_bind] in H. revert H. fields.
  assert (Hwf : QImage_wf (image c)) by apply Hok.
  destruct (panning c).
  { intros [= <-]. apply (buffers_ok_document c); [reflexivity | exact Hok]. }
  destruct (_ && _).
  2:{ intros [= <-]. apply (buffers_ok_document c); [reflexivity | exact Hok]. }
  destruct (_ || _).
  2:{ intros [= <-]. apply (buffers_ok_document c); [reflexivity | exact Hok]. }
  intros [= <-]. unfold draw_line_to. fields.
  destruct (String.eqb (current_tool c) "brush").
  - match goal with |- buffers_ok (set_last_point _ (set_image ?img ?d)) =>
      apply (buffers_ok_document (set_image img c)); [reflexivity|] end.
    apply set_image_buffers; [apply Hdl, Hwf | apply Hdl, Hwf | exact Hok].
  - destruct (String.eqb (current_tool c) "eraser").
    + match goal with |- buffers_ok (set_last_point _ (set_image ?img ?d)) =>
        apply (buffers_ok_document (set_image img c)); [reflexivity|] end.
      apply set_image_buffers; [apply Hdl, Hwf | apply Hdl, Hwf | exact Hok].
    + apply (buffers_ok_document c); [reflexivity | exact Hok].
Qed.

Lemma perform_buffers_ok dp dl c a c' :
  (forall pen mode p, keeps_size (dp pen mode p)) ->
  (forall pen mode p q, keeps_size (dl pen mode p q)) ->
  action_ok a ->
  buffers_ok c -> perform dp dl c a = Some c' -> buffers_ok c'.
Proof.
  intros Hdp Hdl Ha Hok H.
  destruct (is_tool_action a) eqn:Ht.
  { destruct (tool_action_frame dp dl c a c' Ht H) as [Hd _].
    exact (buffers_ok_document _ _ Hd Hok). }
  destruct (is_view_action a) eqn:Hv.
  { destruct (view_action_frame dp dl c a c' Hv H) as [Hd _].
    exact (buffers_ok_document _ _ Hd Hok). }
  destruct a; try discriminate Ht; try discriminate Hv; cbn [perform] in H.
  - inversion H; subst. apply clear_canvas_buffers, Hok.
  - unfold confirm_new_drawing in H. destruct yes; [|inversion H; subst; exact Hok].
    destruct (reset_zoom_frame _ _ _ H) as [Hd _].
    apply (buffers_ok_document _ _ Hd). apply clear_canvas_buffers, Hok.
  - inversion H; subst. apply undo_buffers, Hok.
  - inversion H; subst. apply redo_buffers, Hok.
  - inversion H; subst. unfold show_resize_dialog.
    destruct (accepted u); [|exact Hok].
    destruct (getDimensions _) as [new_w new_h].
    destruct (0 <? new_w) eqn:E1; cbn [andb]; [|exact Hok].
    destruct (0 <? new_h) eqn:E2; [|exact Hok].
    apply Z.ltb_lt in E1, E2. cbn [fst]. apply resize_canvas_buffers; assumption.
  - inversion H; subst. apply load_image_buffers; assumption.
  - exact (press_buffers dp c event c' Hdp Hok H).
  - exact (move_buffers dl c event c' Hdl Hok H).
  - destruct (release_frame c event c' H) as (Hd & _).
    exact (buffers_ok_document _ _ Hd Hok).
Qed.

Lemma Canvas_init_buffers h v : buffers_ok (Canvas_init h v).
Proof.
  unfold buffers_ok, buffer_ok, live, Canvas_init. fields. cbn [fst snd].
  split; [|split; apply Forall_nil_2].
  unfold DEFAULT_WIDTH, DEFAULT_HEIGHT.
  rewrite QImage_filled_pos by lia.
  unfold QImage_wf, QImage_size. cbn [image_width image_height image_bits sz_width sz_height].
  rewrite length_replicate. repeat split; lia.
Qed.

Lemma pixel_drawPoint_keeps_size pen mode p : keeps_size (pixel_drawPoint pen mode p).
Proof.
  intros img Hwf. unfold pixel_drawPoint.
  destruct (QPointF_toPoint p) as [q|]; [|split; [exact Hwf | reflexivity]].
  split; [apply setPixelColor_wf, Hwf|].
  destruct (setPixelColor_dims img (pt_x q) (pt_y q)
              match mode with
              | CompositionMode_SourceOver => pen_color pen
              | CompositionMode_Clear => Qt_transparent
              end) as [Hw Hh].
  unfold QImage_size. rewrite Hw, Hh. reflexivity.
Qed.

Lemma pixel_drawLine_keeps_size pen mode p q : keeps_size (pixel_drawLine pen mode p q).
Proof.
  intros img Hwf. unfold pixel_drawLine.
  destruct (pixel_drawPoint_keeps_size pen mode p img Hwf) as [H1 H2].
  destruct (pixel_drawPoint_keeps_size pen mode q _ H1) as [H3 H4].
  split; [exact H3 | congruence].
Qed.

(** X14: whatever the user does, from the start on, the live buffer and
    every buffer kept in the history hold exactly width times height
    pixels, have positive dimensions, and are of the size recorded with
    them; this for any painter that changes pixels only, and for loaded
    images that are well formed. *)
Theorem buffers_stay_well_formed dp dl (h v : QScrollBar) (actions : list action)
  (c' : Canvas) :
  (forall pen mode p, keeps_size (dp pen mode p)) ->
  (forall pen mode p q, keeps_size (dl pen mode p q)) ->
  Forall action_ok actions ->
  perform_all dp dl (Canvas_init h v) actions = Some c' ->
  buffers_ok c'.
Proof.
  intros Hdp Hdl Hact H.
  apply (perform_all_preserves dp dl buffers_ok action_ok) with
    (actions := actions) (c := Canvas_init h v); [|exact Hact| |exact H].
  - intros c a c1 Ha. apply perform_buffers_ok; assumption.
  - apply Canvas_init_buffers.
Qed.

Lemma buffers_stay_well_formed_witness :
  exists c',
    perform_all pixel_drawPoint pixel_drawLine (Canvas_init sb0 sb0)
      [act_load red_image; act_press press_origin; act_undo] = Some c' /\
    buffers_ok c'.
Proof.
  destruct (perform_all pixel_drawPoint pixel_drawLine (Canvas_init sb0 sb0)
              [act_load red_image; act_press press_origin; act_undo]) as [c'|] eqn:E;
    [|vm_compute in E; discriminate E].
  exists c'. split; [reflexivity|].
  apply (buffers_stay_well_formed pixel_drawPoint pixel_drawLine sb0 sb0
           [act_load red_image; act_press press_origin; act_undo] c').
  - apply pixel_drawPoint_keeps_size.
  - apply pixel_drawLine_keeps_size.
  - apply Forall_cons; split; [vm_compute; repeat split; discriminate|].
    repeat (apply Forall_cons; split; [exact I|]). apply Forall_nil_2.
  - exact E.
Defined.

(* ================================================================== *)
(** * More on the zoom *)

Lemma zoom_in_factor_eq : zoom_in_factor = S754_finite false 5179139571476070 (-52).
Proof. vm_compute. reflexivity. Qed.

Lemma zoom_out_factor_eq : zoom_out_factor = S754_finite false 7832347178035646 (-53).
Proof. vm_compute. reflexivity. Qed.

Lemma float_compare_pos m1 e1 m2 e2 :
  SFcompare (S754_finite false m1 e1) (S754_finite false m2 e2)
  = Some match e1 ?= e2 with
         | Lt => Lt
         | Gt => Gt
         | Eq => (m1 ?= m2)%positive
         end.
Proof. reflexivity. Qed.

Lemma float_leb_pos m1 e1 m2 e2 :
  Float.leb (S754_finite false m1 e1) (S754_finite false m2 e2) = true <->
  e1 < e2 \/ (e1 = e2 /\ Z.pos m1 <= Z.pos m2).
Proof.
  unfold Float.leb, SFleb. rewrite float_compare_pos.
  destruct (Z.compare_spec e1 e2); [destruct (Pos.compare_spec m1 m2)| |];
    split; intros; first [reflexivity | discriminate | lia].
Qed.

Lemma float_ltb_pos m1 e1 m2 e2 :
  Float.ltb (S754_finite false m1 e1) (S754_finite false m2 e2) = true <->
  e1 < e2 \/ (e1 = e2 /\ Z.pos m1 < Z.pos m2).
Proof.
  unfold Float.ltb, SFltb. rewrite float_compare_pos.
  destruct (Z.compare_spec e1 e2); [destruct (Pos.compare_spec m1 m2)| |];
    split; intros; first [reflexivity | discriminate | lia].
Qed.

Lemma valid_normal s m e :
  2 ^ 52 <= Z.pos m < 2 ^ 53 -> -1074 <= e <= 971 ->
  Float.valid (S754_finite s m e) = true.
Proof.
  intros Hm He. unfold Float.valid, valid_binary, bounded, canonical_mantissa.
  rewrite (digits2_pos_unique m 53) by (change (53 - 1) with 52; exact Hm).
  rewrite fexp_normal by lia.
  apply andb_true_iff. split; [apply Z.eqb_eq | apply Z.leb_le]; unfold Float.emax, Float.prec; lia.
Qed.

(** A scale in range, taken apart. *)
Lemma scale_ok_normal s :
  Float.valid s = true ->
  Float.leb Float.f0_1 s = true -> Float.leb s Float.f16 = true ->
  exists ms es,
    s = S754_finite false ms es /\
    2 ^ 52 <= Z.pos ms < 2 ^ 53 /\ -56 <= es <= -48 /\
    (es = -56 -> 7205759403792794 <= Z.pos ms) /\
    (es = -48 -> Z.pos ms = 2 ^ 52).
Proof.
  intros Hv H01 H16.
  destruct (scale_in_range_normal s Hv H01 H16) as (ms & es & -> & Hd & He).
  exists ms, es. split; [reflexivity|].
  pose proof (digits2_pos_bounds ms) as Hb. rewrite Hd in Hb.
  change (53 - 1) with 52 in Hb.
  split; [exact Hb|]. split; [exact He|].
  unfold Float.f0_1, Float.f16 in *.
  apply float_leb_pos in H01, H16.
  change (2 ^ 52) with 4503599627370496 in *.
  split; intros; lia.
Qed.

(** The scale a zoom by a normal positive factor near one computes is a
    valid float. *)
Lemma zoom_new_scale_valid s mf ef :
  Float.valid s = true ->
  Float.leb Float.f0_1 s = true -> Float.leb s Float.f16 = true ->
  2 ^ 52 <= Z.pos mf < 2 ^ 53 -> -100 <= ef <= 0 ->
  Float.valid (zoom_new_scale s (S754_finite false mf ef)) = true.
Proof.
  intros Hv H01 H16 Hmf Hef.
  destruct (scale_ok_normal s Hv H01 H16) as (ms & es & -> & Hms & Hes & _).
  destruct (zoom_new_scale_cases (S754_finite false ms es) (S754_finite false mf ef))
    as [[-> _]|[[-> _]|[-> _]]]; try (vm_compute; reflexivity).
  destruct (float_mul_normal false ms es mf ef Hms Hmf) as (mp & n & -> & Hn & Hmp & _);
    [lia|].
  apply valid_normal; [exact Hmp | lia].
Qed.

Lemma zoom_new_scale_zero ms es :
  zoom_new_scale (S754_finite false ms es) (S754_zero false) = Float.f0_1.
Proof. reflexivity. Qed.

Lemma zoom_at_point_scale c p factor c' :
  _zoom_at_point c p factor = Some c' ->
  scale_factor c' = scale_factor c \/
  (zoom_negligible (scale_factor c) factor = false /\
   scale_factor c' = zoom_new_scale (scale_factor c) factor).
Proof.
  unfold _zoom_at_point, zoom_negligible, zoom_new_scale. intros H.
  destruct (Float.ltb _ _); [inversion H; subst; left; reflexivity|].
  revert H. fields.
  destruct (Float.py_round (ptf_x _)) as [dx|]; [|cbn [mbind option_bind]; discriminate].
  cbn [mbind option_bind].
  destruct (Float.py_round (ptf_y _)) as [dy|]; [|cbn [mbind option_bind]; discriminate].
  cbn [mbind option_bind]. intros [= <-]. right. split; reflexivity.
Qed.

Lemma scale_ok_zoom c p factor c' :
  scale_ok c ->
  (factor = S754_zero false \/
   exists mf ef, factor = S754_finite false mf ef /\
                 2 ^ 52 <= Z.pos mf < 2 ^ 53 /\ -100 <= ef <= 0) ->
  _zoom_at_point c p factor = Some c' -> scale_ok c'.
Proof.
  intros (Hv & H01 & H16) Hf H.
  destruct (zoom_at_point_scale c p factor c' H) as [E|[_ E]].
  - unfold scale_ok. rewrite E. repeat split; assumption.
  - unfold scale_ok. rewrite E.
    destruct (zoom_new_scale_range (scale_factor c) factor) as [R1 R2].
    split; [|split; assumption].
    destruct Hf as [->|(mf & ef & -> & Hmf & Hef)].
    + destruct (scale_ok_normal _ Hv H01 H16) as (ms & es & -> & _).
      rewrite zoom_new_scale_zero. vm_compute. reflexivity.
    + apply zoom_new_scale_valid; assumption.
Qed.

Lemma zoom_factor_shapes :
  (exists mf ef, zoom_in_factor = S754_finite false mf ef /\
                 2 ^ 52 <= Z.pos mf < 2 ^ 53 /\ -100 <= ef <= 0) /\
  (exists mf ef, zoom_out_factor = S754_finite false mf ef /\
                 2 ^ 52 <= Z.pos mf < 2 ^ 53 /\ -100 <= ef <= 0).
Proof.
  split.
  - exists 5179139571476070%positive, (-52). split; [apply zoom_in_factor_eq|].
    change (2 ^ 52) with 4503599627370496. change (2 ^ 53) with 9007199254740992. lia.
  - exists 7832347178035646%positive, (-53). split; [apply zoom_out_factor_eq|].
    change (2 ^ 52) with 4503599627370496. change (2 ^ 53) with 9007199254740992. lia.
Qed.

Lemma scale_ok_f1 : Float.valid Float.f1 = true /\
  Float.leb Float.f0_1 Float.f1 = true /\ Float.leb Float.f1 Float.f16 = true.
Proof. vm_compute. repeat split; reflexivity. Qed.

Lemma scale_ok_reset_zoom c view c' : scale_ok c -> reset_zoom c view = Some c' -> scale_ok c'.
Proof.
  unfold reset_zoom. intros Hok H.
  destruct (negb _); [|inversion H; subst; exact Hok].
  revert H. fields.
  destruct (Float.py_round (Float.sub (ptf_x _) _)) as [dx|];
    [|cbn [mbind option_bind]; discriminate].
  cbn [mbind option_bind].
  destruct (Float.py_round (Float.sub (ptf_y _) _)) as [dy|];
    [|cbn [mbind option_bind]; discriminate].
  cbn [mbind option_bind]. intros [= <-]. exact scale_ok_f1.
Qed.

Lemma scale_ok_wheel c ev c' : scale_ok c -> wheelEvent c ev = Some c' -> scale_ok c'.
Proof.
  unfold wheelEvent. intros Hok H.
  destruct (wh_control ev); [|inversion H; subst; exact Hok].
  destruct (QPointF_toPoint _) as [p|]; [|discriminate H].
  cbn [mbind option_bind] in H.
  refine (scale_ok_zoom c p _ c' Hok _ H).
  destruct (0 <? wh_angle_y ev); [right; apply zoom_factor_shapes|].
  destruct (wh_angle_y ev <? 0); [right; apply zoom_factor_shapes|].
  left. reflexivity.
Qed.

Lemma scale_ok_view_state c c' : view_state c' = view_state c -> scale_ok c -> scale_ok c'.
Proof. unfold view_state, scale_ok. intros [= -> _ _]. tauto. Qed.

Lemma perform_scale_ok dp dl c a c' :
  scale_ok c -> perform dp dl c a = Some c' -> scale_ok c'.
Proof.
  intros Hok H.
  destruct (is_tool_action a) eqn:Ht.
  { destruct (tool_action_frame dp dl c a c' Ht H) as [_ Hv].
    exact (scale_ok_view_state _ _ Hv Hok). }
  destruct a; try discriminate Ht; cbn [perform] in H.
  - inversion H; subst. exact Hok.
  - unfold confirm_new_drawing in H. destruct yes; [|inversion H; subst; exact Hok].
    apply (scale_ok_reset_zoom (clear_canvas c) view_rect c'); [exact Hok | exact H].
  - inversion H; subst. unfold scale_ok. rewrite (proj2 (undo_frame c)). exact Hok.
  - inversion H; subst. unfold scale_ok. rewrite (proj2 (redo_frame c)). exact Hok.
  - inversion H; subst. unfold scale_ok. rewrite (proj2 (show_resize_dialog_frame c u)).
    exact Hok.
  - inversion H; subst. unfold load_image. case_match; [exact Hok | exact scale_ok_f1].
  - destruct (press_frame dp c event c' H) as (_ & Hv & _).
    exact (scale_ok_view_state _ _ Hv Hok).
  - destruct (move_frame dl c event c' H) as (_ & _ & _ & _ & _ & Hs & _).
    unfold scale_ok. rewrite Hs. exact Hok.
  - destruct (release_frame c event c' H) as (_ & _ & _ & Hs & _).
    unfold scale_ok. rewrite Hs. exact Hok.
  - apply (scale_ok_zoom c _ _ c' Hok (or_intror (proj1 zoom_factor_shapes)) H).
  - apply (scale_ok_zoom c _ _ c' Hok (or_intror (proj2 zoom_factor_shapes)) H).
  - exact (scale_ok_reset_zoom c view_rect c' Hok H).
  - exact (scale_ok_wheel c event c' Hok H).
Qed.

(** X15: whatever the user does, from the start on, the scale factor is
    a valid binary64 number between 0.1 and 16.0: the range for which
    the coordinate round trip holds. *)
Theorem scale_stays_in_range dp dl (h v : QScrollBar) (actions : list action)
  (c' : Canvas) :
  perform_all dp dl (Canvas_init h v) actions = Some c' ->
  scale_ok c'.
Proof.
  intros H.
  apply (perform_all_preserves dp dl scale_ok (fun _ => True)) with
    (actions := actions) (c := Canvas_init h v); [| |  |exact H].
  - intros c a c1 _. apply perform_scale_ok.
  - apply Forall_forall. intros; exact I.
  - exact scale_ok_f1.
Qed.

Lemma scale_stays_in_range_witness :
  exists c',
    perform_all pixel_drawPoint pixel_drawLine (Canvas_init sb0 sb0)
      [act_load red_image; act_zoom_in (mkQSize 640 480);
       act_zoom_out (mkQSize 640 480)] = Some c' /\
    scale_ok c'.
Proof.
  destruct (perform_all pixel_drawPoint pixel_drawLine (Canvas_init sb0 sb0)
              [act_load red_image; act_zoom_in (mkQSize 640 480);
               act_zoom_out (mkQSize 640 480)]) as [c'|] eqn:E;
    [|vm_compute in E; discriminate E].
  exists c'. split; [reflexivity|].
  exact (scale_stays_in_range _ _ _ _ _ _ E).
Defined.

Lemma float_leb_refl_pos m e :
  Float.leb (S754_finite false m e) (S754_finite false m e) = true.
Proof. apply float_leb_pos. right. split; [reflexivity | lia]. Qed.

(** The scale a zoom in computes is not below the current one. *)
Lemma zoom_in_scale_grows s :
  Float.valid s = true ->
  Float.leb Float.f0_1 s = true -> Float.leb s Float.f16 = true ->
  Float.leb s (zoom_new_scale s zoom_in_factor) = true.
Proof.
  intros Hv H01 H16.
  destruct (scale_ok_normal s Hv H01 H16) as (ms & es & -> & Hms & Hes & Hlo & Hhi).
  rewrite zoom_in_factor_eq.
  destruct (float_mul_normal false ms es 5179139571476070 (-52) Hms)
    as (mp & n & Hp & Hn & Hmp & Herr).
  { change (2 ^ 52) with 4503599627370496. change (2 ^ 53) with 9007199254740992. lia. }
  { lia. }
  destruct (zoom_new_scale_cases (S754_finite false ms es)
              (S754_finite false 5179139571476070 (-52))) as [[E Hc]|[[E Hc]|[E _]]];
    rewrite E; clear E.
  - (* the product is not above 0.1: impossible *)
    exfalso. cbv zeta in Hc. rewrite Hp in Hc. unfold Float.f0_1 in Hc.
    apply not_true_iff_false in Hc. apply Hc. apply float_ltb_pos.
    change (2 ^ 52) with 4503599627370496 in *.
    change (2 ^ 53) with 9007199254740992 in *.
    assert (n = 52 \/ n = 53 \/ n = 54) as [-> | [-> | ->]] by lia.
    + change (2 ^ 52) with 4503599627370496 in Herr.
      destruct (Z.eq_dec es (-56)) as [->|]; [right; specialize (Hlo eq_refl) | left]; lia.
    + left; lia.
    + left; lia.
  - exact H16.
  - rewrite Hp. apply float_leb_pos.
    change (2 ^ 52) with 4503599627370496 in *.
    change (2 ^ 53) with 9007199254740992 in *.
    assert (n = 52 \/ n = 53 \/ n = 54) as [-> | [-> | ->]] by lia.
    + change (2 ^ 52) with 4503599627370496 in Herr. right. lia.
    + left; lia.
    + left; lia.
Qed.

(** The scale a zoom out computes is not above the current one. *)
Lemma zoom_out_scale_shrinks s :
  Float.valid s = true ->
  Float.leb Float.f0_1 s = true -> Float.leb s Float.f16 = true ->
  Float.leb (zoom_new_scale s zoom_out_factor) s = true.
Proof.
  intros Hv H01 H16.
  destruct (scale_ok_normal s Hv H01 H16) as (ms & es & -> & Hms & Hes & Hlo & Hhi).
  rewrite zoom_out_factor_eq.
  destruct (float_mul_normal false ms es 7832347178035646 (-53) Hms)
    as (mp & n & Hp & Hn & Hmp & Herr).
  { change (2 ^ 52) with 4503599627370496. change (2 ^ 53) with 9007199254740992. lia. }
  { lia. }
  change (2 ^ 52) with 4503599627370496 in *.
  change (2 ^ 53) with 9007199254740992 in *.
  assert (Hn' : n = 52 \/ n = 53).
  { assert (n = 52 \/ n = 53 \/ n = 54) as [-> | [-> | ->]] by lia; [tauto | tauto |].
    exfalso. change (2 ^ 54) with 18014398509481984 in Herr. lia. }
  destruct (zoom_new_scale_cases (S754_finite false ms es)
              (S754_finite false 7832347178035646 (-53))) as [[E _]|[[E Hc]|[E _]]];
    rewrite E; clear E.
  - exact H01.
  - (* the product is above 16: impossible *)
    exfalso. cbv zeta in Hc. rewrite Hp in Hc. unfold Float.f16 in Hc.
    apply float_ltb_pos in Hc.
    destruct Hn' as [-> | ->].
    + lia.
    + change (2 ^ 53) with 9007199254740992 in Herr.
      destruct (Z.eq_dec es (-48)) as [->|]; [specialize (Hhi eq_refl) |]; lia.
  - rewrite Hp. apply float_leb_pos.
    destruct Hn' as [-> | ->].
    + left; lia.
    + change (2 ^ 53) with 9007199254740992 in Herr. right. lia.
Qed.

(** X16: a zoom in never lowers the scale and a zoom out never raises
    it; at the largest scale a zoom in, and at the smallest scale a zoom
    out, changes nothing at all. *)
Theorem zoom_in_out_direction (c : Canvas) (view_rect : QSize) :
  scale_ok c ->
  (forall c', zoom_in c view_rect = Some c' ->
     Float.leb (scale_factor c) (scale_factor c') = true) /\
  (forall c', zoom_out c view_rect = Some c' ->
     Float.leb (scale_factor c') (scale_factor c) = true) /\
  (scale_factor c = Float.f16 -> zoom_in c view_rect = Some c) /\
  (scale_factor c = Float.f0_1 -> zoom_out c view_rect = Some c).
Proof.
  intros (Hv & H01 & H16).
  assert (Hrefl : Float.leb (scale_factor c) (scale_factor c) = true).
  { destruct (scale_ok_normal _ Hv H01 H16) as (ms & es & -> & _).
    apply float_leb_refl_pos. }
  split; [|split; [|split]].
  - intros c' H. unfold zoom_in in H.
    destruct (zoom_at_point_scale _ _ _ _ H) as [-> | [_ ->]]; [exact Hrefl|].
    apply zoom_in_scale_grows; assumption.
  - intros c' H. unfold zoom_out in H.
    destruct (zoom_at_point_scale _ _ _ _ H) as [-> | [_ ->]]; [exact Hrefl|].
    apply zoom_out_scale_shrinks; assumption.
  - intros E. unfold zoom_in, _zoom_at_point. rewrite E.
    replace (Float.ltb _ Float.f0_001) with true by (vm_compute; reflexivity).
    reflexivity.
  - intros E. unfold zoom_out, _zoom_at_point. rewrite E.
    replace (Float.ltb _ Float.f0_001) with true by (vm_compute; reflexivity).
    reflexivity.
Qed.

Lemma zoom_in_out_direction_witness :
  scale_ok zoomed_out_canvas /\
  zoom_out zoomed_out_canvas (mkQSize 640 480) = Some zoomed_out_canvas.
Proof.
  assert (H : scale_ok zoomed_out_canvas) by (vm_compute; repeat split; reflexivity).
  split; [exact H|].
  apply (zoom_in_out_direction zoomed_out_canvas (mkQSize 640 480) H). reflexivity.
Defined.

Lemma zoom_at_point_cases c p factor c' :
  _zoom_at_point c p factor = Some c' ->
  (zoom_negligible (scale_factor c) factor = true /\ c' = c) \/
  (zoom_negligible (scale_factor c) factor = false /\
   scale_factor c' = zoom_new_scale (scale_factor c) factor).
Proof.
  unfold _zoom_at_point, zoom_negligible, zoom_new_scale. intros H.
  destruct (Float.ltb _ _); [inversion H; subst; left; split; reflexivity|].
  revert H. fields.
  destruct (Float.py_round (ptf_x _)) as [dx|]; [|cbn [mbind option_bind]; discriminate].
  cbn [mbind option_bind].
  destruct (Float.py_round (ptf_y _)) as [dy|]; [|cbn [mbind option_bind]; discriminate].
  cbn [mbind option_bind]. intros [= <-]. right. split; reflexivity.
Qed.

(** X17: the wheel zooms only with Ctrl held; and with Ctrl held and a
    vertical delta of zero the factor is 0, so that the scale drops to
    the smallest one, 0.1, unless it is within 0.001 of it already. *)
Theorem wheel_without_delta (c : Canvas) (event : QWheelEvent) :
  (wh_control event = false -> wheelEvent c event = Some c) /\
  (forall c',
     scale_ok c ->
     wh_control event = true -> wh_angle_y event = 0 ->
     wheelEvent c event = Some c' ->
     (zoom_negligible (scale_factor c) (Float.of_int 0) = true /\ c' = c) \/
     (zoom_negligible (scale_factor c) (Float.of_int 0) = false /\
      scale_factor c' = Float.f0_1)).
Proof.
  split.
  - intros Hc. unfold wheelEvent. rewrite Hc. reflexivity.
  - intros c' (Hv & H01 & H16) Hc Hd H. unfold wheelEvent in H. rewrite Hc, Hd in H.
    destruct (QPointF_toPoint _) as [p|]; [|discriminate H].
    cbn [mbind option_bind] in H.
    change (0 <? 0) with false in H. cbv iota in H.
    destruct (zoom_at_point_cases _ _ _ _ H) as [[Hn E]|[Hn E]]; [left; split; assumption|].
    right. split; [exact Hn|]. rewrite E.
    destruct (scale_ok_normal _ Hv H01 H16) as (ms & es & -> & _).
    apply zoom_new_scale_zero.
Qed.

Lemma wheel_without_delta_witness :
  scale_ok red_canvas /\
  wh_control wheel_no_delta = true /\ wh_angle_y wheel_no_delta = 0 /\
  scale_factor red_canvas = Float.f1 /\
  exists c', wheelEvent red_canvas wheel_no_delta = Some c' /\
             scale_factor c' = Float.f0_1.
Proof.
  assert (Hok : scale_ok red_canvas) by (vm_compute; repeat split; reflexivity).
  split; [exact Hok|]. split; [reflexivity|]. split; [reflexivity|].
  split; [reflexivity|].
  destruct (wheelEvent red_canvas wheel_no_delta) as [c'|] eqn:E;
    [|vm_compute in E; discriminate E].
  exists c'. split; [reflexivity|].
  destruct (proj2 (wheel_without_delta red_canvas wheel_no_delta) c' Hok eq_refl eq_refl E)
    as [[Hn _]|[_ Hs]]; [vm_compute in Hn; discriminate Hn | exact Hs].
Defined.

Lemma reset_zoom_cases c view_rect c' :
  reset_zoom c view_rect = Some c' ->
  (float_eqb (scale_factor c) Float.f1 = true /\ c' = c) \/
  (float_eqb (scale_factor c) Float.f1 = false /\ scale_factor c' = Float.f1).
Proof.
  intros H. unfold reset_zoom in H.
  destruct (float_eqb (scale_factor c) Float.f1) eqn:E; cbn [negb] in H.
  - left. split; [reflexivity | inversion H; reflexivity].
  - right. split; [reflexivity|]. revert H. fields.
    destruct (Float.py_round (Float.sub (ptf_x _) _)) as [dx|];
      [|cbn [mbind option_bind]; discriminate].
    cbn [mbind option_bind].
    destruct (Float.py_round (Float.sub (ptf_y _) _)) as [dy|];
      [|cbn [mbind option_bind]; discriminate].
    cbn [mbind option_bind]. intros [= <-]. reflexivity.
Qed.

Lemma reset_zoom_scale c view_rect c' :
  reset_zoom c view_rect = Some c' -> float_eqb (scale_factor c') Float.f1 = true.
Proof.
  intros H. destruct (reset_zoom_cases c view_rect c' H) as [[E ->]|[_ ->]];
    [exact E | vm_compute; reflexivity].
Qed.

(** X18: after a reset the scale equals 1.0; a canvas whose scale equals
    1.0 is left as it is, so that a second reset changes nothing; and a
    reset touches neither the buffer, the history, the tool settings nor
    the notifications. *)
Theorem reset_zoom_to_one (c : Canvas) (view_rect : QSize) (c' : Canvas) :
  reset_zoom c view_rect = Some c' ->
  float_eqb (scale_factor c') Float.f1 = true /\
  (float_eqb (scale_factor c) Float.f1 = true -> c' = c) /\
  (float_eqb (scale_factor c) Float.f1 = false -> scale_factor c' = Float.f1) /\
  document c' = document c /\ tool_state c' = tool_state c /\ emitted c' = emitted c /\
  (forall view_rect', reset_zoom c' view_rect' = Some c').
Proof.
  intros H.
  destruct (reset_zoom_frame c view_rect c' H) as (Hd & Ht & He & _).
  pose proof (reset_zoom_cases c view_rect c' H) as Hcases.
  pose proof (reset_zoom_scale c view_rect c' H) as Heq.
  split; [exact Heq|].
  split; [intros E; destruct Hcases as [[_ ->]|[E' _]]; [reflexivity | congruence]|].
  split; [intros E; destruct Hcases as [[E' _]|[_ Hs]]; [congruence | exact Hs]|].
  split; [exact Hd|]. split; [exact Ht|]. split; [exact He|].
  intros view_rect'. unfold reset_zoom. rewrite Heq. reflexivity.
Qed.

Lemma reset_zoom_to_one_witness :
  exists c',
    reset_zoom zoomed_out_canvas (mkQSize 640 480) = Some c' /\
    scale_factor c' = Float.f1 /\
    reset_zoom c' (mkQSize 1 1) = Some c'.
Proof.
  eexists. split; [reflexivity|].
  split.
  - apply (reset_zoom_to_one zoomed_out_canvas (mkQSize 640 480) _ eq_refl).
    vm_compute. reflexivity.
  - apply (reset_zoom_to_one zoomed_out_canvas (mkQSize 640 480) _ eq_refl).
Defined.

(** X19: New, once confirmed, clears the buffer to transparent, keeps
    its size, resets the scale to 1.0 and can be undone, the history not
    being empty; declined, it changes nothing. *)
Theorem confirm_new_drawing_clears (c : Canvas) (view_rect : QSize) :
  confirm_new_drawing c view_rect false = Some c /\
  (forall c',
     confirm_new_drawing c view_rect true = Some c' ->
     image c' = QImage_fill (image c) px_transparent /\
     _image_size c' = _image_size c /\
     float_eqb (scale_factor c') Float.f1 = true /\
     can_redo c' = false /\
     (undo_stack c <> [] -> live (undo c') = live c)).
Proof.
  split; [reflexivity|].
  intros c' H. unfold confirm_new_drawing in H.
  pose proof (reset_zoom_scale _ _ _ H) as Hs.
  destruct (reset_zoom_frame _ _ _ H) as (Hd & _).
  unfold document, live in Hd. injection Hd as Hi Hz Hu Hr.
  split; [rewrite Hi; reflexivity|]. split; [rewrite Hz; reflexivity|].
  split; [exact Hs|].
  split; [unfold can_redo; rewrite Hr; reflexivity|].
  intros Hne.
  destruct (deque_append_snoc MAX_UNDO_STATES (undo_stack c) (live c)) as (b & l & E);
    [unfold MAX_UNDO_STATES; lia | exact Hne |].
  assert (Hu' : undo_stack c' = b :: l ++ [live c]).
  { rewrite Hu. exact E. }
  apply (undo_top _ _ _ _ Hu').
Qed.

Lemma confirm_new_drawing_clears_witness :
  exists c',
    confirm_new_drawing red_canvas (mkQSize 640 480) true = Some c' /\
    undo_stack red_canvas <> [] /\
    image c' = mkQImage 1 1 [ARGB 0 0 0 0] /\
    live (undo c') = live red_canvas.
Proof.
  destruct (confirm_new_drawing red_canvas (mkQSize 640 480) true) as [c'|] eqn:E;
    [|vm_compute in E; discriminate E].
  exists c'. split; [reflexivity|]. split; [vm_compute; discriminate|].
  destruct (proj2 (confirm_new_drawing_clears red_canvas (mkQSize 640 480)) c' E)
    as (Hi & _ & _ & _ & Hu).
  split; [exact Hi|]. apply Hu. vm_compute. discriminate.
Defined.

(* ================================================================== *)
(** * Saving: the format chosen from the path *)

Lemma str_split_nonempty sep s : str_split sep s <> [].
Proof.
  destruct s as [|a s]; cbn [str_split]; [discriminate|].
  destruct (Ascii.eqb a sep); [discriminate|].
  destruct (str_split sep s); discriminate.
Qed.

Lemma str_split_no_sep sep s : str_contains sep s = false -> str_split sep s = [s].
Proof.
  induction s as [|a s IH]; cbn [str_split str_contains]; [reflexivity|].
  intros H. apply orb_false_iff in H as [Ha Hs].
  rewrite Ha, (IH Hs). reflexivity.
Qed.

Lemma str_split_app sep (s1 s2 : string) :
  str_split sep (s1 ++ String sep s2)%string = str_split sep s1 ++ str_split sep s2.
Proof.
  induction s1 as [|a s1 IH].
  - change (str_split sep (String sep s2) = [EmptyString] ++ str_split sep s2).
    cbn [str_split]. rewrite Ascii.eqb_refl. reflexivity.
  - change (str_split sep (String a (s1 ++ String sep s2))
            = str_split sep (String a s1) ++ str_split sep s2).
    cbn [str_split]. rewrite IH. destruct (Ascii.eqb a sep); [reflexivity|].
    pose proof (str_split_nonempty sep s1) as Hne.
    destruct (str_split sep s1) as [|p ps]; [congruence|]. reflexivity.
Qed.

Lemma str_lower_app (s1 s2 : string) :
  str_lower (s1 ++ s2)%string = (str_lower s1 ++ str_lower s2)%string.
Proof.
  induction s1 as [|a s1 IH]; [reflexivity|].
  change (str_lower (String a (s1 ++ s2)) = String (ascii_lower a) (str_lower s1 ++ str_lower s2)).
  cbn [str_lower]. rewrite IH. reflexivity.
Qed.

Lemma ascii_lower_dot a : Ascii.eqb (ascii_lower a) "." = Ascii.eqb a ".".
Proof. destruct a as [[] [] [] [] [] [] [] []]; vm_compute; reflexivity. Qed.

Lemma str_lower_contains_dot s : str_contains "." (str_lower s) = str_contains "." s.
Proof.
  induction s as [|a s IH]; cbn [str_lower str_contains]; [reflexivity|].
  rewrite ascii_lower_dot, IH. reflexivity.
Qed.

(** X20: the format of a saved file depends on nothing but the part of
    the path after its last dot, whatever its letter case: png gives
    PNG, jpg and jpeg give JPEG on a white background, bmp gives BMP and
    anything else the warning; a path without a dot always gets the
    warning, and the empty path of a cancelled dialog saves nothing. *)
Theorem save_drawing_format :
  save_drawing "" = Save_cancelled /\
  (forall path : string,
     path <> ""%string -> str_contains "." path = false ->
     save_drawing path = Save_unsupported) /\
  (forall base ext : string,
     str_contains "." ext = false ->
     save_drawing (base ++ "." ++ ext) = extension_format (str_lower ext)).
Proof.
  split; [reflexivity|]. split.
  - intros path Hne Hdot. unfold save_drawing.
    destruct (String.eqb_spec path ""); [congruence|]. cbn [negb].
    rewrite str_split_no_sep by (rewrite str_lower_contains_dot; exact Hdot).
    reflexivity.
  - intros base ext Hdot. unfold save_drawing.
    destruct (String.eqb_spec (base ++ "." ++ ext) "") as [E|_].
    { destruct base; discriminate E. }
    cbn [negb]. rewrite str_lower_app.
    change (str_lower ("." ++ ext)) with (String "." (str_lower ext)).
    rewrite str_split_app.
    rewrite (str_split_no_sep "." (str_lower ext))
      by (rewrite str_lower_contains_dot; exact Hdot).
    pose proof (str_split_nonempty "." (str_lower base)) as Hne.
    destruct (str_split "." (str_lower base)) as [|p ps] eqn:Eb; [congruence|].
    replace (1 <? length ((p :: ps) ++ [str_lower ext]))%nat with true
      by (symmetry; apply Nat.ltb_lt; rewrite length_app; simpl; lia).
    rewrite last_snoc. reflexivity.
Qed.

Lemma save_drawing_format_witness :
  str_contains "." "JPG" = false /\
  save_drawing "holiday.2024.JPG" = Save_as "JPEG" true /\
  save_drawing "untitled" = Save_unsupported.
Proof.
  split; [reflexivity|]. split.
  - apply (proj2 (proj2 save_drawing_format) "holiday.2024" "JPG"). reflexivity.
  - apply (proj1 (proj2 save_drawing_format) "untitled"); [discriminate | reflexivity].
Defined.

(* ================================================================== *)
(** * More on resizing *)

(** Two well-formed images of the same size with the same pixels are
    the same image. *)
Lemma QImage_ext (a b : QImage) :
  QImage_wf a -> QImage_wf b -> QImage_size a = QImage_size b ->
  (forall x y, QImage_contains a x y = true -> pixelColor a x y = pixelColor b x y) ->
  a = b.
Proof.
  intros Ha Hb Hsz Hpix.
  destruct a as [w h la], b as [w' h' lb]. unfold QImage_size in Hsz.
  cbn [image_width image_height] in Hsz. injection Hsz as <- <-.
  f_equal. apply list_eq. intros i.
  destruct Ha as (Hw & Hh & Hla), Hb as (_ & _ & Hlb).
  cbn [image_width image_height image_bits] in *.
  destruct (decide (i < length la)%nat) as [Hi|Hi].
  2:{ rewrite !lookup_ge_None_2 by lia. reflexivity. }
  assert (Hwpos : 0 < w) by nia.
  set (x := Z.of_nat i mod w). set (y := Z.of_nat i / w).
  assert (Hx : 0 <= x < w) by (apply Z.mod_pos_bound; lia).
  assert (Hy0 : 0 <= y) by (apply Z.div_pos; lia).
  assert (Hi' : Z.of_nat i = y * w + x).
  { unfold x, y. rewrite (Z.mul_comm _ w). apply Z.div_mod. lia. }
  assert (Hy : y < h) by nia.
  assert (Hin : QImage_contains (mkQImage w h la) x y = true)
    by (apply QImage_contains_spec; cbn [image_width image_height]; lia).
  assert (Hin' : QImage_contains (mkQImage w h lb) x y = true)
    by (apply QImage_contains_spec; cbn [image_width image_height]; lia).
  specialize (Hpix x y Hin).
  unfold pixelColor in Hpix. rewrite Hin, Hin' in Hpix.
  unfold pixel_index in Hpix. cbn [image_width image_bits] in Hpix.
  rewrite <- Hi', Nat2Z.id in Hpix.
  destruct (lookup_lt_is_Some_2 la i Hi) as [pa Epa].
  destruct (lookup_lt_is_Some_2 lb i ltac:(lia)) as [pb Epb].
  rewrite Epa, Epb in Hpix |- *. congruence.
Qed.

(** The pixels of a buffer resized to another size. *)
Lemma resize_canvas_pixels c w h x y :
  buffer_ok (live c) -> 0 < w <= MAX_CANVAS_DIM -> 0 < h <= MAX_CANVAS_DIM ->
  mkQSize w h <> _image_size c ->
  0 <= x < w -> 0 <= y < h ->
  if QImage_contains (image c) x y
  then drawn_as (pixelColor (image c) x y) (pixelColor (image (resize_canvas c w h)) x y)
  else pixelColor (image (resize_canvas c w h)) x y = Qt_transparent.
Proof.
  unfold buffer_ok, live. cbn [fst snd]. intros (Hwf & Hsz & _) Hw Hh Hne Hx Hy.
  unfold resize_canvas. rewrite (resize_canvas_in_range w h Hw Hh).
  rewrite decide_False by exact Hne.
  fields. unfold _save_state. cbn [negb]. fields. rewrite <- Hsz.
  apply pixelColor_drawImage; first [assumption | lia].
Qed.

(** The pixels of a resized buffer whose pixels are all copied as they
    are, whether or not the size changes. *)
Lemma resize_canvas_pixels_verbatim c w h x y :
  buffer_ok (live c) -> pixels_verbatim (image c) ->
  0 < w <= MAX_CANVAS_DIM -> 0 < h <= MAX_CANVAS_DIM ->
  0 <= x < w -> 0 <= y < h ->
  pixelColor (image (resize_canvas c w h)) x y
  = if QImage_contains (image c) x y then pixelColor (image c) x y else Qt_transparent.
Proof.
  intros Hok Hverb Hw Hh Hx Hy.
  destruct (decide (mkQSize w h = _image_size c)) as [E|Hne].
  - assert (Er : resize_canvas c w h = c).
    { unfold resize_canvas. rewrite (resize_canvas_in_range w h Hw Hh).
      rewrite decide_True by exact E. reflexivity. }
    rewrite Er.
    destruct Hok as (_ & Hsz & _). unfold live in Hsz. cbn [fst snd] in Hsz.
    rewrite <- Hsz in E. unfold QImage_size in E. injection E as Ew Eh.
    replace (QImage_contains (image c) x y) with true
      by (symmetry; apply QImage_contains_spec; lia).
    reflexivity.
  - pose proof (resize_canvas_pixels c w h x y Hok Hw Hh Hne Hx Hy) as Hpix.
    destruct (QImage_contains (image c) x y) eqn:Hin; [|exact Hpix].
    destruct (Hverb x y Hin) as (px & Epx & Hpx). rewrite Epx in Hpix |- *.
    apply Hpix. exact Hpx.
Qed.

Lemma resize_canvas_size c w h :
  resize_canvas_raises w h = false -> _image_size (resize_canvas c w h) = mkQSize w h.
Proof.
  intros Hfits. unfold resize_canvas. rewrite Hfits. case_match; [congruence | reflexivity].
Qed.

Lemma resize_canvas_live_ok c w h :
  buffer_ok (live c) -> 0 < w -> 0 < h -> buffer_ok (live (resize_canvas c w h)).
Proof.
  intros Hok Hw Hh.
  destruct (resize_canvas_cases c w h) as [E|(_ & _ & E)]; rewrite E; [exact Hok|].
  unfold buffer_ok, live. cbn [fst snd]. fields.
  rewrite QImage_filled_pos by assumption.
  unfold QPainter_drawImage. cbn [image_width image_height].
  split; [apply QImage_tabulate_wf; lia|].
  split; [reflexivity|]. cbn [sz_width sz_height]. lia.
Qed.

(** X21: for a buffer whose pixels are all opaque or [0 0 0 0], resizing
    and then resizing back to the first size keeps the pixels that
    fitted in the size in between and clears the others; in particular
    such a buffer enlarged and brought back to its size is the same
    buffer as before.  (All dimensions within the range of the resize
    dialog.) *)
Theorem resize_there_and_back (c : Canvas) (w' h' : Z) :
  buffer_ok (live c) -> pixels_verbatim (image c) ->
  0 < w' <= MAX_CANVAS_DIM -> 0 < h' <= MAX_CANVAS_DIM ->
  sz_width (_image_size c) <= MAX_CANVAS_DIM ->
  sz_height (_image_size c) <= MAX_CANVAS_DIM ->
  let w := sz_width (_image_size c) in
  let h := sz_height (_image_size c) in
  let c' := resize_canvas (resize_canvas c w' h') w h in
  _image_size c' = _image_size c /\
  (forall x y, 0 <= x < w -> 0 <= y < h ->
     pixelColor (image c') x y
     = if (x <? w') && (y <? h') then pixelColor (image c) x y else Qt_transparent) /\
  (w <= w' -> h <= h' -> live c' = live c).
Proof.
  intros Hok Hverb Hw' Hh' Hwmax Hhmax w h c'.
  pose proof Hok as (Hwf & Hsz & Hw & Hh). unfold live in Hwf, Hsz, Hw, Hh.
  cbn [fst snd] in Hwf, Hsz, Hw, Hh. fold w in Hw, Hwmax. fold h in Hh, Hhmax.
  assert (Hwr : 0 < w <= MAX_CANVAS_DIM) by lia.
  assert (Hhr : 0 < h <= MAX_CANVAS_DIM) by lia.
  assert (Hdim : image_width (image c) = w /\ image_height (image c) = h)
    by (unfold w, h; rewrite <- Hsz; split; reflexivity).
  pose proof (resize_canvas_live_ok c w' h' Hok ltac:(lia) ltac:(lia)) as Hok1.
  pose proof (resize_canvas_live_ok _ w h Hok1 Hw Hh) as Hok2. fold c' in Hok2.
  assert (Hs1 : QImage_size (image (resize_canvas c w' h')) = mkQSize w' h').
  { destruct Hok1 as (_ & E & _). unfold live in E. cbn [fst snd] in E.
    rewrite E. apply resize_canvas_size, resize_canvas_in_range; assumption. }
  pose proof Hs1 as Hs1'. unfold QImage_size in Hs1'. injection Hs1' as Ew Eh.
  assert (Hverb1 : pixels_verbatim (image (resize_canvas c w' h'))).
  { intros x y Hin. apply QImage_contains_spec in Hin. rewrite Ew, Eh in Hin.
    rewrite (resize_canvas_pixels_verbatim c w' h' x y Hok Hverb Hw' Hh') by lia.
    destruct (QImage_contains (image c) x y) eqn:Hin0; [exact (Hverb x y Hin0)|].
    exists px_transparent. split; [reflexivity | left; reflexivity]. }
  assert (Hsize : _image_size c' = _image_size c).
  { unfold c'. rewrite resize_canvas_size by (apply resize_canvas_in_range; assumption).
    unfold w, h. destruct (_image_size c); reflexivity. }
  assert (Hpix : forall x y, 0 <= x < w -> 0 <= y < h ->
            pixelColor (image c') x y
            = if (x <? w') && (y <? h') then pixelColor (image c) x y else Qt_transparent).
  { intros x y Hx Hy. unfold c'.
    rewrite (resize_canvas_pixels_verbatim _ w h x y Hok1 Hverb1 Hwr Hhr Hx Hy).
    unfold QImage_contains at 1. rewrite Ew, Eh.
    replace (0 <=? x) with true by (symmetry; apply Z.leb_le; lia).
    replace (0 <=? y) with true by (symmetry; apply Z.leb_le; lia).
    cbn [andb]. rewrite andb_true_r.
    destruct (Z.ltb_spec x w'); cbn [andb]; [|reflexivity].
    destruct (Z.ltb_spec y h'); [|reflexivity].
    rewrite (resize_canvas_pixels_verbatim c w' h' x y Hok Hverb Hw' Hh') by lia.
    replace (QImage_contains (image c) x y) with true; [reflexivity|].
    symmetry. apply QImage_contains_spec. lia. }
  split; [exact Hsize|]. split; [exact Hpix|].
  intros Hle_w Hle_h. unfold live. rewrite Hsize. f_equal.
  destruct Hok2 as (Hwf2 & Hsz2 & _). unfold live in Hwf2, Hsz2. cbn [fst snd] in Hwf2, Hsz2.
  apply QImage_ext; [exact Hwf2 | exact Hwf | congruence |].
  intros x y Hin. apply QImage_contains_spec in Hin.
  assert (Hd : QImage_size (image c') = mkQSize w h).
  { rewrite Hsz2, Hsize. unfold w, h. destruct (_image_size c); reflexivity. }
  unfold QImage_size in Hd. injection Hd as Ew2 Eh2. rewrite Ew2, Eh2 in Hin.
  rewrite (Hpix x y) by lia.
  replace (x <? w') with true by (symmetry; apply Z.ltb_lt; lia).
  replace (y <? h') with true by (symmetry; apply Z.ltb_lt; lia).
  reflexivity.
Qed.

Lemma resize_there_and_back_witness :
  buffer_ok (live red_canvas) /\
  pixels_verbatim (image red_canvas) /\
  live (resize_canvas (resize_canvas red_canvas 3 2) 1 1) = live red_canvas.
Proof.
  assert (H : buffer_ok (live red_canvas)).
  { vm_compute. repeat split; try discriminate; reflexivity. }
  assert (Hv : pixels_verbatim (image red_canvas)).
  { intros x y Hin. apply QImage_contains_spec in Hin.
    change (image_width (image red_canvas)) with 1 in Hin.
    change (image_height (image red_canvas)) with 1 in Hin.
    assert (x = 0 /\ y = 0) as [-> ->] by lia.
    exists (ARGB 255 0 0 255). split; [reflexivity|].
    right. cbn [alpha red green blue]. lia. }
  split; [exact H|]. split; [exact Hv|].
  apply (resize_there_and_back red_canvas 3 2 H Hv);
    first [ unfold MAX_CANVAS_DIM; lia
          | vm_compute; first [reflexivity | discriminate] ].
Defined.

(** X22: [_check_image_size] leaves a canvas alone whose image is of the
    recorded size, which is the case in every state the user can reach;
    otherwise it installs an image of the recorded size on which the old
    one has been drawn: where both have a pixel, an opaque pixel and a
    pixel [0 0 0 0] are kept, a pixel of alpha 0 becomes [0 0 0 0] and
    any pixel keeps its alpha; elsewhere the image is transparent.
    Either way the sizes agree afterwards, and a second check changes
    nothing. *)
Theorem check_image_size_restores (c : Canvas) :
  (QImage_size (image c) = _image_size c -> _check_image_size c = c) /\
  (forall dp dl h v actions,
     (forall pen mode p, keeps_size (dp pen mode p)) ->
     (forall pen mode p q, keeps_size (dl pen mode p q)) ->
     Forall action_ok actions ->
     perform_all dp dl (Canvas_init h v) actions = Some c ->
     _check_image_size c = c) /\
  (QImage_wf (image c) ->
   0 < sz_width (_image_size c) <= MAX_CANVAS_DIM ->
   0 < sz_height (_image_size c) <= MAX_CANVAS_DIM ->
   let c' := _check_image_size c in
   QImage_wf (image c') /\
   QImage_size (image c') = _image_size c /\
   _image_size c' = _image_size c /\
   _check_image_size c' = c' /\
   (QImage_size (image c) <> _image_size c ->
    forall x y,
      0 <= x < sz_width (_image_size c) -> 0 <= y < sz_height (_image_size c) ->
      if QImage_contains (image c) x y
      then drawn_as (pixelColor (image c) x y) (pixelColor (image c') x y)
      else pixelColor (image c') x y = Qt_transparent)).
Proof.
  assert (Hsame : QImage_size (image c) = _image_size c -> _check_image_size c = c).
  { intros E. unfold _check_image_size. rewrite bool_decide_eq_true_2 by exact E.
    reflexivity. }
  split; [exact Hsame|]. split.
  - intros dp dl h v actions Hdp Hdl Hact H. apply Hsame.
    pose proof (perform_all_preserves dp dl buffers_ok action_ok
                  (fun c0 a c1 Ha => perform_buffers_ok dp dl c0 a c1 Hdp Hdl Ha)
                  actions _ _ Hact (Canvas_init_buffers h v) H) as ((_ & E & _) & _).
    exact E.
  - intros Hwf [Hw _] [Hh _] c'.
    destruct (decide (QImage_size (image c) = _image_size c)) as [E|E].
    + unfold c'. rewrite (Hsame E).
      split; [exact Hwf|]. split; [exact E|]. split; [reflexivity|].
      split; [exact (Hsame E)|]. intros Hne. contradiction.
    + assert (Hc' : c' = set_image
                (QPainter_drawImage (QImage_size (image c)) (image c)
                   (QImage_filled (_image_size c) px_transparent)) c).
      { unfold c', _check_image_size. rewrite bool_decide_eq_false_2 by exact E.
        reflexivity. }
      destruct (_image_size c) as [w h] eqn:Es. cbn [sz_width sz_height] in *.
      assert (Hsz' : QImage_size (image c') = mkQSize w h).
      { rewrite Hc'. cbn [image set_image]. rewrite QImage_filled_pos by assumption.
        reflexivity. }
      split.
      { rewrite Hc'. cbn [image set_image]. rewrite QImage_filled_pos by assumption.
        unfold QPainter_drawImage. cbn [image_width image_height].
        apply QImage_tabulate_wf; lia. }
      split; [exact Hsz'|].
      split; [rewrite Hc'; cbn [_image_size set_image]; exact Es|].
      split.
      * unfold _check_image_size at 1.
        rewrite bool_decide_eq_true_2; [reflexivity|].
        rewrite Hsz'. rewrite Hc'. cbn [_image_size set_image]. symmetry. exact Es.
      * intros _ x y Hx Hy. rewrite Hc'. cbn [image set_image].
        rewrite (pixelColor_drawImage_rect (image c) _ w h x y Hwf Hw Hh Hx Hy).
        cbn [QImage_size sz_width sz_height].
        destruct (QImage_contains (image c) x y) eqn:Hin; [|rewrite andb_false_r; reflexivity].
        rewrite (pixelColor_wf (image c) x y Hwf Hin).
        apply QImage_contains_spec in Hin.
        replace (x <? image_width (image c)) with true by (symmetry; apply Z.ltb_lt; lia).
        replace (y <? image_height (image c)) with true by (symmetry; apply Z.ltb_lt; lia).
        cbn [andb]. apply drawn_as_compose.
Qed.

Lemma check_image_size_restores_witness :
  QImage_wf (image mismatched_canvas) /\
  QImage_size (image mismatched_canvas) <> _image_size mismatched_canvas /\
  image (_check_image_size mismatched_canvas)
    = mkQImage 2 1 [ARGB 255 0 0 255; ARGB 0 0 0 0] /\
  QImage_size (image (_check_image_size mismatched_canvas))
    = _image_size mismatched_canvas.
Proof.
  assert (H : QImage_wf (image mismatched_canvas)) by (vm_compute; repeat split; discriminate).
  split; [exact H|]. split; [vm_compute; discriminate|].
  split; [vm_compute; reflexivity|].
  apply (proj2 (proj2 (check_image_size_restores mismatched_canvas)) H);
    vm_compute; split; first [reflexivity | discriminate].
Defined.

(* ================================================================== *)
(** * More on the tools *)

Lemma set_tool_current c tool : current_tool (set_tool c tool) = str_lower tool.
Proof.
  unfold set_tool. destruct (String.eqb_spec (str_lower tool) (current_tool c)) as [E|_];
    cbn [negb]; [symmetry; exact E | reflexivity].
Qed.

(** X23: selecting the tool that is selected already, in whatever letter
    case, changes nothing; so selecting a tool twice is selecting it
    once. *)
Theorem set_tool_again (c : Canvas) (tool tool' : string) :
  (str_lower tool = current_tool c -> set_tool c tool = c) /\
  (str_lower tool' = str_lower tool ->
   set_tool (set_tool c tool) tool' = set_tool c tool).
Proof.
  assert (H : forall d t, str_lower t = current_tool d -> set_tool d t = d).
  { intros d t E. unfold set_tool. rewrite E, String.eqb_refl. reflexivity. }
  split; [apply H|].
  intros E. apply H. rewrite set_tool_current. exact E.
Qed.

Lemma set_tool_again_witness :
  str_lower "BRUSH" = current_tool canvas0 /\
  str_lower "ERASER" = str_lower "Eraser" /\
  set_tool (set_tool canvas0 "Eraser") "ERASER" = set_tool canvas0 "Eraser".
Proof.
  split; [reflexivity|]. split; [reflexivity|].
  apply (proj2 (set_tool_again canvas0 "Eraser" "ERASER")). reflexivity.
Defined.

Lemma current_pen_size_brush c : current_tool c = "brush"%string -> current_pen_size c = brush_size c.
Proof. unfold current_pen_size. intros ->. reflexivity. Qed.

Lemma current_pen_size_eraser c :
  current_tool c = "eraser"%string -> current_pen_size c = eraser_size c.
Proof. unfold current_pen_size. intros ->. reflexivity. Qed.

(** X24: each tool keeps a size of its own: what is done to the size
    while the eraser is selected leaves the size of the brush alone, and
    the other way round; and with a tool that has no size (the bucket)
    neither setter, nor the size keys, change anything. *)
Theorem pen_size_per_tool (c : Canvas) :
  (current_tool c = "brush"%string ->
   forall n d,
     current_pen_size
       (set_tool (adjust_size (set_pen_size (set_tool c "eraser") n) d) "brush")
     = current_pen_size c) /\
  (current_tool c = "eraser"%string ->
   forall n d,
     current_pen_size
       (set_tool (adjust_size (set_pen_size (set_tool c "brush") n) d) "eraser")
     = current_pen_size c) /\
  (has_pen c = false ->
   current_pen_size c = 1 /\
   forall n d key,
     set_pen_size c n = c /\ adjust_size c d = c /\ keyPressEvent c key = c).
Proof.
  split; [|split].
  - intros Ht n d.
    set (c1 := set_tool c "eraser").
    assert (Ht1 : current_tool c1 = "eraser"%string) by apply set_tool_current.
    assert (Hb1 : brush_size c1 = brush_size c) by apply set_tool_frame.
    set (c2 := set_pen_size c1 n).
    assert (H2 : current_tool c2 = "eraser"%string /\ brush_size c2 = brush_size c).
    { unfold c2, set_pen_size. rewrite Ht1. cbn [String.eqb Ascii.eqb Bool.eqb andb].
      case_match; fields; split; assumption. }
    destruct H2 as [Ht2 Hb2].
    set (c3 := adjust_size c2 d).
    assert (H3 : brush_size c3 = brush_size c).
    { unfold c3, adjust_size. rewrite Ht2. cbn [String.eqb Ascii.eqb Bool.eqb andb].
      case_match; fields; assumption. }
    rewrite (current_pen_size_brush _ (set_tool_current c3 "brush")).
    rewrite (proj1 (proj2 (proj2 (proj2 (set_tool_frame c3 "brush"))))).
    rewrite H3. symmetry. apply current_pen_size_brush, Ht.
  - intros Ht n d.
    set (c1 := set_tool c "brush").
    assert (Ht1 : current_tool c1 = "brush"%string) by apply set_tool_current.
    assert (He1 : eraser_size c1 = eraser_size c) by apply set_tool_frame.
    set (c2 := set_pen_size c1 n).
    assert (H2 : current_tool c2 = "brush"%string /\ eraser_size c2 = eraser_size c).
    { unfold c2, set_pen_size. rewrite Ht1. cbn [String.eqb Ascii.eqb Bool.eqb andb].
      case_match; fields; split; assumption. }
    destruct H2 as [Ht2 He2].
    set (c3 := adjust_size c2 d).
    assert (H3 : eraser_size c3 = eraser_size c).
    { unfold c3, adjust_size. rewrite Ht2. cbn [String.eqb Ascii.eqb Bool.eqb andb].
      case_match; fields; assumption. }
    rewrite (current_pen_size_eraser _ (set_tool_current c3 "eraser")).
    rewrite (proj2 (proj2 (proj2 (proj2 (set_tool_frame c3 "eraser"))))).
    rewrite H3. symmetry. apply current_pen_size_eraser, Ht.
  - unfold has_pen. intros H. apply orb_false_iff in H as [Hb He].
    split; [unfold current_pen_size; rewrite Hb, He; reflexivity|].
    intros n d key.
    assert (Ha : forall d0, adjust_size c d0 = c)
      by (intros d0; unfold adjust_size; rewrite Hb, He; reflexivity).
    split; [unfold set_pen_size; rewrite Hb, He; reflexivity|].
    split; [apply Ha|].
    unfold keyPressEvent. rewrite Hb, He. reflexivity.
Qed.

Lemma pen_size_per_tool_witness :
  current_tool canvas0 = "brush"%string /\
  current_pen_size
    (set_tool (adjust_size (set_pen_size (set_tool canvas0 "eraser") 40) 7) "brush")
  = current_pen_size canvas0.
Proof.
  split; [reflexivity|].
  apply (proj1 (pen_size_per_tool canvas0)). reflexivity.
Defined.

(** X25: the size keys: with the brush or the eraser, + and = make the
    pen one larger up to 100 and - one smaller down to 1, and the size is
    notified exactly when it changes; a plus followed by a minus, below
    100, gives the size back; other keys do nothing. *)
Theorem keyPressEvent_sizes (c : Canvas) :
  sizes_ok c -> has_pen c = true ->
  (forall key,
     current_pen_size (keyPressEvent c key) =
       match key with
       | Key_Plus | Key_Equal => Z.min (current_pen_size c + 1) MAX_PEN_SIZE
       | Key_Minus => Z.max (current_pen_size c - 1) MIN_PEN_SIZE
       | Key_other => current_pen_size c
       end /\
     emitted (keyPressEvent c key) = emitted c ++
       (if decide (current_pen_size (keyPressEvent c key) = current_pen_size c) then []
        else [pen_size_changed (current_pen_size (keyPressEvent c key))])) /\
  keyPressEvent c Key_Equal = keyPressEvent c Key_Plus /\
  (current_pen_size c < MAX_PEN_SIZE ->
   current_pen_size (keyPressEvent (keyPressEvent c Key_Plus) Key_Minus)
   = current_pen_size c).
Proof.
  intros Hok Hpen.
  pose proof (sizes_ok_pen_size c Hok) as Hsz.
  unfold MIN_PEN_SIZE, MAX_PEN_SIZE in *.
  assert (Hkey : forall d key, has_pen d = true ->
            keyPressEvent d key = match key with
                                  | Key_Plus | Key_Equal => adjust_size d 1
                                  | Key_Minus => adjust_size d (-1)
                                  | Key_other => d
                                  end).
  { intros d key Hd. unfold keyPressEvent. unfold has_pen in Hd. rewrite Hd.
    destruct key; reflexivity. }
  split; [|split].
  - intros key. rewrite (Hkey c key Hpen).
    destruct key.
    + destruct (adjust_size_spec c 1) as [E1 E2]. rewrite Hpen in E1.
      split; [rewrite E1; unfold clamp_pen_size, MIN_PEN_SIZE, MAX_PEN_SIZE; lia | exact E2].
    + destruct (adjust_size_spec c 1) as [E1 E2]. rewrite Hpen in E1.
      split; [rewrite E1; unfold clamp_pen_size, MIN_PEN_SIZE, MAX_PEN_SIZE; lia | exact E2].
    + destruct (adjust_size_spec c (-1)) as [E1 E2]. rewrite Hpen in E1.
      split; [rewrite E1; unfold clamp_pen_size, MIN_PEN_SIZE, MAX_PEN_SIZE; lia | exact E2].
    + split; [reflexivity|]. rewrite decide_True by reflexivity.
      rewrite app_nil_r. reflexivity.
  - rewrite !(Hkey c _ Hpen). reflexivity.
  - intros Hlt. rewrite (Hkey c Key_Plus Hpen).
    assert (Hpen' : has_pen (adjust_size c 1) = true).
    { unfold has_pen in *. rewrite (proj1 (proj2 (proj2 (adjust_size_frame c 1)))). exact Hpen. }
    rewrite (Hkey _ Key_Minus Hpen').
    destruct (adjust_size_spec (adjust_size c 1) (-1)) as [E1 _]. rewrite Hpen' in E1.
    destruct (adjust_size_spec c 1) as [E2 _]. rewrite Hpen in E2.
    rewrite E1, E2. unfold clamp_pen_size, MIN_PEN_SIZE, MAX_PEN_SIZE. lia.
Qed.

Lemma keyPressEvent_sizes_witness :
  sizes_ok canvas0 /\ has_pen canvas0 = true /\
  current_pen_size (keyPressEvent canvas0 Key_Plus) = 6 /\
  current_pen_size (keyPressEvent (keyPressEvent canvas0 Key_Plus) Key_Minus) = 5.
Proof.
  assert (Hok : sizes_ok canvas0).
  { unfold sizes_ok. repeat split; vm_compute; first [discriminate | reflexivity]. }
  split; [exact Hok|]. split; [reflexivity|].
  destruct (keyPressEvent_sizes canvas0 Hok eq_refl) as (H1 & _ & H3).
  split; [exact (proj1 (H1 Key_Plus)) | apply H3; vm_compute; reflexivity].
Defined.

(* ================================================================== *)
(** * Notifications *)

Lemma announces_nothing c c' :
  emitted c' = emitted c -> undo_stack c' = undo_stack c ->
  redo_stack c' = redo_stack c -> current_color c' = current_color c ->
  announces c c' [].
Proof.
  intros He Hu Hr Hc. unfold announces. rewrite He, Hu, Hr, Hc, app_nil_r.
  split; [reflexivity|]. split; [intros [?|?]; congruence | congruence].
Qed.

Lemma announces_history c c' :
  emitted c' = emitted c ++ [history_changed] ->
  current_color c' = current_color c ->
  announces c c' [history_changed].
Proof.
  intros He Hc. unfold announces. rewrite He, Hc.
  split; [reflexivity|]. split; [intros _; apply list_elem_of_singleton; reflexivity | congruence].
Qed.

Lemma announces_refl c : announces c c [].
Proof. apply announces_nothing; reflexivity. Qed.

Lemma undo_announces c : exists new, announces c (undo c) new.
Proof.
  destruct (can_undo c) eqn:Hcan.
  - destruct (can_undo_snoc c Hcan) as (b & l & e & Hs).
    exists [history_changed]. unfold undo. rewrite Hcan. cbn [negb]. fields.
    rewrite Hs. change (b :: l ++ [e]) with ((b :: l) ++ [e]). rewrite deque_pop_snoc.
    destruct e as [prev_image prev_size]. apply announces_history; reflexivity.
  - exists []. unfold undo. rewrite Hcan. apply announces_refl.
Qed.

Lemma redo_announces c : exists new, announces c (redo c) new.
Proof.
  destruct (can_redo c) eqn:Hcan.
  - destruct (can_redo_snoc c Hcan) as (r & n & Hs).
    exists [history_changed]. unfold redo. rewrite Hcan. cbn [negb]. fields.
    rewrite Hs. rewrite deque_pop_snoc.
    destruct n as [next_image next_size]. apply announces_history; reflexivity.
  - exists []. unfold redo. rewrite Hcan. apply announces_refl.
Qed.

Lemma clear_canvas_announces c : announces c (clear_canvas c) [history_changed].
Proof. apply announces_history; reflexivity. Qed.

Lemma resize_canvas_announces c w h : exists new, announces c (resize_canvas c w h) new.
Proof.
  destruct (resize_canvas_cases c w h) as [E|(_ & _ & E)]; rewrite E.
  - exists []. apply announces_refl.
  - exists [history_changed]. apply announces_history; reflexivity.
Qed.

Lemma announces_frame c c1 c' new :
  announces c c1 new ->
  emitted c' = emitted c1 -> document c' = document c1 -> tool_state c' = tool_state c1 ->
  announces c c' new.
Proof.
  unfold announces, document, tool_state.
  intros (H1 & H2 & H3) He [= _ _ Hu Hr] [= _ Hc _ _].
  rewrite He, Hu, Hr, Hc. split; [exact H1|]. split; assumption.
Qed.

(** X26: nothing changes the history without [history_changed] being
    sent, and nothing changes the colour without [color_changed] being
    sent with the new colour; and no action takes back a notification
    already sent. *)
Theorem changes_are_announced dp dl (c : Canvas) (a : action) (c' : Canvas) :
  perform dp dl c a = Some c' ->
  exists new, announces c c' new.
Proof.
  intros H.
  destruct (is_view_action a) eqn:Hv.
  { destruct (view_action_frame dp dl c a c' Hv H) as (Hd & Ht & He & _).
    exists []. apply (announces_frame c c c' [] (announces_refl c) He Hd Ht). }
  destruct a; try discriminate Hv; cbn [perform] in H.
  - (* set_tool *)
    inversion H; subst; clear H. unfold set_tool. case_match.
    + eexists [_]. unfold announces. fields.
      split; [reflexivity|]. split; [intros [?|?]; congruence | congruence].
    + exists []. apply announces_refl.
  - (* set_color *)
    inversion H; subst; clear H. unfold set_color. case_match.
    + exists [color_changed color]. unfold announces. fields.
      split; [reflexivity|].
      split; [intros [?|?]; congruence | intros _; apply list_elem_of_singleton; reflexivity].
    + exists []. apply announces_refl.
  - (* set_pen_size *)
    inversion H; subst; clear H. exists [].
    destruct (set_pen_size_frame c size) as (Hd & _ & _ & Hc).
    unfold document in Hd. injection Hd as _ _ Hu Hr.
    apply announces_nothing; try assumption.
    apply (set_pen_size_spec c size).
  - (* adjust_size *)
    inversion H; subst; clear H.
    destruct (adjust_size_frame c delta) as (Hd & _ & _ & Hc).
    unfold document in Hd. injection Hd as _ _ Hu Hr.
    eexists. unfold announces. rewrite Hu, Hr, Hc.
    split; [apply (adjust_size_spec c delta)|].
    split; [intros [?|?]; congruence | congruence].
  - (* keyPressEvent *)
    inversion H; subst; clear H.
    destruct (keyPressEvent_frame c key) as (Hd & _ & _ & Hc).
    unfold document in Hd. injection Hd as _ _ Hu Hr.
    assert (He : exists new, emitted (keyPressEvent c key) = emitted c ++ new).
    { unfold keyPressEvent. destruct (_ || _); [|exists []; rewrite app_nil_r; reflexivity].
      destruct key; first [eexists; apply (adjust_size_spec c _)
                          | exists []; rewrite app_nil_r; reflexivity]. }
    destruct He as [new He]. exists new. unfold announces. rewrite Hu, Hr, Hc.
    split; [exact He|]. split; [intros [?|?]; congruence | congruence].
  - inversion H; subst. exists [history_changed]. apply clear_canvas_announces.
  - unfold confirm_new_drawing in H. destruct yes.
    + destruct (reset_zoom_frame _ _ _ H) as (Hd & Ht & He & _).
      exists [history_changed].
      apply (announces_frame c (clear_canvas c) c' _ (clear_canvas_announces c) He Hd Ht).
    + inversion H; subst. exists []. apply announces_refl.
  - inversion H; subst. apply undo_announces.
  - inversion H; subst. apply redo_announces.
  - inversion H; subst. unfold show_resize_dialog.
    destruct (accepted u); [|exists []; apply announces_refl].
    destruct (getDimensions _) as [new_w new_h].
    destruct (_ && _); [apply resize_canvas_announces | exists []; apply announces_refl].
  - inversion H; subst. unfold load_image. case_match.
    + exists []. apply announces_refl.
    + exists [history_changed]. apply announces_history; reflexivity.
  - destruct (ev_button event) eqn:Hb.
    + destruct (press_left_frame dp c event c' Hb H) as (He & _ & Ht & _).
      exists [history_changed]. apply announces_history; [exact He|].
      unfold tool_state in Ht. congruence.
    + unfold mousePressEvent in H. rewrite Hb in H.
      destruct (QPointF_toPoint _) as [p|]; [|discriminate H].
      cbn [mbind option_bind] in H. inversion H; subst.
      exists []. apply announces_nothing; reflexivity.
    + unfold mousePressEvent in H. rewrite Hb in H. inversion H; subst.
      exists []. apply announces_refl.
  - destruct (move_frame dl c event c' H) as (Hu & Hr & He & _ & Ht & _).
    exists []. apply announces_nothing; try assumption.
    unfold tool_state in Ht. congruence.
  - destruct (release_frame c event c' H) as (Hd & He & Ht & _).
    exists []. apply (announces_frame c c c' [] (announces_refl c) He Hd Ht).
Qed.

Lemma changes_are_announced_witness :
  exists c' new,
    perform pixel_drawPoint pixel_drawLine widened_canvas act_undo = Some c' /\
    announces widened_canvas c' new /\
    undo_stack c' <> undo_stack widened_canvas.
Proof.
  destruct (changes_are_announced pixel_drawPoint pixel_drawLine widened_canvas act_undo
              (undo widened_canvas) eq_refl) as [new Hnew].
  exists (undo widened_canvas), new.
  split; [reflexivity|]. split; [exact Hnew|].
  vm_compute. discriminate.
Defined.
